(** * Vision Assist: speech queue, geodesy, navigation and detection services

    A shallow embedding of the service classes of the application
    ([SpeechService], [HapticService], [LocationService],
    [NavigationService], [ObjectDetectionService]) with the properties of
    their queueing, timing and state-machine logic.

    Conventions.  Each service object is a record of its private fields.
    Platform devices (text-to-speech engine, interval timers, position
    watches, camera and model) are explicit components of a world record;
    what they answer is carried by the event that drives the world.  User
    callbacks are opaque: a call is recorded in a log. *)

From Stdlib Require Import List String Ascii ZArith QArith Qround Lia Bool Arith.
From Stdlib Require Import Reals Lra DecimalString.
From Stdlib Require Lqa.
Import ListNotations.
Open Scope string_scope.

(** ** Helpers shared by the services *)

(** [String(n)] for an integer [n], as template literals print it. *)
Definition string_of_Z (z : Z) : string :=
  NilZero.string_of_int (Z.to_int z).

(** [xs[i]] for a JavaScript array and a numeric index: [undefined] when the
    index is negative or past the end. *)
Definition js_index {A : Type} (xs : list A) (i : Z) : option A :=
  if (i <? 0)%Z then None else nth_error xs (Z.to_nat i).

(** [a !== false] for an optional boolean flag, which is also what a
    destructuring default of [true] computes. *)
Definition flag_default_true (b : option bool) : bool :=
  match b with Some false => false | _ => true end.

(* ===================================================================== *)
(** ** SpeechService *)
(* ===================================================================== *)

Module Speech.

(** A callback is known by a handle; calling it is recorded. *)
Definition Handle := nat.

Record SpeechOptions := mkSpeechOptions {
  language : option string;
  pitch : option Q;
  rate : option Q;
  onStart : option Handle;
  onDone : option Handle;
  onError : option Handle
}.

Definition noOptions : SpeechOptions :=
  mkSpeechOptions None None None None None None.

(** An entry of [queue]: [{ text, options }]. *)
Record Utterance := mkUtterance {
  text : string;
  options : option SpeechOptions
}.

(** What the engine receives from [Speech.speak(text, mergedOptions)].  The
    merged [onDone]/[onError] are closures over the utterance's own
    [options], kept here as [owner]. *)
Record EngineItem := mkEngineItem {
  e_text : string;
  e_language : option string;
  e_pitch : option Q;
  e_rate : option Q;
  e_onStart : option Handle;
  owner : option SpeechOptions
}.

(** A call of a completion callback of the service's user.  The [onStart]
    callbacks, which the engine calls itself, have a log of their own. *)
Inductive Call :=
| CallDone (h : Handle)
| CallError (h : Handle) (err : string).

Record World := mkWorld {
  isSpeaking : bool;
  queue : list Utterance;
  isProcessingQueue : bool;
  defaultOptions : SpeechOptions;
  (** utterances handed to the engine and not yet finished *)
  engine : list EngineItem;
  (** answers of the coming [Speech.speak] calls: [Some e] throws [e] *)
  faults : list (option string);
  (** completion callbacks invoked so far, oldest first *)
  calls : list Call;
  (** [onStart] callbacks invoked by the engine so far, oldest first *)
  started : list Handle
}.

Definition initialDefaults : SpeechOptions :=
  mkSpeechOptions (Some "en") (Some 1%Q) (Some (9 # 10)%Q) None None None.

Definition init (fs : list (option string)) : World :=
  mkWorld false [] false initialDefaults [] fs [] [].

(** Object spread: a key of the right operand overrides the left one. *)
Definition spread {A : Type} (l r : option A) : option A :=
  match r with Some _ => r | None => l end.

Definition optField {A : Type} (f : SpeechOptions -> option A)
    (o : option SpeechOptions) : option A :=
  match o with Some x => f x | None => None end.

Definition mergedOptions (d : SpeechOptions) (u : Utterance) : EngineItem :=
  mkEngineItem (text u)
    (spread (language d) (optField language (options u)))
    (spread (pitch d) (optField pitch (options u)))
    (spread (rate d) (optField rate (options u)))
    (spread (onStart d) (optField onStart (options u)))
    (options u).

(** [if (options?.onDone) options.onDone()] *)
Definition fireDone (o : option SpeechOptions) : list Call :=
  match optField onDone o with Some h => [CallDone h] | None => [] end.

(** [if (options?.onError) options.onError(error)] *)
Definition fireError (o : option SpeechOptions) (err : string) : list Call :=
  match optField onError o with Some h => [CallError h err] | None => [] end.

(** [processQueue], by recursion on the queue it consumes: the [catch]
    branch calls [processQueue] again, once per utterance the engine
    rejects. *)
Fixpoint processQueue_from (q : list Utterance) (w : World) : World :=
  match q with
  | [] =>
      mkWorld (isSpeaking w) [] false (defaultOptions w)
              (engine w) (faults w) (calls w) (started w)
  | u :: rest =>
      match faults w with
      | Some err :: fs =>
          (* Speech.speak threw: isSpeaking = false, onError, next item *)
          processQueue_from rest
            (mkWorld false rest true (defaultOptions w) (engine w) fs
                     (calls w ++ fireError (options u) err) (started w))
      | _ =>
          mkWorld true rest true (defaultOptions w)
                  (engine w ++ [mergedOptions (defaultOptions w) u])
                  (tl (faults w)) (calls w) (started w)
      end
  end.

Definition processQueue (w : World) : World :=
  processQueue_from (queue w) w.

Definition speak (t : string) (o : option SpeechOptions) (w : World) : World :=
  let w1 := mkWorld (isSpeaking w) (queue w ++ [mkUtterance t o])
                    (isProcessingQueue w) (defaultOptions w)
                    (engine w) (faults w) (calls w) (started w) in
  if isProcessingQueue w1 then w1 else processQueue w1.

(** [Speech.stop()] cancels what the engine holds; the engine reports a
    cancelled utterance through [onStopped], which [mergedOptions] does not
    carry, so no code of the service runs for it. *)
Definition stop (w : World) : World :=
  mkWorld false [] (isProcessingQueue w) (defaultOptions w)
          [] (faults w) (calls w) (started w).

Definition setDefaultOptions (o : SpeechOptions) (w : World) : World :=
  mkWorld (isSpeaking w) (queue w) (isProcessingQueue w)
    (mkSpeechOptions
       (spread (language (defaultOptions w)) (language o))
       (spread (pitch (defaultOptions w)) (pitch o))
       (spread (rate (defaultOptions w)) (rate o))
       (spread (onStart (defaultOptions w)) (onStart o))
       (spread (onDone (defaultOptions w)) (onDone o))
       (spread (onError (defaultOptions w)) (onError o)))
    (engine w) (faults w) (calls w) (started w).

(** The merged [onDone] closure of the utterance the engine finishes. *)
Definition mergedOnDone (o : option SpeechOptions) (w : World) : World :=
  processQueue
    (mkWorld false (queue w) (isProcessingQueue w) (defaultOptions w)
             (engine w) (faults w) (calls w ++ fireDone o) (started w)).

(** The merged [onError] closure. *)
Definition mergedOnError (o : option SpeechOptions) (err : string)
    (w : World) : World :=
  processQueue
    (mkWorld false (queue w) (isProcessingQueue w) (defaultOptions w)
             (engine w) (faults w) (calls w ++ fireError o err) (started w)).

Inductive Event :=
| ESpeak (t : string) (o : option SpeechOptions)
| EStop
| ESetDefaults (o : SpeechOptions)
| EDone                      (* the engine finishes its oldest utterance *)
| EError (err : string)      (* the engine fails on its oldest utterance *)
| EStarted.                  (* the engine begins its oldest utterance *)

Definition dropEngineHead (w : World) : World :=
  mkWorld (isSpeaking w) (queue w) (isProcessingQueue w) (defaultOptions w)
          (tl (engine w)) (faults w) (calls w) (started w).

(** The engine begins to speak an utterance: it calls the [onStart] it was
    handed in [mergedOptions], if any.  No code of the service runs. *)
Definition engineStarts (it : EngineItem) (w : World) : World :=
  mkWorld (isSpeaking w) (queue w) (isProcessingQueue w) (defaultOptions w)
          (engine w) (faults w) (calls w)
          (started w ++ match e_onStart it with
                        | Some h => [h]
                        | None => []
                        end).

(** One event; [None] when the engine is asked to finish an utterance it
    does not hold. *)
Definition step (w : World) (e : Event) : option World :=
  match e with
  | ESpeak t o => Some (speak t o w)
  | EStop => Some (stop w)
  | ESetDefaults o => Some (setDefaultOptions o w)
  | EDone =>
      match engine w with
      | it :: _ => Some (mergedOnDone (owner it) (dropEngineHead w))
      | [] => None
      end
  | EError err =>
      match engine w with
      | it :: _ => Some (mergedOnError (owner it) err (dropEngineHead w))
      | [] => None
      end
  | EStarted =>
      match engine w with
      | it :: _ => Some (engineStarts it w)
      | [] => None
      end
  end.

Fixpoint run (w : World) (es : list Event) : option World :=
  match es with
  | [] => Some w
  | e :: es' =>
      match step w e with
      | Some w' => run w' es'
      | None => None
      end
  end.

(** *** Vocabulary of the properties *)

(** The utterances a trace enqueues, in call order. *)
Definition enqueued (es : list Event) : list Utterance :=
  flat_map (fun e => match e with
                     | ESpeak t o => [mkUtterance t o]
                     | _ => []
                     end) es.

Definition is_stop (e : Event) : bool :=
  match e with EStop => true | _ => false end.

(** No [stop] in the trace. *)
Definition no_stop (es : list Event) : Prop :=
  forallb (fun e => negb (is_stop e)) es = true.

(** The utterance an engine item was merged from. *)
Definition of_item (it : EngineItem) : Utterance :=
  mkUtterance (e_text it) (owner it).

Inductive Outcome := Finished | Failed (err : string).

Definition fire (u : Utterance) (r : Outcome) : list Call :=
  match r with
  | Finished => fireDone (options u)
  | Failed err => fireError (options u) err
  end.

(** The callbacks fired by utterances [us] ending with outcomes [rs]. *)
Fixpoint fired (us : list Utterance) (rs : list Outcome) : list Call :=
  match us, rs with
  | u :: us', r :: rs' => fire u r ++ fired us' rs'
  | _, _ => []
  end.

(** The utterance carries both completion callbacks. *)
Definition has_callbacks (u : Utterance) : Prop :=
  optField onDone (options u) <> None /\ optField onError (options u) <> None.

(** Call [c] is a completion callback of utterance [u]. *)
Definition answers (c : Call) (u : Utterance) : Prop :=
  match c with
  | CallDone h => optField onDone (options u) = Some h
  | CallError h _ => optField onError (options u) = Some h
  end.

(** The event by which the engine ends its oldest utterance. *)
Definition completion (r : Outcome) : Event :=
  match r with Finished => EDone | Failed err => EError err end.

(** The engine finishing or failing its oldest utterance. *)
Definition is_completion (e : Event) : Prop :=
  match e with EDone | EError _ => True | _ => False end.

(** The next [Speech.speak] call does not throw. *)
Definition engine_accepts (w : World) : Prop :=
  match faults w with Some _ :: _ => False | _ => True end.

(** The invariant of a queue that was never stopped, against the list [us]
    of everything enqueued so far. *)
Definition Inv (w : World) (us : list Utterance) : Prop :=
  (engine w = [] -> isProcessingQueue w = false /\ queue w = [])
  /\ (engine w <> [] ->
      isProcessingQueue w = true /\ List.length (engine w) = 1%nat)
  /\ exists done rs,
       us = (done ++ map of_item (engine w) ++ queue w)%list
       /\ List.length rs = List.length done
       /\ calls w = fired done rs.

(** An utterance with both completion callbacks, and a trace used as an
    example: the engine rejects "two". *)
Definition both (d e : Handle) : option SpeechOptions :=
  Some (mkSpeechOptions None None None None (Some d) (Some e)).

Definition sample_trace : list Event :=
  [ESpeak "one" (both 1%nat 2%nat); ESpeak "two" (both 3%nat 4%nat); EDone;
   ESpeak "three" (both 5%nat 6%nat); EError "busy"].

End Speech.

(* ===================================================================== *)
(** ** LocationService: geodesy on real numbers *)
(* ===================================================================== *)

Module Geo.
Local Open Scope R_scope.

(** [Math.floor] and [Math.round]: the latter is [floor(x + 0.5)]. *)
Definition Math_floor (x : R) : Z := Int_part x.
Definition Math_round (x : R) : Z := Int_part (x + / 2).

(** Truncation toward zero, the quotient of the [%] operator. *)
Definition Math_trunc (x : R) : Z :=
  if Rle_dec 0 x then Int_part x else (- Int_part (- x))%Z.

(** [a % b] on numbers: the remainder takes the sign of the dividend. *)
Definition js_rem (a b : R) : R := a - b * IZR (Math_trunc (a / b)).

(** [Math.atan2(y, x)], by quadrant. *)
Definition atan2 (y x : R) : R :=
  if Rlt_dec 0 x then atan (y / x)
  else if Rlt_dec x 0 then
    if Rle_dec 0 y then atan (y / x) + PI else atan (y / x) - PI
  else if Rlt_dec 0 y then PI / 2
  else if Rlt_dec y 0 then - (PI / 2)
  else 0.

(** [calculateDistance] and [calculateBearing] are computed on the real
    numbers: the rounding of the double arithmetic of the source is not
    modelled, and what is proved of the two functions does not rest on
    exact values of their trigonometric terms. *)
Definition calculateDistance (lat1 lon1 lat2 lon2 : R) : R :=
  if Req_dec_T lat1 lat2 then
    if Req_dec_T lon1 lon2 then 0
    else
      let R0 := 6371000 in
      let phi1 := lat1 * PI / 180 in
      let phi2 := lat2 * PI / 180 in
      let dphi := (lat2 - lat1) * PI / 180 in
      let dlam := (lon2 - lon1) * PI / 180 in
      let a := sin (dphi / 2) * sin (dphi / 2)
               + cos phi1 * cos phi2 * sin (dlam / 2) * sin (dlam / 2) in
      let c := 2 * atan2 (sqrt a) (sqrt (1 - a)) in
      R0 * c
  else
    let R0 := 6371000 in
    let phi1 := lat1 * PI / 180 in
    let phi2 := lat2 * PI / 180 in
    let dphi := (lat2 - lat1) * PI / 180 in
    let dlam := (lon2 - lon1) * PI / 180 in
    let a := sin (dphi / 2) * sin (dphi / 2)
             + cos phi1 * cos phi2 * sin (dlam / 2) * sin (dlam / 2) in
    let c := 2 * atan2 (sqrt a) (sqrt (1 - a)) in
    R0 * c.

Definition calculateBearing (lat1 lon1 lat2 lon2 : R) : R :=
  let phi1 := lat1 * PI / 180 in
  let phi2 := lat2 * PI / 180 in
  let lam1 := lon1 * PI / 180 in
  let lam2 := lon2 * PI / 180 in
  let y := sin (lam2 - lam1) * cos phi2 in
  let x := cos phi1 * sin phi2 - sin phi1 * cos phi2 * cos (lam2 - lam1) in
  let theta := atan2 y x in
  js_rem (theta * 180 / PI + 360) 360.

(** The table of [bearingToDirection], nine entries as in the source. *)
Definition directions : list string :=
  ["North"; "Northeast"; "East"; "Southeast"; "South"; "Southwest"; "West";
   "Northwest"; "North"].

(** [directions[Math.round(bearing / 45) % 8]]; [None] is [undefined]. *)
Definition bearingToDirection (bearing : R) : option string :=
  js_index directions (Z.rem (Math_round (bearing / 45)) 8).

(** The eight labelled directions and the lookup as the specification words
    it: the direction of index [round(bearing/45) mod 8]. *)
Definition compass8 : list string :=
  ["North"; "Northeast"; "East"; "Southeast"; "South"; "Southwest"; "West";
   "Northwest"].

Definition bearingToCompass_spec (bearing : R) : string :=
  nth (Z.to_nat (Math_round (bearing / 45) mod 8)) compass8 "".

End Geo.

(* ===================================================================== *)
(** ** NavigationService over LocationService *)
(* ===================================================================== *)

Module Nav.
Import Geo.

Definition Handle := nat.

Record LocationCoordinates := mkCoords {
  latitude : R;
  longitude : R;
  altitude : option R;
  accuracy : option R;
  altitudeAccuracy : option R;
  heading : option R;
  speed : option R
}.

Definition coords (lat lon : R) : LocationCoordinates :=
  mkCoords lat lon None None None None None.

Record Destination := mkDestination {
  id : string;
  name : string;
  coordinates : LocationCoordinates;
  description : option string
}.

Record NavigationStep := mkStep {
  step_id : string;
  instruction : string;
  distance : Z;
  direction : option string;
  isCompleted : bool
}.

Record NavigationOptions := mkOptions {
  onLocationUpdate : option Handle;
  onStepChange : option Handle;
  onStepCompleted : option Handle;
  onArrival : option Handle;
  onError : option Handle;
  announceSteps : option bool;
  hapticFeedback : option bool;
  distanceThreshold : option R;
  updateInterval_ms : option Z
}.

Definition defaultOptions : NavigationOptions :=
  mkOptions None None None None None None None None None.

Inductive HapticFeedbackType := light | medium | heavy | success | warning | error.

(** What the orchestrator does to its collaborators and callbacks. *)
Inductive Output :=
| Say (t : string)                               (* speechService.speak *)
| Haptic (ty : HapticFeedbackType)               (* hapticService.trigger *)
| HapticAfter (ms : Z) (ty : HapticFeedbackType) (* setTimeout(trigger) *)
| CbLocationUpdate (h : Handle) (l : LocationCoordinates)
| CbStepChange (h : Handle) (s : NavigationStep) (index total : Z)
| CbStepCompleted (h : Handle) (s : NavigationStep) (index total : Z)
| CbArrival (h : Handle)
| CbError (h : Handle) (msg : string).

(** [hapticService.vibrateArrival] and [vibrateTurn]. *)
Definition vibrateArrival : list Output := [Haptic success].
Definition vibrateTurn : list Output := [Haptic medium; HapticAfter 300 medium].

Record World := mkWorld {
  (* NavigationService *)
  isNavigating : bool;
  currentDestination : option Destination;
  navigationSteps : list NavigationStep;
  currentStepIndex : Z;
  updateInterval : option Handle;
  lastLocation : option LocationCoordinates;
  (* LocationService *)
  watchId : option Handle;
  lastKnownLocation : option LocationCoordinates;
  isPermissionGranted : bool;
  (* platform: live interval timers and position watches, each with the
     options its callback closes over; next fresh handle *)
  timers : list (Handle * NavigationOptions);
  watches : list (Handle * NavigationOptions);
  fresh : Handle;
  out : list Output
}.

Definition commonDestinations : list Destination :=
  [ mkDestination "grocery-store" "Grocery Store" (coords 37.78825 (-122.4324)) None;
    mkDestination "park" "Park" (coords 37.78525 (-122.4354)) None;
    mkDestination "library" "Library" (coords 37.78925 (-122.4374)) None;
    mkDestination "bus-stop" "Bus Stop" (coords 37.78625 (-122.4304)) None;
    mkDestination "home" "Home" (coords 37.78725 (-122.4334)) None ].

(** The services as constructed at module load; [granted] is the answer to
    the permission request of the [LocationService] constructor. *)
Definition init (granted : bool) : World :=
  mkWorld false None [] 0 None None None None granted [] [] 0%nat [].

Definition getDestinationById (i : string) : option Destination :=
  find (fun d => String.eqb (id d) i) commonDestinations.

Definition getDestinationByName (n : string) : option Destination :=
  find (fun d => String.eqb (name d) n) commonDestinations.

Definition emit (o : list Output) (w : World) : World :=
  mkWorld (isNavigating w) (currentDestination w) (navigationSteps w)
    (currentStepIndex w) (updateInterval w) (lastLocation w) (watchId w)
    (lastKnownLocation w) (isPermissionGranted w) (timers w) (watches w)
    (fresh w) (out w ++ o).

Definition remove_handle {A : Type} (h : Handle) (l : list (Handle * A)) :=
  filter (fun p => negb (Nat.eqb (fst p) h)) l.

Definition lookup_handle {A : Type} (h : Handle) (l : list (Handle * A)) : option A :=
  option_map snd (find (fun p => Nat.eqb (fst p) h) l).

(** How a call that returns no value ends: normally, or by the
    [TypeError] of calling a method that its receiver does not have. *)
Inductive Outcome := Done | TypeError.

(** [LocationService.stopLocationTracking].  What [watchId] holds is the
    value of the call [Location.watchPositionAsync(...)], which is not
    awaited: a promise.  A promise has no [remove], so with a watch handle
    set [this.watchId.remove()] throws, before [watchId] is cleared; the
    watch itself is not touched. *)
Definition stopLocationTracking (w : World) : Outcome * World :=
  match watchId w with
  | Some _ => (TypeError, w)
  | None => (Done, w)
  end.

(** [NavigationService.stopNavigation]: the session and its timer are
    cleared before the last statement, [stopLocationTracking], runs. *)
Definition stopNavigation (w : World) : Outcome * World :=
  if negb (isNavigating w) then (Done, w)
  else
    stopLocationTracking
      (mkWorld false None [] 0 None (lastLocation w) (watchId w)
         (lastKnownLocation w) (isPermissionGranted w)
         (match updateInterval w with
          | Some t => remove_handle t (timers w)
          | None => timers w
          end)
         (watches w) (fresh w) (out w)).

Inductive PermissionAnswer := Granted | Denied | RequestFails.

(** [requestPermissions]: the flag is assigned unless the request throws. *)
Definition requestPermissions (a : PermissionAnswer) (w : World) : bool * World :=
  match a with
  | RequestFails => (false, w)
  | _ =>
      let g := match a with Granted => true | _ => false end in
      (g, mkWorld (isNavigating w) (currentDestination w) (navigationSteps w)
            (currentStepIndex w) (updateInterval w) (lastLocation w)
            (watchId w) (lastKnownLocation w) g (timers w) (watches w)
            (fresh w) (out w))
  end.

(** [getCurrentLocation] from its first suspension on; [granted] is the
    permission flag it read when called, [a] the answer to the permission
    request it then makes, [fix_] what [getCurrentPositionAsync] resolves
    to, [None] when it rejects. *)
Definition getCurrentLocation_resume (granted : bool) (a : PermissionAnswer)
    (fix_ : option LocationCoordinates) (w : World)
    : option LocationCoordinates * World :=
  let '(ok, w1) := if granted then (true, w) else requestPermissions a w in
  if negb ok then (None, w1)
  else
    match fix_ with
    | Some l =>
        (Some l,
         mkWorld (isNavigating w1) (currentDestination w1) (navigationSteps w1)
           (currentStepIndex w1) (updateInterval w1) (lastLocation w1)
           (watchId w1) (Some l) (isPermissionGranted w1) (timers w1)
           (watches w1) (fresh w1) (out w1))
    | None => (None, w1)
    end.

(** The [onError] closure that [startLocationTracking] of the navigation
    service hands to the location service. *)
Definition trackingError (o : NavigationOptions) (e : string) : list Output :=
  match onError o with
  | Some h => [CbError h ("Location tracking error: " ++ e)]
  | None => []
  end.

(** What [Location.watchPositionAsync] does: its promise resolves and the
    watch is live, its promise rejects and there is no watch, or the call
    itself throws. *)
Inductive WatchAnswer := Resolves | Rejects | Throws.

(** [LocationService.startWatching].  The call of [stopLocationTracking]
    stands before the [try]: when it throws, nothing else runs.  Inside
    the [try], [watchId] is assigned the promise whatever becomes of it;
    only a call that throws reaches the [catch]. *)
Definition startWatching (o : NavigationOptions) (a : WatchAnswer)
    (w : World) : Outcome * World :=
  match stopLocationTracking w with
  | (TypeError, w1) => (TypeError, w1)
  | (Done, w1) =>
      (Done,
       match a with
       | Throws => emit (trackingError o "Failed to track location") w1
       | Rejects =>
           mkWorld (isNavigating w1) (currentDestination w1)
             (navigationSteps w1) (currentStepIndex w1) (updateInterval w1)
             (lastLocation w1) (Some (fresh w1)) (lastKnownLocation w1)
             (isPermissionGranted w1) (timers w1) (watches w1)
             (S (fresh w1)) (out w1)
       | Resolves =>
           mkWorld (isNavigating w1) (currentDestination w1)
             (navigationSteps w1) (currentStepIndex w1) (updateInterval w1)
             (lastLocation w1) (Some (fresh w1)) (lastKnownLocation w1)
             (isPermissionGranted w1) (timers w1)
             (watches w1 ++ [(fresh w1, o)]) (S (fresh w1)) (out w1)
       end)
  end.

(** [LocationService.startLocationTracking]; the permission request of the
    first branch is answered by [a] and its continuation runs at once.  In
    that branch [startWatching] runs inside a [then] callback: what it
    throws rejects a promise that nobody reads and does not reach the
    caller. *)
Definition locationStartTracking (o : NavigationOptions)
    (a : PermissionAnswer) (wa : WatchAnswer) (w : World) : Outcome * World :=
  if negb (isPermissionGranted w) then
    let '(g, w1) := requestPermissions a w in
    if g then (Done, snd (startWatching o wa w1))
    else (Done, emit (trackingError o "Location permission not granted") w1)
  else startWatching o wa w.

(** [s.toLowerCase()] on the ASCII letters. *)
Definition lower_ascii (c : ascii) : ascii :=
  let n := nat_of_ascii c in
  if (65 <=? n)%nat && (n <=? 90)%nat then ascii_of_nat (n + 32) else c.

Fixpoint toLowerCase (s : string) : string :=
  match s with
  | EmptyString => EmptyString
  | String c r => String (lower_ascii c) (toLowerCase r)
  end.

(** An optional string inside a template literal. *)
Definition show (o : option string) : string :=
  match o with Some s => s | None => "undefined" end.

(** [x === 'right' ? 'Right' : 'Left'] *)
Definition turnLabel (o : option string) : string :=
  match o with
  | Some s => if String.eqb s "right" then "Right" else "Left"
  | None => "Left"
  end.

Definition turnDirections : list string := ["right"; "left"].

(** [generateNavigationSteps]; [r1] and [r2] are the two values of
    [Math.random()].  [None] is the [TypeError] of [toLowerCase] on an
    undefined direction. *)
Definition generateNavigationSteps (start end_ : LocationCoordinates)
    (r1 r2 : R) : option (list NavigationStep) :=
  let totalDistance :=
    calculateDistance (latitude start) (longitude start)
                      (latitude end_) (longitude end_) in
  let bearing :=
    calculateBearing (latitude start) (longitude start)
                     (latitude end_) (longitude end_) in
  match bearingToDirection bearing with
  | None => None
  | Some dir =>
      let third := Math_round (totalDistance / 3) in
      let randomTurn :=
        js_index turnDirections
          (Math_floor (r1 * INR (List.length turnDirections))) in
      let secondTurn :=
        js_index turnDirections
          (Math_floor (r2 * INR (List.length turnDirections))) in
      Some
        [ mkStep "step-1"
            ("Head " ++ toLowerCase dir ++ " for " ++ string_of_Z third
             ++ " meters")
            third (Some dir) false;
          mkStep "step-2"
            ("Turn " ++ show randomTurn ++ " at the intersection")
            0 (Some (turnLabel randomTurn)) false;
          mkStep "step-3"
            ("Continue straight for " ++ string_of_Z third ++ " meters")
            third (Some "Straight") false;
          mkStep "step-4" "Cross the street at the pedestrian crossing"
            0 (Some "Straight") false;
          mkStep "step-5"
            ("Turn " ++ show secondTurn ++ " after the bus stop")
            0 (Some (turnLabel secondTurn)) false;
          mkStep "step-6"
            ("Your destination is " ++ string_of_Z third
             ++ " meters ahead on your " ++ show randomTurn)
            third (Some (turnLabel randomTurn)) false ]
  end.

Definition when (b : bool) (o : list Output) : list Output :=
  if b then o else [].

Definition call1 (h : option Handle) (f : Handle -> Output) : list Output :=
  match h with Some x => [f x] | None => [] end.

Fixpoint update_nth {A : Type} (n : nat) (x : A) (l : list A) : list A :=
  match l, n with
  | [], _ => []
  | _ :: r, O => x :: r
  | y :: r, S m => y :: update_nth m x r
  end.

Definition complete (s : NavigationStep) : NavigationStep :=
  mkStep (step_id s) (instruction s) (distance s) (direction s) true.

Definition thresholdOf (o : NavigationOptions) : R :=
  match distanceThreshold o with Some t => t | None => 10%R end.

(** The callback given to [setInterval] by [startLocationTracking], closed
    over the options [o] of its session. *)
Definition intervalCallback (o : NavigationOptions) (w : World) : World :=
  let announce := flag_default_true (announceSteps o) in
  let haptic := flag_default_true (hapticFeedback o) in
  if negb (isNavigating w) then w
  else
    match lastLocation w, currentDestination w with
    | Some l, Some d =>
        let distanceToDestination :=
          calculateDistance (latitude l) (longitude l)
            (latitude (coordinates d)) (longitude (coordinates d)) in
        if Rle_dec distanceToDestination (thresholdOf o) then
          (* arrived *)
          mkWorld false (currentDestination w) (navigationSteps w)
            (currentStepIndex w) None (lastLocation w) (watchId w)
            (lastKnownLocation w) (isPermissionGranted w)
            (match updateInterval w with
             | Some t => remove_handle t (timers w)
             | None => timers w
             end)
            (watches w) (fresh w)
            (out w
             ++ when announce [Say ("You have arrived at " ++ name d)]
             ++ when haptic vibrateArrival
             ++ call1 (onArrival o) CbArrival)
        else
          match js_index (navigationSteps w) (currentStepIndex w) with
          | None => w   (* reading isCompleted of undefined throws *)
          | Some currentStep =>
              if isCompleted currentStep then w
              else if (currentStepIndex w
                         <? Z.of_nat (List.length (navigationSteps w)) - 1)%Z
              then
                let total := Z.of_nat (List.length (navigationSteps w)) in
                let steps :=
                  update_nth (Z.to_nat (currentStepIndex w))
                    (complete currentStep) (navigationSteps w) in
                let index := (currentStepIndex w + 1)%Z in
                let completed :=
                  call1 (onStepCompleted o)
                    (fun h => CbStepCompleted h (complete currentStep)
                                (currentStepIndex w) total) in
                let announced :=
                  match js_index steps index with
                  | Some nextStep =>
                      (when announce [Say (instruction nextStep)]
                       ++ when haptic vibrateTurn
                       ++ call1 (onStepChange o)
                            (fun h => CbStepChange h nextStep index total))%list
                  | None => []  (* not reached: index < length *)
                  end in
                mkWorld (isNavigating w) (currentDestination w) steps index
                  (updateInterval w) (lastLocation w) (watchId w)
                  (lastKnownLocation w) (isPermissionGranted w) (timers w)
                  (watches w) (fresh w) (out w ++ completed ++ announced)
              else w
          end
    | _, _ => w
    end.

(** The position callback of the watch, through [LocationService] into the
    [onLocationUpdate] closure of the navigation service. *)
Definition watchCallback (o : NavigationOptions) (l : LocationCoordinates)
    (w : World) : World :=
  mkWorld (isNavigating w) (currentDestination w) (navigationSteps w)
    (currentStepIndex w) (updateInterval w) (Some l) (watchId w) (Some l)
    (isPermissionGranted w) (timers w) (watches w) (fresh w)
    (out w ++ call1 (onLocationUpdate o) (fun h => CbLocationUpdate h l)).

(** [NavigationService.startLocationTracking]: when the location service
    throws, [setInterval] is not reached. *)
Definition startLocationTracking (o : NavigationOptions)
    (a : PermissionAnswer) (wa : WatchAnswer) (w : World) : Outcome * World :=
  match locationStartTracking o a wa w with
  | (TypeError, w1) => (TypeError, w1)
  | (Done, w1) =>
      (Done,
       mkWorld (isNavigating w1) (currentDestination w1) (navigationSteps w1)
         (currentStepIndex w1) (Some (fresh w1)) (lastLocation w1)
         (watchId w1) (lastKnownLocation w1) (isPermissionGranted w1)
         (timers w1 ++ [(fresh w1, o)]) (watches w1) (S (fresh w1)) (out w1))
  end.

(** What the platform answers during one [startNavigation]. *)
Record StartEnv := mkEnv {
  permission : PermissionAnswer;
  position : option LocationCoordinates;
  random1 : R;
  random2 : R;
  trackingPermission : PermissionAnswer;
  watchAnswer : WatchAnswer
}.

Inductive Result := Returned (b : bool) | Threw.

Definition resolve (destination : Destination + string) : option Destination :=
  match destination with
  | inr s =>
      match getDestinationById s with
      | Some d => Some d
      | None => getDestinationByName s
      end
  | inl d => Some d
  end.

(** A [startNavigation] call suspended at [await getCurrentLocation()]:
    the destination it resolved, its options, and the permission flag
    [getCurrentLocation] read before suspending. *)
Record Pending := mkPending {
  target : Destination;
  p_options : NavigationOptions;
  grantedAtCall : bool
}.

Inductive Begun := Finished (r : Result) | Suspended (p : Pending).

(** [startNavigation] up to its [await]; what [stopNavigation] throws
    ends the call, whose promise rejects. *)
Definition startNavigation_begin (destination : Destination + string)
    (o : NavigationOptions) (w : World) : Begun * World :=
  let '(stopped, w0) :=
    if isNavigating w then stopNavigation w else (Done, w) in
  match stopped with
  | TypeError => (Finished Threw, w0)
  | Done =>
      match resolve destination with
      | None =>
          (Finished (Returned false),
           emit (call1 (onError o) (fun h => CbError h "Invalid destination"))
                w0)
      | Some t => (Suspended (mkPending t o (isPermissionGranted w0)), w0)
      end
  end.

(** [startNavigation] from its [await] on, on the world as it is by
    then. *)
Definition startNavigation_resume (p : Pending) (env : StartEnv) (w : World)
    : Result * World :=
  let o := p_options p in
  let '(cur, w1) :=
    getCurrentLocation_resume (grantedAtCall p) (permission env)
      (position env) w in
  match cur with
  | None =>
      (Returned false,
       emit (call1 (onError o)
               (fun h => CbError h "Unable to get current location")) w1)
  | Some l =>
      let w2 :=
        mkWorld true (Some (target p)) (navigationSteps w1)
          (currentStepIndex w1) (updateInterval w1) (Some l) (watchId w1)
          (lastKnownLocation w1) (isPermissionGranted w1) (timers w1)
          (watches w1) (fresh w1) (out w1) in
      match generateNavigationSteps l (coordinates (target p))
              (random1 env) (random2 env) with
      | None => (Threw, w2)
      | Some steps =>
          let w3 :=
            mkWorld true (Some (target p)) steps 0 (updateInterval w1)
              (Some l) (watchId w1) (lastKnownLocation w1)
              (isPermissionGranted w1) (timers w1) (watches w1)
              (fresh w1) (out w1) in
          match js_index steps 0 with
          | None => (Threw, w3)  (* not reached: six steps *)
          | Some first =>
              let w4 :=
                emit
                  (when (flag_default_true (announceSteps o))
                     [Say ("Starting navigation to " ++ name (target p)
                           ++ ". " ++ instruction first)]
                   ++ when (flag_default_true (hapticFeedback o))
                        [Haptic medium]
                   ++ call1 (onStepChange o)
                        (fun h => CbStepChange h first 0
                                    (Z.of_nat (List.length steps))))
                  w3 in
              match startLocationTracking o (trackingPermission env)
                      (watchAnswer env) w4 with
              | (Done, w5) => (Returned true, w5)
              | (TypeError, w5) => (Threw, w5)
              end
          end
      end
  end.

(** A [startNavigation] call during whose [await] nothing else runs. *)
Definition startNavigation (destination : Destination + string)
    (o : NavigationOptions) (env : StartEnv) (w : World) : Result * World :=
  match startNavigation_begin destination o w with
  | (Finished r, w1) => (r, w1)
  | (Suspended p, w1) => startNavigation_resume p env w1
  end.

Definition setIndex (i : Z) (w : World) : World :=
  mkWorld (isNavigating w) (currentDestination w) (navigationSteps w) i
    (updateInterval w) (lastLocation w) (watchId w) (lastKnownLocation w)
    (isPermissionGranted w) (timers w) (watches w) (fresh w) (out w).

Definition moveToNextStep (w : World) : bool * World :=
  if negb (isNavigating w)
     || (Z.of_nat (List.length (navigationSteps w)) - 1 <=? currentStepIndex w)%Z
  then (false, w)
  else (true, setIndex (currentStepIndex w + 1) w).

Definition moveToPreviousStep (w : World) : bool * World :=
  if negb (isNavigating w) || (currentStepIndex w <=? 0)%Z
  then (false, w)
  else (true, setIndex (currentStepIndex w - 1) w).

(** The services together with the [startNavigation] calls that are
    suspended at their [await]. *)
Record System := mkSystem {
  world : World;
  pending : list Pending
}.

Definition initial (granted : bool) : System := mkSystem (init granted) [].

Definition remove_nth {A : Type} (k : nat) (l : list A) : list A :=
  (firstn k l ++ skipn (S k) l)%list.

Inductive Event :=
| EStart (destination : Destination + string) (o : NavigationOptions)
                                         (* a call runs up to its await *)
| EResume (k : nat) (env : StartEnv)     (* suspended call [k] resumes *)
| EStopNavigation
| ETick (t : Handle)                               (* an interval fires *)
| EPosition (h : Handle) (l : LocationCoordinates) (* a watch reports *)
| ENext
| EPrevious.

(** One event; [None] when the timer, watch or suspended call named does
    not exist.  A call that throws leaves the services as they are at the
    throw. *)
Definition step (s : System) (e : Event) : option System :=
  let w := world s in
  match e with
  | EStart d o =>
      match startNavigation_begin d o w with
      | (Finished _, w1) => Some (mkSystem w1 (pending s))
      | (Suspended p, w1) => Some (mkSystem w1 (pending s ++ [p]))
      end
  | EResume k env =>
      match nth_error (pending s) k with
      | Some p =>
          Some (mkSystem (snd (startNavigation_resume p env w))
                         (remove_nth k (pending s)))
      | None => None
      end
  | EStopNavigation =>
      Some (mkSystem (snd (stopNavigation w)) (pending s))
  | ETick t =>
      match lookup_handle t (timers w) with
      | Some o => Some (mkSystem (intervalCallback o w) (pending s))
      | None => None
      end
  | EPosition h l =>
      match lookup_handle h (watches w) with
      | Some o => Some (mkSystem (watchCallback o l w) (pending s))
      | None => None
      end
  | ENext => Some (mkSystem (snd (moveToNextStep w)) (pending s))
  | EPrevious => Some (mkSystem (snd (moveToPreviousStep w)) (pending s))
  end.

Fixpoint run (s : System) (es : list Event) : option System :=
  match es with
  | [] => Some s
  | e :: es' =>
      match step s e with
      | Some s' => run s' es'
      | None => None
      end
  end.

(** *** Vocabulary of the properties *)

(** The platform holds at most one watch, and it is the one whose promise
    the location service holds as [watchId]. *)
Definition WatchOk (w : World) : Prop :=
  watches w = [] \/ exists h o, watchId w = Some h /\ watches w = [(h, o)].

(** The fields of the navigation session and its timer agree. *)
Definition same_session (w1 w : World) : Prop :=
  isNavigating w1 = isNavigating w
  /\ currentDestination w1 = currentDestination w
  /\ navigationSteps w1 = navigationSteps w
  /\ currentStepIndex w1 = currentStepIndex w
  /\ updateInterval w1 = updateInterval w
  /\ timers w1 = timers w.

(** Options with [onLocationUpdate], [onArrival] and [onError] callbacks. *)
Definition sampleOptions : NavigationOptions :=
  mkOptions (Some 1%nat) None None (Some 2%nat) (Some 3%nat)
            None None None None.

Definition parkPosition : LocationCoordinates := coords 37.78525 (-122.4354).

(** A platform that grants the permission and reports the user at the Park. *)
Definition sampleEnv : StartEnv :=
  mkEnv Granted (Some parkPosition) 0 0 Granted Resolves.

End Nav.

(* ===================================================================== *)
(** ** ObjectDetectionService *)
(* ===================================================================== *)

Module Detect.
Local Open Scope Q_scope.

Definition Handle := nat.

Definition COCO_LABELS : list string :=
  ["person"; "bicycle"; "car"; "motorcycle"; "airplane"; "bus"; "train";
   "truck"; "boat"; "traffic light"; "fire hydrant"; "stop sign";
   "parking meter"; "bench"; "bird"; "cat"; "dog"; "horse"; "sheep"; "cow";
   "elephant"; "bear"; "zebra"; "giraffe"; "backpack"; "umbrella";
   "handbag"; "tie"; "suitcase"; "frisbee"; "skis"; "snowboard";
   "sports ball"; "kite"; "baseball bat"; "baseball glove"; "skateboard";
   "surfboard"; "tennis racket"; "bottle"; "wine glass"; "cup"; "fork";
   "knife"; "spoon"; "bowl"; "banana"; "apple"; "sandwich"; "orange";
   "broccoli"; "carrot"; "hot dog"; "pizza"; "donut"; "cake"; "chair";
   "couch"; "potted plant"; "bed"; "dining table"; "toilet"; "tv"; "laptop";
   "mouse"; "remote"; "keyboard"; "cell phone"; "microwave"; "oven";
   "toaster"; "sink"; "refrigerator"; "book"; "clock"; "vase"; "scissors";
   "teddy bear"; "hair drier"; "toothbrush"]%string.

Record BoundingBox := mkBox {
  x : option Q;
  y : option Q;
  width : option Q;
  height : option Q
}.

Record DetectedObject := mkObject {
  id : string;
  name : option string;
  confidence : Q;
  boundingBox : option BoundingBox;
  distance : option Q
}.

Record ObjectDetectionOptions := mkOptions {
  onDetection : option Handle;
  onError : option Handle;
  confidenceThreshold : option Q;
  detectionInterval_ms : option Z;
  maxDetections : option Z;
  announceObjects : option bool;
  hapticFeedback : option bool
}.

(** The arguments of [startDetectionProcess], defaults filled in. *)
Record Params := mkParams {
  p_onDetection : option Handle;
  p_onError : option Handle;
  p_confidenceThreshold : Q;
  p_detectionInterval : Z;
  p_maxDetections : Z;
  p_announceObjects : bool;
  p_hapticFeedback : bool
}.

Definition orDefault {A : Type} (o : option A) (d : A) : A :=
  match o with Some v => v | None => d end.

Definition paramsOf (o : ObjectDetectionOptions) : Params :=
  mkParams (onDetection o) (onError o)
    (orDefault (confidenceThreshold o) (1 # 2))
    (orDefault (detectionInterval_ms o) 3000%Z)
    (orDefault (maxDetections o) 5%Z)
    (orDefault (announceObjects o) true)
    (orDefault (hapticFeedback o) true).

(** The three tensors read back from [model.predict]. *)
Record Predictions := mkPredictions {
  boxes : list Q;
  scores : list Q;
  classes : list Z
}.

(** [Math.round(x)] is [floor(x + 0.5)]. *)
Definition Math_round (q : Q) : Z := Qfloor (q + (1 # 2)).

Definition estimateDistance (c : Q) : Q :=
  inject_Z (Math_round ((1 - c) * 5 * 10)) / 10.

(** [a > b] on numbers. *)
Definition gt (a b : Q) : bool := negb (Qle_bool a b).

Definition show (o : option string) : string :=
  match o with Some s => s | None => "undefined"%string end.

(** The body of the [for] loop of [processImage] from index [i] on, over
    the scores still to visit; [now k] is what [Date.now()] reads in
    iteration [k]. *)
Fixpoint processLoop (p : Predictions) (now : nat -> Z) (i : nat)
    (rest : list Q) : list DetectedObject :=
  match rest with
  | [] => []
  | s :: rest' =>
      let tail := processLoop p now (S i) rest' in
      if gt s (1 # 2) then
        match nth_error (classes p) i with
        | Some classIndex =>
            if (classIndex <? Z.of_nat (List.length COCO_LABELS))%Z then
              let label := js_index COCO_LABELS classIndex in
              mkObject
                (show label ++ "-" ++ string_of_Z (now i))%string
                label s
                (Some (mkBox (nth_error (boxes p) (i * 4))
                             (nth_error (boxes p) (i * 4 + 1))
                             (nth_error (boxes p) (i * 4 + 2))
                             (nth_error (boxes p) (i * 4 + 3))))
                (Some (estimateDistance s))
              :: tail
            else tail
        | None => tail     (* [undefined < 80] is false *)
        end
      else tail
  end.

(** What the image pipeline of [processImage] yields: a thrown error on the
    way (fetch, decode, predict), or the predictions with the clock. *)
Inductive Inference :=
| InferenceFails
| Predicted (p : Predictions) (now : nat -> Z).

Definition processImage (isModelLoaded model : bool) (r : Inference)
    : list DetectedObject :=
  if negb isModelLoaded then []
  else if negb model then []
  else
    match r with
    | InferenceFails => []
    | Predicted p now => processLoop p now 0 (scores p)
    end.

(** A number with at most one decimal digit, as a template literal prints
    it; [estimateDistance] yields no other. *)
Definition show_tenths (t : Z) : string :=
  let a := Z.abs t in
  ((if (t <? 0)%Z then "-" else "")
   ++ string_of_Z (a / 10)
   ++ (if (a mod 10 =? 0)%Z then "" else "." ++ string_of_Z (a mod 10)))%string.

Definition show_number (q : Q) : string := show_tenths (Qfloor (q * 10)).

(** [obj.distance ? ` about ${obj.distance} meters away` : ''] *)
Definition distanceSuffix (o : DetectedObject) : string :=
  match distance o with
  | Some d =>
      if Qeq_bool d 0 then ""%string
      else (" about " ++ show_number d ++ " meters away")%string
  | None => ""%string
  end.

Definition describe (o : DetectedObject) : string :=
  ("a " ++ show (name o) ++ distanceSuffix o)%string.

(** The [forEach] of the announcement, at [index] of [total]. *)
Fixpoint announceList (objs : list DetectedObject) (index total : nat)
    : string :=
  match objs with
  | [] => ""%string
  | o :: rest =>
      ((if (0 <? index)%nat
        then (if (index =? total - 1)%nat then " and " else ", ")
        else "")
       ++ describe o ++ announceList rest (S index) total)%string
  end.

Definition announcement (objs : list DetectedObject) : string :=
  match objs with
  | [obj] => ("Detected " ++ describe obj)%string
  | _ => ("Detected: " ++ announceList objs 0 (List.length objs))%string
  end.

Inductive Output :=
| Haptic_light                                   (* hapticService.trigger *)
| Say (t : string)                               (* speechService.speak *)
| CbDetection (h : Handle) (objs : list DetectedObject)
| CbError (h : Handle) (msg : string).

(** A [detectFrame] call suspended at its camera capture. *)
Record Frame := mkFrame {
  currentTime : Z;
  params : Params
}.

Record World := mkWorld {
  (* ObjectDetectionService *)
  isDetecting : bool;
  detectionInterval : option Handle;
  cameraRef : bool;           (* a camera view is attached *)
  hasPermission : bool;
  lastFrameTime : Z;
  frameInterval : Z;
  isModelLoaded : bool;
  model : bool;               (* the model field is not null *)
  (* platform *)
  web : bool;                 (* Platform.OS === 'web' *)
  timers : list (Handle * Params);
  inflight : list Frame;
  captures : nat;             (* calls of takePictureAsync so far *)
  fresh : Handle;
  out : list Output
}.

Definition init (granted camera onWeb : bool) : World :=
  mkWorld false None camera granted 0 1000 false false onWeb [] [] 0 0%nat [].

Definition emit (o : list Output) (w : World) : World :=
  mkWorld (isDetecting w) (detectionInterval w) (cameraRef w)
    (hasPermission w) (lastFrameTime w) (frameInterval w) (isModelLoaded w)
    (model w) (web w) (timers w) (inflight w) (captures w) (fresh w)
    (out w ++ o).

Definition call1 (h : option Handle) (f : Handle -> Output) : list Output :=
  match h with Some v => [f v] | None => [] end.

Definition when (b : bool) (o : list Output) : list Output :=
  if b then o else [].

(** The [catch] of [detectFrame]. *)
Definition frameError (p : Params) : list Output :=
  call1 (p_onError p) (fun h => CbError h "Error during object detection").

(** [detectFrame] up to its first suspension, called at time [now]. *)
Definition detectFrame (p : Params) (now : Z) (w : World) : World :=
  if (now - lastFrameTime w <? frameInterval w)%Z then w
  else if negb (cameraRef w) || web w then
    (* takePicture answers null: 'Failed to capture image' is thrown *)
    emit (frameError p) w
  else
    mkWorld (isDetecting w) (detectionInterval w) (cameraRef w)
      (hasPermission w) (lastFrameTime w) (frameInterval w)
      (isModelLoaded w) (model w) (web w) (timers w)
      (inflight w ++ [mkFrame now p]) (S (captures w)) (fresh w) (out w).

(** What comes back for a suspended frame. *)
Inductive FrameResult :=
| CaptureFails                     (* takePictureAsync throws *)
| Captured (r : Inference).

(** [detectFrame] from the capture on. *)
Definition resumeFrame (f : Frame) (r : FrameResult) (w : World) : World :=
  let p := params f in
  match r with
  | CaptureFails => emit (frameError p) w
  | Captured inf =>
      let detectedObjects := processImage (isModelLoaded w) (model w) inf in
      let o :=
        match detectedObjects with
        | [] => []
        | _ =>
            (when (p_hapticFeedback p && negb (web w)) [Haptic_light]
             ++ when (p_announceObjects p) [Say (announcement detectedObjects)]
             ++ call1 (p_onDetection p)
                  (fun h => CbDetection h detectedObjects))%list
        end in
      mkWorld (isDetecting w) (detectionInterval w) (cameraRef w)
        (hasPermission w) (currentTime f) (frameInterval w)
        (isModelLoaded w) (model w) (web w) (timers w) (inflight w)
        (captures w) (fresh w) (out w ++ o)
  end.

(** [startDetectionProcess]: [now] is the clock at its second line, [now0]
    the clock inside the first [detectFrame]. *)
Definition startDetectionProcess (p : Params) (now now0 : Z) (w : World)
    : World :=
  let w1 :=
    mkWorld true (detectionInterval w) (cameraRef w) (hasPermission w) now
      (frameInterval w) (isModelLoaded w) (model w) (web w) (timers w)
      (inflight w) (captures w) (fresh w) (out w) in
  let w2 := detectFrame p now0 w1 in
  mkWorld (isDetecting w2) (Some (fresh w2)) (cameraRef w2)
    (hasPermission w2) (lastFrameTime w2) (frameInterval w2)
    (isModelLoaded w2) (model w2) (web w2) (timers w2 ++ [(fresh w2, p)])
    (inflight w2) (captures w2) (S (fresh w2)) (out w2).

Inductive PermissionAnswer := Granted | Denied | RequestFails.

Definition requestCameraPermission (a : PermissionAnswer) (w : World)
    : bool * World :=
  match a with
  | RequestFails => (false, w)
  | _ =>
      let g := match a with Granted => true | _ => false end in
      (g, mkWorld (isDetecting w) (detectionInterval w) (cameraRef w) g
            (lastFrameTime w) (frameInterval w) (isModelLoaded w) (model w)
            (web w) (timers w) (inflight w) (captures w) (fresh w) (out w))
  end.

(** [startDetection]; the permission request of its first branch is
    answered by [a] and its continuation runs at once. *)
Definition startDetection (o : ObjectDetectionOptions) (a : PermissionAnswer)
    (now now0 : Z) (w : World) : World :=
  if isDetecting w then w
  else if negb (hasPermission w) then
    let '(g, w1) := requestCameraPermission a w in
    if g then startDetectionProcess (paramsOf o) now now0 w1
    else emit (call1 (onError o)
                 (fun h => CbError h "Camera permission not granted")) w1
  else startDetectionProcess (paramsOf o) now now0 w.

Definition remove_handle {A : Type} (h : Handle) (l : list (Handle * A)) :=
  filter (fun p => negb (Nat.eqb (fst p) h)) l.

Definition lookup_handle {A : Type} (h : Handle) (l : list (Handle * A))
    : option A :=
  option_map snd (find (fun p => Nat.eqb (fst p) h) l).

Definition stopDetection (w : World) : World :=
  if negb (isDetecting w) then w
  else
    mkWorld false None (cameraRef w) (hasPermission w) (lastFrameTime w)
      (frameInterval w) (isModelLoaded w) (model w) (web w)
      (match detectionInterval w with
       | Some t => remove_handle t (timers w)
       | None => timers w
       end)
      (inflight w) (captures w) (fresh w) (out w).

(** [loadModel] reaching its last lines. *)
Definition modelLoaded (w : World) : World :=
  mkWorld (isDetecting w) (detectionInterval w) (cameraRef w)
    (hasPermission w) (lastFrameTime w) (frameInterval w) true true (web w)
    (timers w) (inflight w) (captures w) (fresh w) (out w).

Definition setCameraRef (w : World) : World :=
  mkWorld (isDetecting w) (detectionInterval w) true (hasPermission w)
    (lastFrameTime w) (frameInterval w) (isModelLoaded w) (model w) (web w)
    (timers w) (inflight w) (captures w) (fresh w) (out w).

Definition dropFrame (k : nat) (w : World) : World :=
  mkWorld (isDetecting w) (detectionInterval w) (cameraRef w)
    (hasPermission w) (lastFrameTime w) (frameInterval w) (isModelLoaded w)
    (model w) (web w) (timers w)
    (firstn k (inflight w) ++ skipn (S k) (inflight w))
    (captures w) (fresh w) (out w).

Inductive Event :=
| EStart (o : ObjectDetectionOptions) (a : PermissionAnswer) (now now0 : Z)
| EStop
| EModelLoaded
| ESetCameraRef
| ETick (t : Handle) (now : Z)          (* the interval fires at [now] *)
| EFrame (k : nat) (r : FrameResult).   (* suspended frame [k] resumes *)

Definition step (w : World) (e : Event) : option World :=
  match e with
  | EStart o a now now0 => Some (startDetection o a now now0 w)
  | EStop => Some (stopDetection w)
  | EModelLoaded => Some (modelLoaded w)
  | ESetCameraRef => Some (setCameraRef w)
  | ETick t now =>
      match lookup_handle t (timers w) with
      | Some p => Some (detectFrame p now w)
      | None => None
      end
  | EFrame k r =>
      match nth_error (inflight w) k with
      | Some f => Some (resumeFrame f r (dropFrame k w))
      | None => None
      end
  end.

Fixpoint run (w : World) (es : list Event) : option World :=
  match es with
  | [] => Some w
  | e :: es' =>
      match step w e with
      | Some w' => run w' es'
      | None => None
      end
  end.

(** *** Vocabulary of the properties *)

(** Two firings of timer [t], at [t1] and then at [t2]; a frame the first
    one starts has its picture taken and its inference [r] back before the
    second fires. *)
Definition two_triggers (t : Handle) (t1 t2 : Z) (r : Inference) (w : World)
    : option World :=
  match step w (ETick t t1) with
  | Some w1 =>
      match inflight w1 with
      | [] => step w1 (ETick t t2)
      | _ :: _ =>
          match step w1 (EFrame 0 (Captured r)) with
          | Some w2 => step w2 (ETick t t2)
          | None => None
          end
      end
  | None => None
  end.

(** Options asking for a threshold of 0.85, at most one detection and a
    timer every 200 ms. *)
Definition strictOptions : ObjectDetectionOptions :=
  mkOptions (Some 1%nat) (Some 2%nat) (Some (85 # 100)) (Some 200%Z)
            (Some 1%Z) None None.

(** Two people seen in one frame, read within one millisecond. *)
Definition twoPeople : Inference :=
  Predicted (mkPredictions
               [1 # 10; 1 # 10; 2 # 10; 2 # 10; 5 # 10; 5 # 10; 3 # 10; 3 # 10]
               [9 # 10; 8 # 10] [0%Z; 0%Z])
            (fun _ => 1700000000000%Z).

(** The confidences of the example of the specification. *)
Definition oneOfTwo : Inference :=
  Predicted (mkPredictions
               [1 # 10; 1 # 10; 2 # 10; 2 # 10; 5 # 10; 5 # 10; 3 # 10; 3 # 10]
               [9 # 10; 4 # 10] [15%Z; 16%Z])
            (fun _ => 1700000000000%Z).

(** The service with camera, permission and model, detecting since time 0
    under [strictOptions]. *)
Definition started : option World :=
  run (init true true false)
      [EModelLoaded; EStart strictOptions Granted 0 0].

End Detect.

(* ===================================================================== *)
(** ** Further vocabulary for the speech queue *)
(* ===================================================================== *)

Module SpeechTerms.
Import Speech.

(** Call [c] is a completion callback of one of the utterances [us]. *)
Definition answered_by (us : list Utterance) (c : Call) : Prop :=
  exists u, In u us /\ answers c u.

(** Everything the service or the engine holds was enqueued among [us],
    and every callback fired since the log read [base] answers one of
    [us]. *)
Definition Traced (w : World) (us : list Utterance) (base : list Call)
    : Prop :=
  Forall (fun it => In (of_item it) us) (engine w)
  /\ Forall (fun u => In u us) (queue w)
  /\ exists later, calls w = (base ++ later)%list
                   /\ Forall (answered_by us) later.

(** Where an [onStart] handle can come from: the options of an utterance
    enqueued by the trace, or options passed to [setDefaultOptions]. *)
Definition start_source (es : list Event) (h : Handle) : Prop :=
  (exists u, In u (enqueued es) /\ optField onStart (options u) = Some h)
  \/ (exists o, In (ESetDefaults o) es /\ onStart o = Some h).

(** Every [onStart] the service or the engine holds, and every one called
    so far, has its source in the trace [es]. *)
Definition StartsOk (w : World) (es : list Event) : Prop :=
  (forall h, onStart (defaultOptions w) = Some h ->
             exists o, In (ESetDefaults o) es /\ onStart o = Some h)
  /\ Forall (fun it => forall h, e_onStart it = Some h -> start_source es h)
            (engine w)
  /\ Forall (fun u => In u (enqueued es)) (queue w)
  /\ Forall (start_source es) (started w).

(** Default options that carry all three callbacks. *)
Definition defaultCallbacks (s d e : Handle) : SpeechOptions :=
  mkSpeechOptions None None None (Some s) (Some d) (Some e).

(** The flag [isSpeaking] against the engine, with the engine bound. *)
Definition FlagOk (w : World) : Prop :=
  (engine w = [] \/ exists it, engine w = [it] /\ isProcessingQueue w = true)
  /\ (isSpeaking w = true <-> engine w <> []).

(** A trace with a [stop] in the middle: the engine is busy with "one",
    "two" waits, then [stop], then "three" is enqueued. *)
Definition stopped_trace : list Event :=
  [ESpeak "one" (both 1%nat 2%nat); ESpeak "two" (both 3%nat 4%nat); EStop;
   ESpeak "three" (both 5%nat 6%nat)].

End SpeechTerms.

(* ===================================================================== *)
(** ** Further vocabulary for the geodesy *)
(* ===================================================================== *)

Module GeoTerms.
Import Geo.
Local Open Scope R_scope.

(** The constant [a] of [calculateDistance], the haversine of the central
    angle, whose square roots the function takes. *)
Definition haversineTerm (lat1 lon1 lat2 lon2 : R) : R :=
  let phi1 := lat1 * PI / 180 in
  let phi2 := lat2 * PI / 180 in
  let dphi := (lat2 - lat1) * PI / 180 in
  let dlam := (lon2 - lon1) * PI / 180 in
  sin (dphi / 2) * sin (dphi / 2)
  + cos phi1 * cos phi2 * sin (dlam / 2) * sin (dlam / 2).

End GeoTerms.

(* ===================================================================== *)
(** ** NavigationService: queries, and vocabulary for further properties *)
(* ===================================================================== *)

Module NavTerms.
Import Geo Nav.

(** A value that may be [null] or [undefined]. *)
Inductive Nullable (A : Type) :=
| Null
| Undefined
| Just (a : A).
Arguments Null {A}.
Arguments Undefined {A}.
Arguments Just {A} a.

(** [getCurrentStep] *)
Definition getCurrentStep (w : World) : Nullable NavigationStep :=
  if negb (isNavigating w) || (List.length (navigationSteps w) =? 0)%nat
  then Null
  else
    match js_index (navigationSteps w) (currentStepIndex w) with
    | Some s => Just s
    | None => Undefined
    end.

(** [isNavigationActive], [getTotalSteps] *)
Definition isNavigationActive (w : World) : bool := isNavigating w.
Definition getTotalSteps (w : World) : Z :=
  Z.of_nat (List.length (navigationSteps w)).

(** [n] firings in a row of the interval of a session with options [o]. *)
Fixpoint ticks (n : nat) (o : NavigationOptions) (w : World) : World :=
  match n with
  | O => w
  | S k => ticks k o (intervalCallback o w)
  end.

(** The step list is empty with index 0, or the index is within it; an
    active session has six steps. *)
Definition StepsOk (w : World) : Prop :=
  ((navigationSteps w = [] /\ currentStepIndex w = 0%Z)
   \/ (0 <= currentStepIndex w
       < Z.of_nat (List.length (navigationSteps w)))%Z)
  /\ (isNavigating w = true -> List.length (navigationSteps w) = 6%nat).

(** The last position is further from the destination than the
    threshold of [o]. *)
Definition away (o : NavigationOptions) (w : World) : Prop :=
  exists l d,
    lastLocation w = Some l /\ currentDestination w = Some d
    /\ ~ (calculateDistance (latitude l) (longitude l)
            (latitude (coordinates d)) (longitude (coordinates d))
          <= thresholdOf o)%R.

(** An active session at its first step, none completed. *)
Definition at_first_step (w : World) : Prop :=
  isNavigating w = true /\ currentStepIndex w = 0%Z
  /\ Forall (fun s => isCompleted s = false) (navigationSteps w).

(** Options under which no position counts as arrived, and a two-step
    session at the Park used as an example. *)
Definition neverArrive : NavigationOptions :=
  mkOptions None None None None None None None (Some (-1)%R) None.

Definition twoSteps : World :=
  mkWorld true
    (Some (mkDestination "park" "Park" parkPosition None))
    [mkStep "step-1" "Head north" 10 (Some "North") false;
     mkStep "step-2" "Arrive" 0 None false]
    0 (Some 1%nat) (Some parkPosition) (Some 0%nat) (Some parkPosition) true
    [(1%nat, neverArrive)] [(0%nat, neverArrive)] 2%nat [].

(** A platform that refuses the location permission. *)
Definition deniedEnv : StartEnv :=
  mkEnv Denied (Some parkPosition) 0 0 Denied Resolves.

End NavTerms.

(* ===================================================================== *)
(** ** Further vocabulary for the detection pipeline *)
(* ===================================================================== *)

Module DetectTerms.
Import Detect.
Local Open Scope Q_scope.

(** The service holds a timer exactly while it is detecting, and the
    camera permission it was constructed with. *)
Definition TimerOk (w : World) : Prop :=
  hasPermission w = true
  /\ if isDetecting w
     then exists t p, detectionInterval w = Some t /\ timers w = [(t, p)]
     else detectionInterval w = None /\ timers w = [].

(** Every class index names a label. *)
Definition labelled (p : Predictions) : Prop :=
  (List.length (scores p) <= List.length (classes p))%nat
  /\ Forall (fun c => (0 <= c < Z.of_nat (List.length COCO_LABELS))%Z)
            (classes p).

(** The objects after the first in an announcement of several. *)
Fixpoint listed (objs : list DetectedObject) (last : DetectedObject)
    : string :=
  match objs with
  | [] => (" and " ++ describe last)%string
  | o :: rest => (", " ++ describe o ++ listed rest last)%string
  end.

(** Three scores around the threshold, all of known classes. *)
Definition threeScores : Predictions :=
  mkPredictions [] [9 # 10; 1 # 2; 6 # 10] [15%Z; 16%Z; 0%Z].

End DetectTerms.

(* ===================================================================== *)
(** ** HapticService *)
(* ===================================================================== *)

Module Haptic.
Import Nav.

Inductive ImpactFeedbackStyle := Light | Medium | Heavy.
Inductive NotificationFeedbackType := Success | Warning | Error.

(** A call of the vibration device. *)
Inductive DeviceCall :=
| impactAsync (s : ImpactFeedbackStyle)
| notificationAsync (t : NotificationFeedbackType).

Record World := mkWorld {
  isEnabled : bool;
  web : bool;                               (* Platform.OS === 'web' *)
  (** pending [setTimeout(() => this.trigger(ty), ms)] *)
  timeouts : list (Z * HapticFeedbackType);
  device : list DeviceCall
}.

Definition init (onWeb : bool) : World := mkWorld true onWeb [] [].

Definition setEnabled (b : bool) (w : World) : World :=
  mkWorld b (web w) (timeouts w) (device w).

Definition isHapticEnabled (w : World) : bool := isEnabled w && negb (web w).

(** The [switch] of [trigger]. *)
Definition deviceCallOf (ty : HapticFeedbackType) : DeviceCall :=
  match ty with
  | light => impactAsync Light
  | medium => impactAsync Medium
  | heavy => impactAsync Heavy
  | success => notificationAsync Success
  | warning => notificationAsync Warning
  | error => notificationAsync Error
  end.

(** [trigger(type = 'medium')]; [None] is a call without argument. *)
Definition trigger (ty : option HapticFeedbackType) (w : World) : World :=
  if negb (isEnabled w) || web w then w
  else
    mkWorld (isEnabled w) (web w) (timeouts w)
      (device w
       ++ [deviceCallOf (match ty with Some t => t | None => medium end)]).

Definition vibrateTurn (w : World) : World :=
  let w1 := trigger (Some medium) w in
  mkWorld (isEnabled w1) (web w1) (timeouts w1 ++ [(300%Z, medium)])
          (device w1).

Definition vibrateObstacle (w : World) : World := trigger (Some heavy) w.
Definition vibrateArrival (w : World) : World := trigger (Some success) w.
Definition vibrateWarning (w : World) : World := trigger (Some warning) w.
Definition vibrateError (w : World) : World := trigger (Some error) w.

Inductive Event :=
| ETrigger (ty : option HapticFeedbackType)
| EVibrateTurn
| EVibrateObstacle
| EVibrateArrival
| EVibrateWarning
| EVibrateError
| ESetEnabled (b : bool)
| ETimeout (k : nat).            (* pending timeout [k] fires *)

Definition step (w : World) (e : Event) : option World :=
  match e with
  | ETrigger ty => Some (trigger ty w)
  | EVibrateTurn => Some (vibrateTurn w)
  | EVibrateObstacle => Some (vibrateObstacle w)
  | EVibrateArrival => Some (vibrateArrival w)
  | EVibrateWarning => Some (vibrateWarning w)
  | EVibrateError => Some (vibrateError w)
  | ESetEnabled b => Some (setEnabled b w)
  | ETimeout k =>
      match nth_error (timeouts w) k with
      | Some (_, ty) =>
          Some (trigger (Some ty)
                  (mkWorld (isEnabled w) (web w)
                     (firstn k (timeouts w) ++ skipn (S k) (timeouts w))
                     (device w)))
      | None => None
      end
  end.

Fixpoint run (w : World) (es : list Event) : option World :=
  match es with
  | [] => Some w
  | e :: es' =>
      match step w e with
      | Some w' => run w' es'
      | None => None
      end
  end.

(** What the orchestrator asks of the haptic service, delivered to it. *)
Definition deliver (o : Output) (w : World) : World :=
  match o with
  | Haptic ty => trigger (Some ty) w
  | HapticAfter ms ty =>
      mkWorld (isEnabled w) (web w) (timeouts w ++ [(ms, ty)]) (device w)
  | _ => w
  end.

(** The trace never switches haptics on. *)
Definition never_enables (es : list Event) : Prop :=
  forallb (fun e => match e with ESetEnabled true => false | _ => true end)
          es = true.

End Haptic.

(* ===================================================================== *)
(** ** ObjectDetectionService.simulateObjectDetection *)
(* ===================================================================== *)

Module Simulate.
Import Detect.
Local Open Scope Q_scope.

(** An entry of [commonObjects]. *)
Record CommonObject := mkCommon {
  c_name : string;
  probability : Q;
  distanceRange : Q * Q
}.

Definition commonObjects : list CommonObject :=
  [ mkCommon "person" (8 # 10) (1, 5);
    mkCommon "chair" (7 # 10) (1, 3);
    mkCommon "table" (6 # 10) (1, 4);
    mkCommon "door" (5 # 10) (2, 6);
    mkCommon "window" (5 # 10) (2, 8);
    mkCommon "cup" (4 # 10) (5 # 10, 15 # 10);
    mkCommon "bottle" (4 # 10) (5 # 10, 2);
    mkCommon "book" (3 # 10) (5 # 10, 1);
    mkCommon "phone" (3 # 10) (3 # 10, 1);
    mkCommon "laptop" (3 # 10) (1, 3);
    mkCommon "tv" (2 # 10) (2, 5);
    mkCommon "couch" (2 # 10) (2, 4);
    mkCommon "bed" (2 # 10) (2, 4);
    mkCommon "toilet" (1 # 10) (1, 3);
    mkCommon "sink" (1 # 10) (1, 3);
    mkCommon "refrigerator" (1 # 10) (2, 4);
    mkCommon "oven" (1 # 10) (1, 3);
    mkCommon "microwave" (1 # 10) (1, 2);
    mkCommon "toaster" (1 # 10) (5 # 10, 15 # 10);
    mkCommon "clock" (1 # 10) (1, 4) ].

(** [Math.random()]: the next value of the stream of draws, 0 once the
    stream is used up. *)
Definition random (rnd : list Q) : Q * list Q :=
  match rnd with
  | r :: rest => (r, rest)
  | [] => (0, [])
  end.

(** The inner [for] loop: the first index [j] whose cumulated probability
    reaches [r]; [None] is [selectedIndex === -1]. *)
Fixpoint select (avail : list CommonObject) (j : nat) (cumulative r : Q)
    : option nat :=
  match avail with
  | [] => None
  | o :: rest =>
      let cumulative' := cumulative + probability o in
      if Qle_bool r cumulative' then Some j
      else select rest (S j) cumulative' r
  end.

(** [availableObjects.splice(k, 1)] *)
Definition splice1 {A : Type} (k : nat) (l : list A) : list A :=
  (firstn k l ++ skipn (S k) l)%list.

Definition Qmax (a b : Q) : Q := if Qle_bool a b then b else a.
Definition Qmin (a b : Q) : Q := if Qle_bool a b then a else b.

(** Lines 399-413: the index selected from [availableObjects], by
    cumulated probability or, when none is reached, by a second draw. *)
Definition selectIndex (availableObjects : list CommonObject) (rnd : list Q)
    : Z * list Q :=
  let '(randomValue, rnd1) := random rnd in
  match select availableObjects 0 0 randomValue with
  | Some j => (Z.of_nat j, rnd1)
  | None =>
      let '(r, rnd') := random rnd1 in
      (Qfloor (r * inject_Z (Z.of_nat (List.length availableObjects))), rnd')
  end.

(** Lines 421-445: the confidence of [selectedObject] and, when it reaches
    the threshold, the object pushed on [detectedObjects]. *)
Definition report (confidenceThreshold : Q) (now : nat -> Z) (i : nat)
    (selectedObject : CommonObject) (rnd : list Q)
    (detectedObjects : list DetectedObject)
    : list DetectedObject * list Q :=
  let baseConfidence := probability selectedObject in
  let '(r, rnd1) := random rnd in
  let randomFactor := r * (3 # 10) - (15 # 100) in
  let confidence :=
    Qmin (Qmax (baseConfidence + randomFactor) (1 # 10)) (99 # 100) in
  if Qle_bool confidenceThreshold confidence then
    let '(rx, rnd2) := random rnd1 in
    let '(ry, rnd3) := random rnd2 in
    let '(rw, rnd4) := random rnd3 in
    let '(rh, rnd5) := random rnd4 in
    let '(minDist, maxDist) := distanceRange selectedObject in
    let '(rd, rnd6) := random rnd5 in
    let distance :=
      inject_Z (Math_round ((rd * (maxDist - minDist) + minDist) * 10)) / 10 in
    ((detectedObjects
      ++ [mkObject
            (c_name selectedObject ++ "-" ++ string_of_Z (now i)
             ++ "-" ++ string_of_Z (Z.of_nat i))%string
            (Some (c_name selectedObject)) confidence
            (Some (mkBox (Some (rx * (7 # 10) + (15 # 100)))
                         (Some (ry * (7 # 10) + (15 # 100)))
                         (Some (rw * (3 # 10) + (1 # 10)))
                         (Some (rh * (3 # 10) + (1 # 10)))))
            (Some distance)])%list,
     rnd6)
  else (detectedObjects, rnd1).

(** The outer [for] loop with [n] iterations left to run, at index [i].
    [None] is the [TypeError] of reading [probability] off an index outside
    [availableObjects]. *)
Fixpoint simulateLoop (confidenceThreshold : Q) (maxDetections : Z)
    (now : nat -> Z) (n i : nat) (availableObjects : list CommonObject)
    (rnd : list Q) (detectedObjects : list DetectedObject)
    : option (list DetectedObject) :=
  match n with
  | O => Some detectedObjects
  | S n' =>
      match availableObjects with
      | [] => Some detectedObjects
      | _ :: _ =>
          let '(selectedIndex, rnd1) := selectIndex availableObjects rnd in
          match js_index availableObjects selectedIndex with
          | None => None
          | Some selectedObject =>
              let available' :=
                splice1 (Z.to_nat selectedIndex) availableObjects in
              let '(detected', rnd') :=
                report confidenceThreshold now i selectedObject rnd1
                  detectedObjects in
              if (maxDetections <=? Z.of_nat (List.length detected'))%Z
              then Some detected'
              else simulateLoop confidenceThreshold maxDetections now n'
                     (S i) available' rnd' detected'
          end
      end
  end.

(** [simulateObjectDetection(confidenceThreshold, maxDetections)] on the
    stream [rnd] of random draws. *)
Definition simulateObjectDetection (confidenceThreshold : Q)
    (maxDetections : Z) (now : nat -> Z) (rnd : list Q)
    : option (list DetectedObject) :=
  let '(r0, rnd0) := random rnd in
  let numObjects := (Qfloor (r0 * 3) + 1)%Z in
  simulateLoop confidenceThreshold maxDetections now (Z.to_nat numObjects) 0
    commonObjects rnd0 [].

(** Every draw is a value of [Math.random()]. *)
Definition draws (rnd : list Q) : Prop :=
  Forall (fun r => 0 <= r /\ r < 1) rnd.

(** The name has no hyphen. *)
Fixpoint plain (s : string) : bool :=
  match s with
  | EmptyString => true
  | String c r => negb (Ascii.eqb c "-") && plain r
  end.

(** The two ends of the distance range are in order and have one decimal. *)
Definition tenths (c : CommonObject) : bool :=
  let '(lo, hi) := distanceRange c in
  Qle_bool lo hi
  && Qeq_bool (lo * 10) (inject_Z (Qfloor (lo * 10)))
  && Qeq_bool (hi * 10) (inject_Z (Qfloor (hi * 10))).

(** What a reported object owes to the catalogue entry [c] it was drawn
    from. *)
Definition reports (confidenceThreshold : Q) (c : CommonObject)
    (o : DetectedObject) : Prop :=
  name o = Some (c_name c)
  /\ (exists suffix, id o = (c_name c ++ "-" ++ suffix)%string)
  /\ confidenceThreshold <= confidence o
  /\ 1 # 10 <= confidence o <= 99 # 100
  /\ exists d, distance o = Some d
               /\ fst (distanceRange c) <= d <= snd (distanceRange c).

Definition sampleDraws : list Q :=
  [9 # 10; 5 # 10; 5 # 10; 1 # 10; 1 # 10; 1 # 10; 1 # 10; 5 # 10;
   95 # 100; 9 # 10; 1 # 10; 1 # 10; 1 # 10; 1 # 10; 5 # 10;
   9 # 10; 99 # 100].

End Simulate.

(* ===================================================================== *)
(** * Properties *)
(* ===================================================================== *)

(** ** The speech queue *)

Module SpeechProps.
Import Speech.

Lemma of_item_merged d u : of_item (mergedOptions d u) = u.
Proof. destruct u; reflexivity. Qed.

Lemma fired_app us1 rs1 us2 rs2 :
  List.length rs1 = List.length us1 ->
  fired (us1 ++ us2) (rs1 ++ rs2) = (fired us1 rs1 ++ fired us2 rs2)%list.
Proof.
  revert rs1; induction us1 as [|u us1 IH]; intros [|r rs1] H;
    simpl in *; try discriminate; auto.
  rewrite IH by lia. now rewrite app_assoc.
Qed.

Lemma fired_one u r : fired [u] [r] = fire u r.
Proof. simpl. now rewrite app_nil_r. Qed.

Ltac close_inv := simpl; rewrite ?app_nil_r; repeat split; auto; try congruence.
Ltac split4 := split; [|split; [|split]].

(** What one run of [processQueue] does from an engine holding nothing:
    the utterances [rej] it rejects fire their error callbacks, and the
    first one it accepts becomes the only engine item. *)
Lemma processQueue_from_spec q :
  forall w, engine w = [] ->
  let w' := processQueue_from q w in
  defaultOptions w' = defaultOptions w
  /\ (engine w' = [] -> isProcessingQueue w' = false /\ queue w' = [])
  /\ (engine w' <> [] ->
      isProcessingQueue w' = true /\ List.length (engine w') = 1%nat)
  /\ exists rej rs,
       q = (rej ++ map of_item (engine w') ++ queue w')%list
       /\ List.length rs = List.length rej
       /\ calls w' = (calls w ++ fired rej rs)%list.
Proof.
  induction q as [|u rest IH]; intros w He; simpl.
  - split4; auto; try congruence.
    exists [], []. rewrite He. close_inv.
  - destruct (faults w) as [|[err|] fs] eqn:Hf.
    + rewrite He. split4; simpl; auto; try congruence.
      exists [], []. simpl. rewrite of_item_merged. close_inv.
    + pose proof (IH (mkWorld false rest true (defaultOptions w) (engine w) fs
                        (calls w ++ fireError (options u) err)%list
                        (started w)) He) as IH'.
      simpl in IH'. destruct IH' as (Hd & H1 & H2 & rej & rs & Hq & Hl & Hc).
      split4; auto.
      exists (u :: rej), (Failed err :: rs). simpl.
      rewrite Hc, <- app_assoc. rewrite Hq at 1. repeat split; auto.
    + rewrite He. split4; simpl; auto; try congruence.
      exists [], []. simpl. rewrite of_item_merged. close_inv.
Qed.

Lemma Inv_init fs : Inv (init fs) [].
Proof.
  unfold Inv; simpl. split; [auto|split; [congruence|]].
  exists [], []. close_inv.
Qed.

(** A completion callback running on a world whose engine has just given
    up its only item. *)
Lemma Inv_after_completion w us it r :
  Inv w us -> engine w = [it] ->
  Inv (processQueue
         (mkWorld false (queue w) (isProcessingQueue w) (defaultOptions w)
            [] (faults w) (calls w ++ fire (of_item it) r) (started w))) us.
Proof.
  intros (H1 & H2 & done & rs & Hus & Hl & Hc) He.
  unfold processQueue; simpl.
  match goal with |- Inv (processQueue_from ?q ?w0) _ =>
    destruct (processQueue_from_spec q w0 eq_refl)
      as (_ & P1 & P2 & rej & rs' & Hq & Hl' & Hc');
    remember (processQueue_from q w0) as w' eqn:Ew; clear Ew end.
  simpl in *. split; [auto|split; [auto|]].
  exists (done ++ [of_item it] ++ rej)%list, (rs ++ [r] ++ rs')%list.
  rewrite Hc', Hc, Hus, He. simpl. rewrite Hq at 1.
  repeat split.
  - rewrite <- !app_assoc. reflexivity.
  - rewrite !length_app. simpl. lia.
  - rewrite fired_app by auto. simpl. rewrite <- !app_assoc. reflexivity.
Qed.

Lemma Inv_step w us e w' :
  Inv w us -> is_stop e = false -> step w e = Some w' ->
  Inv w' (us ++ enqueued [e]).
Proof.
  intros HI Hs Hst. destruct e; simpl in *; try discriminate.
  - (* speak *)
    injection Hst as <-.
    destruct HI as (H1 & H2 & done & rs & Hus & Hl & Hc).
    unfold speak; simpl.
    destruct (isProcessingQueue w) eqn:Hp.
    + assert (Hne : engine w <> []) by (intro E; apply H1 in E; destruct E; congruence).
      unfold Inv; simpl. split; [congruence|split; [auto|]].
      exists done, rs. rewrite Hus, <- !app_assoc. auto.
    + assert (He : engine w = []).
      { destruct (engine w) eqn:E; auto. destruct H2; congruence. }
      destruct (H1 He) as (_ & Hq0).
      unfold processQueue; cbn -[processQueue_from]. rewrite Hq0.
      cbn -[processQueue_from].
      match goal with |- Inv (processQueue_from ?q ?w0) _ =>
        destruct (processQueue_from_spec q w0 He)
          as (_ & P1 & P2 & rej & rs' & Hq & Hl' & Hc');
        remember (processQueue_from q w0) as w' eqn:Ew; clear Ew end.
      simpl in *. split; [auto|split; [auto|]].
      exists (done ++ rej)%list, (rs ++ rs')%list.
      rewrite Hc', Hc, Hus, He, Hq0. simpl. rewrite Hq at 1.
      rewrite app_nil_r, !length_app, fired_app, <- !app_assoc by auto.
      repeat split; auto.
  - (* setDefaultOptions *)
    injection Hst as <-. rewrite app_nil_r. exact HI.
  - (* done *)
    rewrite app_nil_r.
    destruct (engine w) as [|it l] eqn:He; [discriminate|].
    injection Hst as <-.
    assert (l = []) as ->.
    { destruct HI as (_ & H2 & _). destruct H2 as (_ & H2); [congruence|].
      rewrite He in H2. destruct l; simpl in *; congruence. }
    unfold mergedOnDone, dropEngineHead; simpl. rewrite He; simpl.
    apply (Inv_after_completion w us it Finished HI He).
  - rewrite app_nil_r.
    destruct (engine w) as [|it l] eqn:He; [discriminate|].
    injection Hst as <-.
    assert (l = []) as ->.
    { destruct HI as (_ & H2 & _). destruct H2 as (_ & H2); [congruence|].
      rewrite He in H2. destruct l; simpl in *; congruence. }
    unfold mergedOnError, dropEngineHead; simpl. rewrite He; simpl.
    apply (Inv_after_completion w us it (Failed err) HI He).
  - (* the engine begins the utterance: only the log of starts grows *)
    rewrite app_nil_r.
    destruct (engine w) as [|it l] eqn:He; [discriminate|].
    injection Hst as <-. exact HI.
Qed.


Lemma enqueued_cons e es :
  enqueued (e :: es) = (enqueued [e] ++ enqueued es)%list.
Proof. unfold enqueued; simpl. now rewrite app_nil_r. Qed.

Lemma Inv_run es :
  forall w us w', Inv w us -> no_stop es -> run w es = Some w' ->
  Inv w' (us ++ enqueued es).
Proof.
  induction es as [|e es IH]; intros w us w' HI Hn Hr.
  - injection Hr as <-. simpl. now rewrite app_nil_r.
  - unfold no_stop in Hn. simpl in Hn. apply andb_true_iff in Hn as [He Hn].
    apply negb_true_iff in He. simpl in Hr.
    destruct (step w e) as [w1|] eqn:Hs; [|discriminate].
    pose proof (Inv_step _ _ _ _ HI He Hs) as HI1.
    specialize (IH _ _ _ HI1 Hn Hr).
    rewrite enqueued_cons, app_assoc. exact IH.
Qed.

Lemma completion_is_completion r : is_completion (completion r).
Proof. destruct r; exact I. Qed.

(** A completion leaves fewer utterances waiting or speaking. *)
Lemma completion_shrinks w it r :
  engine w = [it] ->
  exists w1, step w (completion r) = Some w1
    /\ (List.length (engine w1) + List.length (queue w1)
        <= List.length (queue w))%nat.
Proof.
  intros He.
  assert (Hgen : forall c0,
    let w1 := processQueue
                (mkWorld false (queue w) (isProcessingQueue w)
                   (defaultOptions w) [] (faults w) c0 (started w)) in
    (List.length (engine w1) + List.length (queue w1)
     <= List.length (queue w))%nat).
  { intros c0. unfold processQueue. cbn -[processQueue_from].
    match goal with |- context [processQueue_from ?q ?w0] =>
      destruct (processQueue_from_spec q w0 eq_refl)
        as (_ & _ & _ & rej & rs & Hq & _ & _);
      remember (processQueue_from q w0) as w' eqn:Ew; clear Ew end.
    rewrite Hq, !length_app, length_map. lia. }
  destruct r as [|err]; simpl; rewrite He; eexists; (split; [reflexivity|]);
    unfold mergedOnDone, mergedOnError, dropEngineHead; simpl; rewrite He;
    apply Hgen.
Qed.

(** However the engine ends each utterance, finitely many completions
    empty the queue. *)
Lemma drain n :
  forall w us (rs : nat -> Outcome),
  Inv w us ->
  (List.length (engine w) + List.length (queue w) <= n)%nat ->
  exists k w',
    run w (map (fun i => completion (rs i)) (seq 0 k)) = Some w'
    /\ engine w' = [] /\ Inv w' us.
Proof.
  induction n as [|n IH]; intros w us rs HI Hm.
  - exists 0%nat, w. simpl. split; [reflexivity|]. split; [|exact HI].
    destruct (engine w); [reflexivity|simpl in Hm; lia].
  - destruct (engine w) as [|it l] eqn:He.
    + exists 0%nat, w. simpl. auto.
    + assert (l = []) as ->.
      { destruct HI as (_ & H2 & _). destruct H2 as (_ & H2); [congruence|].
        rewrite He in H2. destruct l; simpl in *; congruence. }
      destruct (completion_shrinks w it (rs 0%nat) He) as (w1 & Hs & Hle).
      assert (HI1 : Inv w1 us).
      { rewrite <- (app_nil_r us).
        replace (@nil Utterance) with (enqueued [completion (rs 0%nat)])
          by (destruct (rs 0%nat); reflexivity).
        eapply Inv_step; eauto. destruct (rs 0%nat); reflexivity. }
      destruct (IH w1 us (fun i => rs (S i)) HI1) as (k & w' & Hr & He' & HI').
      { simpl in Hm. lia. }
      exists (S k), w'. split; [|auto].
      simpl. rewrite Hs. rewrite <- seq_shift, map_map. exact Hr.
Qed.

Lemma fired_answers us :
  Forall has_callbacks us ->
  forall rs, List.length rs = List.length us ->
  Forall2 answers (fired us rs) us /\ List.length (fired us rs) = List.length us.
Proof.
  induction 1 as [|u us [Hd He] _ IH]; intros [|r rs] Hl;
    simpl in *; try discriminate; auto.
  destruct (IH rs ltac:(lia)) as [IH1 IH2].
  destruct r as [|err]; unfold fire, fireDone, fireError.
  - destruct (optField onDone (options u)) eqn:E; [|congruence].
    simpl. split; [constructor; auto|lia].
  - destruct (optField onError (options u)) eqn:E; [|congruence].
    simpl. split; [constructor; auto|lia].
Qed.

Lemma engine_single w us : Inv w us -> (List.length (engine w) <= 1)%nat.
Proof.
  intros (_ & H2 & _). destruct (engine w) eqn:E; simpl; [lia|].
  destruct H2 as (_ & H2); [congruence|]. simpl in H2. lia.
Qed.

Lemma Forall_app_l {A} (P : A -> Prop) l1 l2 :
  Forall P (l1 ++ l2) -> Forall P l1.
Proof. intro H. apply Forall_app in H. tauto. Qed.

(** C1. A queue that is never stopped hands the engine one utterance at a
    time, fires one completion callback per utterance in the order of the
    [speak] calls, starts a waiting utterance exactly when the one before
    it completes, and has fired all N callbacks once the engine has
    finished, however each utterance ends. *)
Theorem speech_queue_fifo_serial fs es w :
  run (init fs) es = Some w ->
  no_stop es ->
  Forall has_callbacks (enqueued es) ->
  (List.length (engine w) <= 1)%nat
  /\ Forall2 answers (calls w)
       (firstn (List.length (calls w)) (enqueued es))
  /\ (forall t o, engine w <> [] ->
        engine (speak t o w) = engine w
        /\ queue (speak t o w) = (queue w ++ [mkUtterance t o])%list)
  /\ (forall v rest, queue w = v :: rest ->
        engine w <> []
        /\ forall c w1, is_completion c -> engine_accepts w ->
             step w c = Some w1 ->
             engine w1 = [mergedOptions (defaultOptions w) v]
             /\ queue w1 = rest)
  /\ (forall rs : nat -> Outcome,
        exists k w',
          run w (map (fun i => completion (rs i)) (seq 0 k)) = Some w'
          /\ engine w' = [] /\ queue w' = []
          /\ List.length (calls w') = List.length (enqueued es)
          /\ Forall2 answers (calls w') (enqueued es)).
Proof.
  intros Hr Hn Hcb.
  pose proof (Inv_run es _ _ _ (Inv_init fs) Hn Hr) as HI. simpl in HI.
  split; [eapply engine_single; eauto|].
  split.
  { destruct HI as (_ & _ & done & rs & Hus & Hl & Hc).
    rewrite Hus in Hcb. apply Forall_app_l in Hcb.
    destruct (fired_answers done Hcb rs Hl) as [HF HL].
    rewrite Hc, HL, Hus, firstn_app, firstn_all, Nat.sub_diag. simpl.
    now rewrite app_nil_r. }
  split.
  { intros t o Hne. destruct HI as (_ & H2 & _).
    destruct (H2 Hne) as [Hp _]. unfold speak; simpl. rewrite Hp. auto. }
  split.
  { intros v rest Hq. destruct HI as (H1 & H2 & _).
    assert (Hne : engine w <> []).
    { intro E. apply H1 in E. destruct E; congruence. }
    split; [exact Hne|].
    intros c w1 Hc Hacc Hs.
    destruct (engine w) as [|it l] eqn:He; [congruence|].
    unfold engine_accepts in Hacc.
    destruct c; simpl in Hc; try contradiction; simpl in Hs; rewrite He in Hs;
      injection Hs as <-;
      unfold mergedOnDone, mergedOnError, processQueue, dropEngineHead;
      simpl; rewrite Hq, He; simpl;
      destruct (faults w) as [|[e|] fs']; try contradiction; simpl;
      destruct (H2 ltac:(congruence)) as [_ Hlen]; simpl in Hlen;
      destruct l; simpl in *; try discriminate; auto. }
  intros rs.
  destruct (drain _ w _ rs HI (le_n _)) as (k & w' & Hrun & He & HI').
  exists k, w'. split; [exact Hrun|]. split; [exact He|].
  destruct HI' as (H1 & _ & done & rs' & Hus & Hl & Hc).
  destruct (H1 He) as [_ Hq]. split; [exact Hq|].
  rewrite He, Hq in Hus. simpl in Hus. rewrite app_nil_r in Hus. subst done.
  destruct (fired_answers _ Hcb rs' Hl) as [HF HL].
  rewrite Hc. auto.
Qed.

Lemma speech_queue_fifo_serial_witness :
  exists w, run (init [None; Some "down"]) sample_trace = Some w
    /\ (List.length (engine w) <= 1)%nat
    /\ Forall2 answers (calls w)
         (firstn (List.length (calls w)) (enqueued sample_trace)).
Proof.
  eexists. split; [reflexivity|].
  refine (let H := speech_queue_fifo_serial [None; Some "down"] sample_trace _
                     eq_refl eq_refl _ in conj (proj1 H) (proj1 (proj2 H))).
  repeat constructor; simpl; discriminate.
Defined.

(** Once [isProcessingQueue] is set while the engine holds nothing, no
    event clears it: nothing reaches the engine and no callback fires. *)
Lemma wedged_forever es :
  forall w w', isProcessingQueue w = true -> engine w = [] ->
  run w es = Some w' ->
  isProcessingQueue w' = true /\ engine w' = [] /\ calls w' = calls w.
Proof.
  induction es as [|e es IH]; intros w w' Hp He Hr; simpl in Hr.
  - injection Hr as <-. auto.
  - destruct e; simpl in Hr; try (rewrite He in Hr; discriminate).
    + unfold speak in Hr; simpl in Hr; rewrite Hp in Hr.
      apply IH in Hr; auto.
    + apply IH in Hr; auto.
    + apply IH in Hr; auto.
Qed.

(** C3 (the code at the failing input).  [stop] with an utterance
    outstanding leaves [isProcessingQueue] set; the utterance enqueued next
    stays in the queue, and nothing that happens later hands it, or any
    other utterance, to the engine. *)
Theorem stop_leaves_queue_wedged :
  exists w,
    run (init []) [ESpeak "first" None; EStop; ESpeak "second" None] = Some w
    /\ isProcessingQueue w = true
    /\ engine w = []
    /\ queue w = [mkUtterance "second" None]
    /\ forall es w', run w es = Some w' ->
         engine w' = [] /\ calls w' = calls w.
Proof.
  eexists. split; [reflexivity|]. simpl. repeat split; auto.
  - eapply wedged_forever in H; simpl; auto. tauto.
  - eapply wedged_forever in H; simpl; auto. tauto.
Qed.

End SpeechProps.

(** ** Bearings and compass directions *)

Module GeoProps.
Import Geo.
Local Open Scope R_scope.

Lemma Int_part_bounds r : IZR (Int_part r) <= r < IZR (Int_part r) + 1.
Proof. destruct (base_Int_part r). lra. Qed.

Lemma Int_part_between r (a b : Z) :
  IZR a <= r -> r < IZR b + 1 -> (a <= Int_part r <= b)%Z.
Proof.
  intros Ha Hb. destruct (Int_part_bounds r) as [H1 H2]. split.
  - apply Z.lt_succ_r, lt_IZR. rewrite succ_IZR. lra.
  - apply Z.lt_succ_r, lt_IZR. rewrite succ_IZR. lra.
Qed.

Lemma atan2_range y x : - PI <= atan2 y x <= PI.
Proof.
  pose proof PI_RGT_0 as Hpi. unfold atan2.
  destruct (Rlt_dec 0 x) as [Hx|Hx].
  - pose proof (atan_bound (y / x)). lra.
  - destruct (Rlt_dec x 0) as [Hx'|Hx'].
    + pose proof (atan_bound (y / x)) as Hb.
      destruct (Rle_dec 0 y) as [Hy|Hy].
      * assert (Hq : y / x <= 0).
        { pose proof (Rinv_lt_0_compat x Hx'). unfold Rdiv. nra. }
        assert (atan (y / x) <= 0).
        { destruct Hq as [Hq|Hq].
          - apply atan_increasing in Hq. rewrite atan_0 in Hq. lra.
          - rewrite Hq, atan_0. lra. }
        lra.
      * assert (Hq : 0 < y / x).
        { pose proof (Rinv_lt_0_compat x Hx'). unfold Rdiv. nra. }
        apply atan_increasing in Hq. rewrite atan_0 in Hq. lra.
    + destruct (Rlt_dec 0 y); [lra|]. destruct (Rlt_dec y 0); lra.
Qed.

(** [a % b] of a non-negative [a] by a positive [b] lies in [[0, b)]. *)
Lemma js_rem_range a b : 0 <= a -> 0 < b -> 0 <= js_rem a b < b.
Proof.
  intros Ha Hb. unfold js_rem, Math_trunc.
  assert (Hq : 0 <= a / b).
  { pose proof (Rinv_0_lt_compat b Hb). unfold Rdiv. nra. }
  destruct (Rle_dec 0 (a / b)) as [_|C]; [|contradiction].
  destruct (Int_part_bounds (a / b)) as [H1 H2].
  assert (Ea : a = b * (a / b)) by (field; lra).
  split.
  - apply Rmult_le_compat_l with (r := b) in H1; lra.
  - apply Rmult_lt_compat_l with (r := b) in H2; lra.
Qed.

Lemma calculateBearing_range lat1 lon1 lat2 lon2 :
  0 <= calculateBearing lat1 lon1 lat2 lon2 < 360.
Proof.
  unfold calculateBearing. cbv zeta. apply js_rem_range; [|lra].
  match goal with |- context [atan2 ?y ?x] =>
    pose proof (atan2_range y x) as [Hl _]; set (t := atan2 y x) in * end.
  pose proof PI_RGT_0 as Hpi.
  assert (-180 <= t * 180 / PI).
  { replace (-180) with ((- PI) * 180 / PI) by (field; lra).
    unfold Rdiv. apply Rmult_le_compat_r.
    - apply Rlt_le, Rinv_0_lt_compat; lra.
    - lra. }
  lra.
Qed.

Lemma Math_round_between x (a b : Z) :
  IZR a <= x + / 2 -> x + / 2 < IZR b + 1 -> (a <= Math_round x <= b)%Z.
Proof. apply Int_part_between. Qed.

Lemma Math_round_eq x (z : Z) :
  IZR z <= x + / 2 < IZR z + 1 -> Math_round x = z.
Proof.
  intros [H1 H2]. unfold Math_round. symmetry. apply Int_part_spec. lra.
Qed.

Lemma compass_index (k : Z) :
  (0 <= k <= 8)%Z ->
  js_index directions (Z.rem k 8)
  = Some (nth (Z.to_nat (k mod 8)) compass8 "").
Proof.
  intros Hk.
  assert (k = 0 \/ k = 1 \/ k = 2 \/ k = 3 \/ k = 4 \/ k = 5 \/ k = 6
          \/ k = 7 \/ k = 8)%Z as Hc by lia.
  repeat (destruct Hc as [->|Hc]; [reflexivity|]). subst. reflexivity.
Qed.

Lemma bearingToDirection_defined bearing :
  0 <= bearing < 360 ->
  bearingToDirection bearing = Some (bearingToCompass_spec bearing).
Proof.
  intros [H0 H1]. unfold bearingToDirection, bearingToCompass_spec.
  apply compass_index. apply Math_round_between; simpl; lra.
Qed.

(** C9. The bearing between any two coordinates lies in [[0, 360)]; on a
    bearing of that range the compass lookup is defined and is the label of
    index [round(bearing/45) mod 8] among the eight directions; 0 and 360
    both give North. *)
Theorem bearing_range_and_compass :
  (forall lat1 lon1 lat2 lon2,
     0 <= calculateBearing lat1 lon1 lat2 lon2 < 360)
  /\ (forall bearing, 0 <= bearing < 360 ->
        (0 <= Math_round (bearing / 45) mod 8
         < Z.of_nat (List.length compass8))%Z
        /\ bearingToDirection bearing = Some (bearingToCompass_spec bearing))
  /\ bearingToDirection 0 = Some "North"%string
  /\ bearingToDirection 360 = Some "North"%string.
Proof.
  split; [exact calculateBearing_range|]. split; [|split].
  - intros b Hb. split; [apply Z.mod_pos_bound; reflexivity|].
    now apply bearingToDirection_defined.
  - unfold bearingToDirection.
    rewrite (Math_round_eq (0 / 45) 0) by (simpl; lra). reflexivity.
  - unfold bearingToDirection.
    rewrite (Math_round_eq (360 / 45) 8) by (simpl; lra). reflexivity.
Qed.

Lemma bearing_range_and_compass_witness :
  bearingToDirection 90 = Some (bearingToCompass_spec 90)
  /\ bearingToCompass_spec 90 = "East"%string.
Proof.
  split.
  - apply (proj1 (proj2 bearing_range_and_compass) 90). lra.
  - unfold bearingToCompass_spec.
    rewrite (Math_round_eq (90 / 45) 2) by (simpl; lra). reflexivity.
Defined.

End GeoProps.

(** ** The navigation orchestrator *)

Module NavProps.
Import Geo Nav.

(** The route generator never meets an undefined direction. *)
Lemma generateNavigationSteps_total start end_ r1 r2 :
  exists s1 s2 s3 s4 s5 s6,
    generateNavigationSteps start end_ r1 r2 = Some [s1; s2; s3; s4; s5; s6]
    /\ distance s1
       = Math_round (calculateDistance (latitude start) (longitude start)
                       (latitude end_) (longitude end_) / 3)
    /\ distance s3 = distance s1
    /\ distance s2 = 0%Z /\ distance s4 = 0%Z /\ distance s5 = 0%Z.
Proof.
  unfold generateNavigationSteps. cbv zeta.
  rewrite (GeoProps.bearingToDirection_defined _
             (GeoProps.calculateBearing_range _ _ _ _)).
  do 6 eexists. split; [reflexivity|]. simpl. auto.
Qed.

(** C5. Whatever the two positions and the random draws, the route has
    exactly six steps; the first and third carry [round(total/3)] metres,
    the second, fourth and fifth carry none. *)
Theorem route_has_fixed_shape start end_ r1 r2 :
  exists steps,
    generateNavigationSteps start end_ r1 r2 = Some steps
    /\ List.length steps = 6%nat
    /\ let third :=
         Math_round (calculateDistance (latitude start) (longitude start)
                       (latitude end_) (longitude end_) / 3) in
       option_map distance (nth_error steps 0) = Some third
       /\ option_map distance (nth_error steps 2) = Some third
       /\ option_map distance (nth_error steps 1) = Some 0%Z
       /\ option_map distance (nth_error steps 3) = Some 0%Z
       /\ option_map distance (nth_error steps 4) = Some 0%Z.
Proof.
  destruct (generateNavigationSteps_total start end_ r1 r2)
    as (s1 & s2 & s3 & s4 & s5 & s6 & E & H1 & H3 & H2 & H4 & H5).
  exists [s1; s2; s3; s4; s5; s6]. split; [exact E|]. split; [reflexivity|].
  simpl. rewrite H3, H1, H2, H4, H5. auto.
Qed.



Lemma lookup_handle_same {A} (h : Handle) (o : A) :
  lookup_handle h [(h, o)] = Some o.
Proof. unfold lookup_handle; simpl. now rewrite Nat.eqb_refl. Qed.

(** *** The location service *)

Lemma same_session_refl w : same_session w w.
Proof. unfold same_session; auto 10. Qed.

Lemma same_session_trans w1 w2 w3 :
  same_session w1 w2 -> same_session w2 w3 -> same_session w1 w3.
Proof. unfold same_session; intuition congruence. Qed.

(** [stopLocationTracking] changes nothing, and throws exactly when a watch
    handle is set. *)
Lemma stopLocationTracking_spec w :
  snd (stopLocationTracking w) = w
  /\ (fst (stopLocationTracking w) = TypeError <-> watchId w <> None).
Proof.
  unfold stopLocationTracking. destruct (watchId w); simpl.
  - split; [reflexivity|]. split; [discriminate|reflexivity].
  - split; [reflexivity|]. split; [discriminate|congruence].
Qed.

Lemma requestPermissions_spec a w :
  let w1 := snd (requestPermissions a w) in
  same_session w1 w /\ watchId w1 = watchId w /\ watches w1 = watches w
  /\ out w1 = out w /\ fresh w1 = fresh w.
Proof. unfold same_session; destruct a; simpl; auto 12. Qed.

Lemma getCurrentLocation_resume_spec g a p w :
  let w1 := snd (getCurrentLocation_resume g a p w) in
  same_session w1 w /\ watchId w1 = watchId w /\ watches w1 = watches w
  /\ out w1 = out w /\ fresh w1 = fresh w.
Proof.
  unfold getCurrentLocation_resume, same_session.
  destruct g; simpl.
  - destruct p; simpl; auto 12.
  - destruct a; simpl; auto 12; destruct p; simpl; auto 12.
Qed.

(** [startWatching] leaves the navigation service alone; it starts a watch
    only when no handle is set, and never clears or replaces a handle. *)
Lemma startWatching_spec o a w :
  let rw := startWatching o a w in
  same_session (snd rw) w
  /\ lastLocation (snd rw) = lastLocation w
  /\ isPermissionGranted (snd rw) = isPermissionGranted w
  /\ (WatchOk w -> WatchOk (snd rw))
  /\ (forall h, watchId w = Some h ->
        fst rw = TypeError /\ snd rw = w)
  /\ (watchId w = None -> fst rw = Done)
  /\ (a = Resolves -> watchId w = None ->
      watchId (snd rw) = Some (fresh w)
      /\ watches (snd rw) = (watches w ++ [(fresh w, o)])%list
      /\ fresh (snd rw) = S (fresh w) /\ out (snd rw) = out w).
Proof.
  unfold startWatching, stopLocationTracking.
  destruct (watchId w) as [h|] eqn:E; cbn [fst snd].
  - split; [apply same_session_refl|]. split; [reflexivity|].
    split; [reflexivity|]. split; [auto|].
    split; [intros h' _; split; reflexivity|].
    split; [discriminate|]. intros _ C. discriminate.
  - assert (HW : WatchOk w -> watches w = []).
    { intros [Hw|(h & o' & C & _)]; [exact Hw|congruence]. }
    destruct a; unfold same_session, WatchOk; cbn.
    + split; [auto 10|]. split; [reflexivity|]. split; [reflexivity|].
      split; [intros H; right; rewrite (HW H); cbn; eauto|].
      split; [discriminate|]. split; [reflexivity|]. auto.
    + split; [auto 10|]. split; [reflexivity|]. split; [reflexivity|].
      split; [intros H; left; exact (HW H)|].
      split; [discriminate|]. split; [reflexivity|]. discriminate.
    + split; [auto 10|]. split; [reflexivity|]. split; [reflexivity|].
      split; [intros H; left; exact (HW H)|].
      split; [discriminate|]. split; [reflexivity|]. discriminate.
Qed.

Lemma locationStartTracking_spec o a wa w :
  let rw := locationStartTracking o a wa w in
  same_session (snd rw) w
  /\ lastLocation (snd rw) = lastLocation w
  /\ (WatchOk w -> WatchOk (snd rw))
  /\ (forall h, watchId w = Some h ->
        watchId (snd rw) = Some h /\ watches (snd rw) = watches w
        /\ fresh (snd rw) = fresh w)
  /\ (fst rw = TypeError -> snd rw = w).
Proof.
  unfold locationStartTracking.
  destruct (isPermissionGranted w) eqn:Hp; cbn.
  - destruct (startWatching_spec o wa w) as (A & B & _ & D & E & F & _).
    split; [exact A|]. split; [exact B|]. split; [exact D|]. split.
    + intros h Hh. destruct (E h Hh) as [_ ->]. auto.
    + intros Ht. destruct (watchId w) as [h|] eqn:Ew.
      * exact (proj2 (E h eq_refl)).
      * rewrite (F eq_refl) in Ht. discriminate.
  - destruct (requestPermissions_spec a w) as (Hs & Hi & Hws & Ho & Hf).
    assert (Hl : lastLocation (snd (requestPermissions a w)) = lastLocation w)
      by (destruct a; reflexivity).
    destruct (requestPermissions a w) as [g w1]. cbn in *.
    assert (HW1 : WatchOk w -> WatchOk w1)
      by (unfold WatchOk; now rewrite Hi, Hws).
    destruct g; cbn.
    + destruct (startWatching_spec o wa w1) as (A & B & _ & D & E & _).
      split; [eapply same_session_trans; eauto|].
      split; [congruence|]. split; [auto|]. split; [|discriminate].
      intros h Hh. rewrite <- Hi in Hh. destruct (E h Hh) as [_ ->].
      auto.
    + split; [exact Hs|]. split; [exact Hl|].
      split; [unfold WatchOk in *; cbn; exact HW1|].
      split; [|discriminate]. intros h Hh. rewrite Hi, Hws, Hf. auto.
Qed.

(** *** The navigation service *)

(** [stopNavigation] on an active session: the session and its timer are
    cleared, and the call throws exactly when a watch handle is set, which
    it leaves set with the watch live. *)
Lemma stopNavigation_active w :
  isNavigating w = true ->
  let rw := stopNavigation w in
  (fst rw = TypeError <-> watchId w <> None)
  /\ isNavigating (snd rw) = false /\ currentDestination (snd rw) = None
  /\ navigationSteps (snd rw) = [] /\ currentStepIndex (snd rw) = 0%Z
  /\ updateInterval (snd rw) = None
  /\ timers (snd rw)
     = match updateInterval w with
       | Some t => remove_handle t (timers w)
       | None => timers w
       end
  /\ watchId (snd rw) = watchId w /\ watches (snd rw) = watches w
  /\ lastLocation (snd rw) = lastLocation w
  /\ isPermissionGranted (snd rw) = isPermissionGranted w
  /\ fresh (snd rw) = fresh w /\ out (snd rw) = out w.
Proof.
  intros Hn. unfold stopNavigation, stopLocationTracking. rewrite Hn. cbn.
  destruct (watchId w); cbn; repeat split; auto; try discriminate;
    congruence.
Qed.

(** A resumed start with permission and a position on a service that holds
    no watch handle, in full. *)
Lemma startNavigation_resume_success p env w l :
  grantedAtCall p = true -> isPermissionGranted w = true ->
  position env = Some l -> watchAnswer env = Resolves ->
  watchId w = None ->
  exists steps o1,
    startNavigation_resume p env w
    = (Returned true,
       mkWorld true (Some (target p)) steps 0 (Some (S (fresh w))) (Some l)
         (Some (fresh w)) (Some l) true
         (timers w ++ [(S (fresh w), p_options p)])
         (watches w ++ [(fresh w, p_options p)])
         (S (S (fresh w))) o1).
Proof.
  intros Hg Hp Hpos Hf Hw. unfold startNavigation_resume. cbv zeta.
  unfold getCurrentLocation_resume. rewrite Hg, Hpos. simpl.
  destruct (generateNavigationSteps_total l (coordinates (target p))
              (random1 env) (random2 env))
    as (s1 & s2 & s3 & s4 & s5 & s6 & -> & _).
  unfold js_index; simpl nth_error.
  change (if (0 <? 0)%Z then None else Some s1) with (Some s1).
  cbv iota beta.
  unfold startLocationTracking, locationStartTracking, startWatching,
    stopLocationTracking, emit. simpl. rewrite Hp, Hf, Hw. simpl.
  do 2 eexists; reflexivity.
Qed.

(** A resumed start that has its position, on a service that holds a watch
    handle and has the permission: the session is set up and announced,
    then [startLocationTracking] throws before [setInterval]. *)
Lemma startNavigation_resume_throws p env w l h :
  watchId w = Some h -> position env = Some l ->
  (if grantedAtCall p then isPermissionGranted w = true
   else permission env = Granted) ->
  let rw := startNavigation_resume p env w in
  fst rw = Threw
  /\ isNavigating (snd rw) = true
  /\ currentDestination (snd rw) = Some (target p)
  /\ List.length (navigationSteps (snd rw)) = 6%nat
  /\ currentStepIndex (snd rw) = 0%Z
  /\ updateInterval (snd rw) = updateInterval w
  /\ timers (snd rw) = timers w
  /\ watchId (snd rw) = Some h /\ watches (snd rw) = watches w.
Proof.
  intros Hw Hpos Hperm. unfold startNavigation_resume. cbv zeta.
  unfold getCurrentLocation_resume. rewrite Hpos.
  assert (Hcur : exists w1,
             (let '(ok, w1) :=
                if grantedAtCall p then (true, w)
                else requestPermissions (permission env) w in
              if negb ok then (None, w1)
              else
                (Some l,
                 mkWorld (isNavigating w1) (currentDestination w1)
                   (navigationSteps w1) (currentStepIndex w1)
                   (updateInterval w1) (lastLocation w1) (watchId w1)
                   (Some l) (isPermissionGranted w1) (timers w1)
                   (watches w1) (fresh w1) (out w1)))
             = (Some l,
                mkWorld (isNavigating w1) (currentDestination w1)
                   (navigationSteps w1) (currentStepIndex w1)
                   (updateInterval w1) (lastLocation w1) (watchId w1)
                   (Some l) (isPermissionGranted w1) (timers w1)
                   (watches w1) (fresh w1) (out w1))
             /\ isPermissionGranted w1 = true /\ watchId w1 = Some h
             /\ updateInterval w1 = updateInterval w /\ timers w1 = timers w
             /\ watches w1 = watches w).
  { destruct (grantedAtCall p).
    - exists w. cbn. auto 10.
    - rewrite Hperm. exists (snd (requestPermissions Granted w)). cbn.
      auto 10. }
  destruct Hcur as (w1 & -> & Hp1 & Hw1 & Hu1 & Ht1 & Hws1).
  destruct (generateNavigationSteps_total l (coordinates (target p))
              (random1 env) (random2 env))
    as (s1 & s2 & s3 & s4 & s5 & s6 & -> & _).
  unfold js_index; simpl nth_error.
  change (if (0 <? 0)%Z then None else Some s1) with (Some s1).
  cbv iota beta.
  unfold startLocationTracking, locationStartTracking, startWatching,
    stopLocationTracking, emit. cbn. rewrite Hp1, Hw1. cbn.
  repeat split; auto.
Qed.

(** C10 (the code at the failing input).  On an active session that holds
    a watch handle, as every session whose start reached the watch does,
    [startNavigation] throws inside [stopNavigation]: the old session and
    its timer are cleared, but [this.watchId.remove()] is a [TypeError],
    so location tracking is not stopped and the watch stays live; the
    promise of the call rejects, nothing is reported to the error
    callback, and no new session is created.  So it goes for a second
    [startNavigation] on the fresh services. *)
Theorem restart_throws_and_starts_nothing :
  (forall d o w h,
     isNavigating w = true -> watchId w = Some h ->
     let bw := startNavigation_begin d o w in
     fst bw = Finished Threw
     /\ (forall env, startNavigation d o env w = (Threw, snd bw))
     /\ stopNavigation w = (TypeError, snd bw)
     /\ isNavigating (snd bw) = false
     /\ currentDestination (snd bw) = None
     /\ navigationSteps (snd bw) = []
     /\ updateInterval (snd bw) = None
     /\ watchId (snd bw) = Some h
     /\ watches (snd bw) = watches w
     /\ out (snd bw) = out w)
  /\ exists s1 s2,
       run (initial true)
           [EStart (inr "park") sampleOptions; EResume 0 sampleEnv] = Some s1
       /\ isNavigating (world s1) = true
       /\ timers (world s1) = [(1%nat, sampleOptions)]
       /\ watches (world s1) = [(0%nat, sampleOptions)]
       /\ step s1 (EStart (inr "home") sampleOptions) = Some s2
       /\ (forall env,
             fst (startNavigation (inr "home") sampleOptions env (world s1))
             = Threw)
       /\ pending s2 = []
       /\ isNavigating (world s2) = false
       /\ currentDestination (world s2) = None
       /\ timers (world s2) = []
       /\ watches (world s2) = [(0%nat, sampleOptions)]
       /\ watchId (world s2) = Some 0%nat
       /\ out (world s2) = out (world s1).
Proof.
  assert (General : forall d o w h,
     isNavigating w = true -> watchId w = Some h ->
     let bw := startNavigation_begin d o w in
     fst bw = Finished Threw
     /\ (forall env, startNavigation d o env w = (Threw, snd bw))
     /\ stopNavigation w = (TypeError, snd bw)
     /\ isNavigating (snd bw) = false
     /\ currentDestination (snd bw) = None
     /\ navigationSteps (snd bw) = []
     /\ updateInterval (snd bw) = None
     /\ watchId (snd bw) = Some h
     /\ watches (snd bw) = watches w
     /\ out (snd bw) = out w).
  { intros d o w h Hn Hw.
    unfold startNavigation, startNavigation_begin, stopNavigation,
      stopLocationTracking.
    rewrite Hn. cbn. rewrite Hw. cbn. repeat split; auto. }
  split; [exact General|].
  pose (park := mkPending (mkDestination "park" "Park" parkPosition None)
                  sampleOptions true).
  destruct (startNavigation_resume_success park sampleEnv (init true)
              parkPosition eq_refl eq_refl eq_refl eq_refl eq_refl)
    as (steps & o1 & E).
  cbn [init fresh timers watches watchId app] in E.
  match type of E with _ = (_, ?w) => set (w1 := w) in * end.
  destruct (General (inr "home") sampleOptions w1 0%nat eq_refl eq_refl)
    as (Hb & Hall & _ & G1 & G2 & _ & _ & G5 & G6 & G7).
  exists (mkSystem w1 []).
  exists (mkSystem (snd (startNavigation_begin (inr "home") sampleOptions w1))
                   []).
  split.
  { change (run (initial true)
              [EStart (inr "park") sampleOptions; EResume 0 sampleEnv])
      with (run (mkSystem (init true) [park]) [EResume 0 sampleEnv]).
    cbn [run step world pending nth_error remove_nth firstn skipn app].
    rewrite E. reflexivity. }
  split; [reflexivity|]. split; [reflexivity|]. split; [reflexivity|].
  split.
  { cbn [step world pending].
    destruct (startNavigation_begin (inr "home") sampleOptions w1)
      as [[r|p'] w2] eqn:Eb; cbn in Hb; [reflexivity|discriminate]. }
  split; [intros env; now rewrite Hall|].
  cbn [world pending].
  split; [reflexivity|]. split; [exact G1|]. split; [exact G2|].
  split; [|split; [exact G6|split; [exact G5|exact G7]]].
  reflexivity.
Qed.

(** C4. A destination string that names no catalogue entry makes
    [startNavigation] return [false] before it suspends, with the service
    idle, after one call of the error callback with 'Invalid destination';
    no handle is allocated, no timer or watch is added, and an idle service
    is left as it was.  This is so wherever the [stopNavigation] that opens
    the call returns; on an active session that holds a watch handle it
    throws, and the call ends there with nothing reported. *)
Theorem unknown_destination_stays_idle s o w h :
  getDestinationById s = None ->
  getDestinationByName s = None ->
  onError o = Some h ->
  let bw := startNavigation_begin (inr s) o w in
  (isNavigating w = false \/ watchId w = None ->
   fst bw = Finished (Returned false)
   /\ (forall env, startNavigation (inr s) o env w = (Returned false, snd bw))
   /\ isNavigating (snd bw) = false
   /\ out (snd bw) = (out w ++ [CbError h "Invalid destination"])%list
   /\ fresh (snd bw) = fresh w
   /\ incl (timers (snd bw)) (timers w)
   /\ incl (watches (snd bw)) (watches w)
   /\ (isNavigating w = false ->
       snd bw = emit [CbError h "Invalid destination"] w)
   /\ (isNavigating w = true ->
       currentDestination (snd bw) = None /\ navigationSteps (snd bw) = []
       /\ updateInterval (snd bw) = None))
  /\ (isNavigating w = true -> watchId w <> None ->
      fst bw = Finished Threw
      /\ isNavigating (snd bw) = false /\ out (snd bw) = out w).
Proof.
  intros Hi Hnm He. unfold startNavigation, startNavigation_begin, resolve.
  rewrite Hi, Hnm, He.
  assert (Hincl : forall (l : list (Handle * NavigationOptions)) x,
             incl (remove_handle x l) l)
    by (intros l x; apply incl_filter).
  destruct (isNavigating w) eqn:Hn.
  - unfold stopNavigation, stopLocationTracking. rewrite Hn. cbn.
    destruct (watchId w) as [x|] eqn:Hw; cbn.
    + split; [intros [C|C]; discriminate|]. intros _ _. auto.
    + split; [|intros _ C; now elim C]. intros _.
      repeat split; auto; try discriminate;
        try (destruct (updateInterval w); [apply Hincl|apply incl_refl]);
        apply incl_refl.
  - cbn. split; [|discriminate]. intros _.
    repeat split; auto using incl_refl; discriminate.
Qed.

Lemma unknown_destination_stays_idle_witness :
  let bw := startNavigation_begin (inr "nowhere") sampleOptions (init true) in
  fst bw = Finished (Returned false) /\ isNavigating (snd bw) = false.
Proof.
  pose proof (proj1 (unknown_destination_stays_idle "nowhere" sampleOptions
                       (init true) 3%nat eq_refl eq_refl eq_refl)
                    (or_introl eq_refl)) as H.
  exact (conj (proj1 H) (proj1 (proj2 (proj2 H)))).
Defined.

Lemma calculateDistance_same lat lon : calculateDistance lat lon lat lon = 0%R.
Proof.
  unfold calculateDistance.
  destruct (Req_dec_T lat lat) as [_|C]; [|now elim C].
  destruct (Req_dec_T lon lon) as [_|C]; [reflexivity|now elim C].
Qed.

(** The tick of an active session whose last position is within the
    threshold of the destination. *)
Lemma intervalCallback_arrival o w l d :
  isNavigating w = true -> lastLocation w = Some l ->
  currentDestination w = Some d ->
  (calculateDistance (latitude l) (longitude l)
     (latitude (coordinates d)) (longitude (coordinates d))
   <= thresholdOf o)%R ->
  intervalCallback o w
  = mkWorld false (currentDestination w) (navigationSteps w)
      (currentStepIndex w) None (lastLocation w) (watchId w)
      (lastKnownLocation w) (isPermissionGranted w)
      (match updateInterval w with
       | Some t => remove_handle t (timers w)
       | None => timers w
       end)
      (watches w) (fresh w)
      (out w
       ++ when (flag_default_true (announceSteps o))
            [Say ("You have arrived at " ++ name d)]
       ++ when (flag_default_true (hapticFeedback o)) vibrateArrival
       ++ call1 (onArrival o) CbArrival).
Proof.
  intros Hn Hl Hd Hle. unfold intervalCallback. cbv zeta.
  rewrite Hn, Hl, Hd. simpl.
  destruct (Rle_dec _ _) as [_|C]; [reflexivity|contradiction].
Qed.

(** C2 (the code at the failing input).  A session to the Park started at
    the Park arrives on the first firing of its timer: it leaves the active
    state, speaks and vibrates once and removes its timer, which cannot
    fire again.  The position watch stays live: [stopNavigation] no longer
    removes it, and the next position still runs the update callback of
    the orchestrator. *)
Theorem arrival_leaves_watch_running :
  exists s1 s2,
    run (initial true)
        [EStart (inr "park") sampleOptions; EResume 0 sampleEnv] = Some s1
    /\ isNavigating (world s1) = true
    /\ updateInterval (world s1) = Some 1%nat
    /\ watchId (world s1) = Some 0%nat
    /\ step s1 (ETick 1%nat) = Some s2
    /\ isNavigating (world s2) = false
    /\ timers (world s2) = []
    /\ out (world s2)
       = (out (world s1) ++ [Say "You have arrived at Park"; Haptic success;
                             CbArrival 2%nat])%list
    /\ step s2 (ETick 1%nat) = None
    /\ watchId (world s2) = Some 0%nat
    /\ watches (world s2) = [(0%nat, sampleOptions)]
    /\ step s2 EStopNavigation = Some s2
    /\ forall l,
         exists s3, step s2 (EPosition 0%nat l) = Some s3
           /\ lastLocation (world s3) = Some l
           /\ out (world s3)
              = (out (world s2) ++ [CbLocationUpdate 1%nat l])%list.
Proof.
  pose (park := mkPending (mkDestination "park" "Park" parkPosition None)
                  sampleOptions true).
  destruct (startNavigation_resume_success park sampleEnv (init true)
              parkPosition eq_refl eq_refl eq_refl eq_refl eq_refl)
    as (steps & o1 & E).
  cbn [init fresh timers watches watchId app] in E.
  match type of E with _ = (_, ?w) => set (w1 := w) in * end.
  exists (mkSystem w1 []). eexists. split.
  { change (run (initial true)
              [EStart (inr "park") sampleOptions; EResume 0 sampleEnv])
      with (run (mkSystem (init true) [park]) [EResume 0 sampleEnv]).
    cbn [run step world pending nth_error remove_nth firstn skipn app].
    rewrite E. reflexivity. }
  split; [reflexivity|]. split; [reflexivity|]. split; [reflexivity|].
  split.
  { cbn [step world pending]. unfold w1 at 1. cbn [timers].
    rewrite lookup_handle_same.
    rewrite (intervalCallback_arrival _ _ parkPosition
               (mkDestination "park" "Park" parkPosition None));
      try reflexivity.
    simpl. rewrite calculateDistance_same. unfold thresholdOf; simpl. lra. }
  simpl. repeat split; try reflexivity.
  intros l. eexists. split; [reflexivity|]. split; reflexivity.
Qed.

End NavProps.

(** ** The detection pipeline *)

Module DetectProps.
Import Detect.

(** C6 (the code at the failing input).  With a threshold of 0.85 and at
    most one detection asked for, a frame with confidences 0.9 and 0.8 is
    emitted with both objects: [processImage] compares with the constant
    0.5 and does not cap.  The example of the specification, confidences
    0.9 and 0.4, does yield the single 0.9 object, and a confidence of
    exactly 0.5 is dropped. *)
Theorem configured_threshold_and_cap_ignored :
  (exists w a b s,
     started = Some w
     /\ option_map out
          (run w [ETick 0%nat 1000; EFrame 0 (Captured twoPeople)])
        = Some [Haptic_light; Say s; CbDetection 1%nat [a; b]]
     /\ confidence a = 9 # 10 /\ confidence b = 8 # 10
     /\ option_map p_confidenceThreshold (lookup_handle 0%nat (timers w))
        = Some (85 # 100)
     /\ option_map p_maxDetections (lookup_handle 0%nat (timers w))
        = Some 1%Z)
  /\ map confidence (processImage true true oneOfTwo) = [9 # 10]
  /\ processImage true true
       (Predicted (mkPredictions [] [1 # 2] [0%Z]) (fun _ => 0%Z)) = [].
Proof.
  split; [|split; reflexivity].
  do 4 eexists. split; [reflexivity|].
  vm_compute. repeat split; reflexivity.
Qed.

(** C8 (the code at the failing input).  Two detections of one label whose
    [Date.now()] readings fall in the same millisecond get the same id. *)
Theorem same_label_ids_collide :
  map id (processImage true true twoPeople)
  = ["person-1700000000000"; "person-1700000000000"]%string
  /\ ~ NoDup (map id (processImage true true twoPeople)).
Proof.
  split; [reflexivity|].
  intros H. vm_compute in H. inversion H as [|? ? Hin _]. apply Hin.
  left; reflexivity.
Qed.

(** C7 as stated fails: the firings 200 ms and 400 ms after the start are
    both within the floor of [lastFrameTime]; neither takes a picture. *)
Lemma two_triggers_may_capture_nothing :
  exists w w',
    started = Some w
    /\ (400 - 200 < frameInterval w)%Z
    /\ two_triggers 0%nat 200 400 twoPeople w = Some w'
    /\ captures w' = captures w
    /\ captures w' <> S (captures w).
Proof.
  do 2 eexists. split; [reflexivity|]. vm_compute.
  repeat split; try reflexivity; discriminate.
Qed.

(** [detectFrame] with a camera at hand. *)
Lemma detectFrame_cases p now w :
  cameraRef w = true -> web w = false ->
  (if (now - lastFrameTime w <? frameInterval w)%Z
   then detectFrame p now w = w
   else inflight (detectFrame p now w) = (inflight w ++ [mkFrame now p])%list
        /\ captures (detectFrame p now w) = S (captures w)
        /\ lastFrameTime (detectFrame p now w) = lastFrameTime w
        /\ frameInterval (detectFrame p now w) = frameInterval w
        /\ timers (detectFrame p now w) = timers w
        /\ cameraRef (detectFrame p now w) = true
        /\ web (detectFrame p now w) = false).
Proof.
  intros Hc Hw. unfold detectFrame.
  destruct (_ <? _)%Z; [reflexivity|].
  rewrite Hc, Hw. simpl. auto 10.
Qed.

(** C7, amended.  Two firings of the detection timer less than the floor
    apart, the camera at hand, no frame in flight at the first and the
    frame of the first back before the second: a picture is taken exactly
    when the second firing is at least the floor after [lastFrameTime], and
    never twice; if the first firing takes it, the second is skipped and
    leaves nothing in flight. *)
Theorem spacing_floor_skips_second_trigger t p t1 t2 r w :
  lookup_handle t (timers w) = Some p ->
  inflight w = [] ->
  cameraRef w = true -> web w = false ->
  (t1 <= t2)%Z ->
  (t2 - t1 < frameInterval w)%Z ->
  exists w',
    two_triggers t t1 t2 r w = Some w'
    /\ captures w'
       = (captures w
          + if (frameInterval w <=? t2 - lastFrameTime w)%Z then 1 else 0)%nat
    /\ ((frameInterval w <=? t1 - lastFrameTime w)%Z = true ->
        inflight w' = [] /\ lastFrameTime w' = t1).
Proof.
  intros Ht Hi Hc Hw H12 Hfl. unfold two_triggers. cbn [step]. rewrite Ht.
  pose proof (detectFrame_cases p t1 w Hc Hw) as H1.
  destruct (t1 - lastFrameTime w <? frameInterval w)%Z eqn:E1.
  - (* the first firing is skipped *)
    rewrite H1, Hi. cbn [step]. rewrite Ht.
    pose proof (detectFrame_cases p t2 w Hc Hw) as H2.
    destruct (t2 - lastFrameTime w <? frameInterval w)%Z eqn:E2.
    + rewrite H2. eexists. split; [reflexivity|].
      apply Z.ltb_lt in E2. apply Z.ltb_lt in E1.
      destruct (Z.leb_spec (frameInterval w) (t2 - lastFrameTime w)); [lia|].
      split; [lia|]. intros C. apply Z.leb_le in C. lia.
    + destruct H2 as (_ & H2 & _). eexists. split; [reflexivity|].
      apply Z.ltb_ge in E2. apply Z.ltb_lt in E1.
      destruct (Z.leb_spec (frameInterval w) (t2 - lastFrameTime w)); [|lia].
      split; [lia|]. intros C. apply Z.leb_le in C. lia.
  - (* the first firing takes a picture *)
    destruct H1 as (A & B & C & D & E & F & G).
    remember (detectFrame p t1 w) as w1 eqn:Ew1.
    rewrite A, Hi. cbn [app step nth_error].
    unfold resumeFrame, dropFrame. cbn -[processImage Z.sub Z.ltb].
    unfold detectFrame. cbn -[processImage Z.sub Z.ltb]. rewrite E, Ht, D.
    assert (Hskip : (t2 - t1 <? frameInterval w)%Z = true)
      by (apply Z.ltb_lt; lia).
    rewrite Hskip. eexists. split; [reflexivity|].
    cbn -[processImage Z.sub Z.leb].
    apply Z.ltb_ge in E1.
    destruct (Z.leb_spec (frameInterval w) (t2 - lastFrameTime w)); [|lia].
    rewrite A, Hi. simpl. split; [lia|auto].
Qed.

Lemma spacing_floor_skips_second_trigger_witness :
  exists w w',
    started = Some w
    /\ two_triggers 0%nat 1000 1200 twoPeople w = Some w'
    /\ captures w' = 1%nat.
Proof.
  eexists.
  destruct (spacing_floor_skips_second_trigger 0%nat
              (paramsOf strictOptions) 1000 1200 twoPeople
              (mkWorld true (Some 0%nat) true true 0 1000 true true false
                 [(0%nat, paramsOf strictOptions)] [] 0 1%nat [])
              eq_refl eq_refl eq_refl eq_refl)
    as (w' & H1 & H2 & _); [lia|simpl; lia|].
  exists w'. split; [reflexivity|]. split; [exact H1|exact H2].
Defined.

End DetectProps.

(* ===================================================================== *)
(** * Further properties *)
(* ===================================================================== *)

(** ** More on the speech queue *)

Module SpeechMore.
Import Speech SpeechTerms SpeechProps.

Lemma FlagOk_processQueue q :
  forall w, engine w = [] -> (q = [] -> isSpeaking w = false) ->
  FlagOk (processQueue_from q w).
Proof.
  induction q as [|u rest IH]; intros w He Hs; simpl.
  - unfold FlagOk; simpl. rewrite He, (Hs eq_refl).
    split; [auto|split; [discriminate|congruence]].
  - destruct (faults w) as [|[err|] fs].
    + unfold FlagOk; simpl. rewrite He; simpl.
      split; [right; eauto|split; [discriminate|auto]].
    + apply IH; simpl; auto.
    + unfold FlagOk; simpl. rewrite He; simpl.
      split; [right; eauto|split; [discriminate|auto]].
Qed.

Lemma FlagOk_step w e w' : FlagOk w -> step w e = Some w' -> FlagOk w'.
Proof.
  intros [H1 H2] Hs. destruct e; simpl in Hs.
  - injection Hs as <-. unfold speak; simpl.
    destruct (isProcessingQueue w) eqn:Hp.
    + unfold FlagOk; simpl. split; [|exact H2].
      destruct H1 as [He|(it & He & _)]; [auto|right; eauto].
    + assert (He : engine w = []).
      { destruct H1 as [He|(it & _ & C)]; [exact He|congruence]. }
      unfold processQueue; simpl. apply FlagOk_processQueue; simpl; auto.
      intros C. destruct (queue w); discriminate.
  - injection Hs as <-. unfold FlagOk, stop; simpl.
    split; [auto|split; [discriminate|congruence]].
  - injection Hs as <-. unfold FlagOk; simpl. auto.
  - destruct (engine w) as [|it l] eqn:He; [discriminate|].
    injection Hs as <-.
    assert (l = []) as ->.
    { destruct H1 as [C|(it' & E & _)]; [discriminate|congruence]. }
    unfold mergedOnDone, dropEngineHead, processQueue; simpl. rewrite He.
    apply FlagOk_processQueue; simpl; auto.
  - destruct (engine w) as [|it l] eqn:He; [discriminate|].
    injection Hs as <-.
    assert (l = []) as ->.
    { destruct H1 as [C|(it' & E & _)]; [discriminate|congruence]. }
    unfold mergedOnError, dropEngineHead, processQueue; simpl. rewrite He.
    apply FlagOk_processQueue; simpl; auto.
  - destruct (engine w) as [|it l] eqn:He; [discriminate|].
    injection Hs as <-. unfold FlagOk; cbn. rewrite He. exact (conj H1 H2).
Qed.

(** X1. On every trace, with [stop] and [setDefaultOptions] allowed, the
    engine holds at most one utterance and [isSpeaking] is set exactly
    while it holds one. *)
Theorem isSpeaking_tracks_engine fs es w :
  run (init fs) es = Some w ->
  (List.length (engine w) <= 1)%nat
  /\ (isSpeaking w = true <-> engine w <> []).
Proof.
  intros Hr.
  assert (HF : FlagOk w).
  { assert (H0 : FlagOk (init fs)).
    { unfold FlagOk; simpl. split; [auto|split; [discriminate|congruence]]. }
    revert Hr H0. generalize (init fs). induction es as [|e es IH];
      intros w0 Hr H0; simpl in Hr.
    - now injection Hr as <-.
    - destruct (step w0 e) as [w1|] eqn:Hs; [|discriminate].
      eapply IH; eauto using FlagOk_step. }
  destruct HF as [H1 H2]. split; [|exact H2].
  destruct H1 as [->|(it & -> & _)]; simpl; lia.
Qed.

Lemma isSpeaking_tracks_engine_witness :
  exists w, run (init []) stopped_trace = Some w
    /\ (isSpeaking w = true <-> engine w <> []).
Proof.
  eexists. split; [reflexivity|].
  exact (proj2 (isSpeaking_tracks_engine [] stopped_trace _ eq_refl)).
Defined.

Lemma answered_by_mono us us' c :
  incl us us' -> answered_by us c -> answered_by us' c.
Proof. intros Hi (u & Hu & Ha). exists u. auto. Qed.

Lemma Traced_mono w us us' base :
  incl us us' -> Traced w us base -> Traced w us' base.
Proof.
  intros Hi (H1 & H2 & later & Hc & Hl). repeat split.
  - eapply Forall_impl; [|exact H1]. intros; auto.
  - eapply Forall_impl; [|exact H2]. intros; auto.
  - exists later. split; [exact Hc|].
    eapply Forall_impl; [|exact Hl]. intros c. now apply answered_by_mono.
Qed.

Lemma fire_answered us u r : In u us -> Forall (answered_by us) (fire u r).
Proof.
  intros Hu. destruct r as [|err]; unfold fire, fireDone, fireError.
  - destruct (optField onDone (options u)) eqn:E; constructor; auto.
    exists u. split; [exact Hu|exact E].
  - destruct (optField onError (options u)) eqn:E; constructor; auto.
    exists u. split; [exact Hu|exact E].
Qed.

Lemma Traced_processQueue us base q :
  forall w, Forall (fun u => In u us) q ->
  Forall (fun it => In (of_item it) us) (engine w) ->
  (exists later, calls w = (base ++ later)%list
                 /\ Forall (answered_by us) later) ->
  Traced (processQueue_from q w) us base.
Proof.
  induction q as [|u rest IH]; intros w Hq He Hc; simpl.
  - unfold Traced; simpl. auto.
  - inversion Hq as [|? ? Hu Hrest]; subst.
    destruct (faults w) as [|[err|] fs].
    + unfold Traced; simpl. split; [|auto].
      apply Forall_app. split; [exact He|].
      constructor; [now rewrite of_item_merged|constructor].
    + apply IH; simpl; auto.
      destruct Hc as (later & Hc & Hl).
      exists (later ++ fireError (options u) err)%list. rewrite Hc, app_assoc.
      split; [reflexivity|]. apply Forall_app. split; [exact Hl|].
      apply (fire_answered us u (Failed err) Hu).
    + unfold Traced; simpl. split; [|auto].
      apply Forall_app. split; [exact He|].
      constructor; [now rewrite of_item_merged|constructor].
Qed.

Lemma Traced_step w us base e w' :
  Traced w us base -> step w e = Some w' ->
  Traced w' (us ++ enqueued [e]) base.
Proof.
  intros HT Hs.
  assert (HT' : Traced w (us ++ enqueued [e]) base)
    by (eapply Traced_mono; [apply incl_appl, incl_refl|exact HT]).
  clear HT. destruct HT' as (H1 & H2 & Hc).
  destruct e; simpl in Hs.
  - injection Hs as <-. unfold speak. cbn [isProcessingQueue].
    assert (Hq : Forall (fun u => In u (us ++ enqueued [ESpeak t o]))
                   (queue w ++ [mkUtterance t o])).
    { apply Forall_app. split; [exact H2|]. constructor; [|constructor].
      apply in_or_app. right. simpl. auto. }
    destruct (isProcessingQueue w).
    + unfold Traced; simpl. auto.
    + unfold processQueue. cbn [queue]. apply Traced_processQueue; auto.
  - injection Hs as <-. unfold Traced, stop; simpl. auto.
  - injection Hs as <-. unfold Traced; simpl. auto.
  - destruct (engine w) as [|it l] eqn:He; [discriminate|].
    injection Hs as <-. inversion H1 as [|? ? Hit Hl']; subst.
    unfold mergedOnDone, dropEngineHead, processQueue. cbn [queue].
    apply Traced_processQueue; simpl; auto.
    + rewrite He. exact Hl'.
    + destruct Hc as (later & Hc & Hl).
      exists (later ++ fireDone (owner it))%list. rewrite Hc, app_assoc.
      split; [reflexivity|]. apply Forall_app. split; [exact Hl|].
      apply (fire_answered _ (of_item it) Finished Hit).
  - destruct (engine w) as [|it l] eqn:He; [discriminate|].
    injection Hs as <-. inversion H1 as [|? ? Hit Hl']; subst.
    unfold mergedOnError, dropEngineHead, processQueue. cbn [queue].
    apply Traced_processQueue; simpl; auto.
    + rewrite He. exact Hl'.
    + destruct Hc as (later & Hc & Hl).
      exists (later ++ fireError (owner it) err)%list. rewrite Hc, app_assoc.
      split; [reflexivity|]. apply Forall_app. split; [exact Hl|].
      apply (fire_answered _ (of_item it) (Failed err) Hit).
  - destruct (engine w) as [|it l] eqn:He; [discriminate|].
    injection Hs as <-. unfold Traced; cbn. rewrite He.
    exact (conj H1 (conj H2 Hc)).
Qed.

Lemma Traced_run es :
  forall w us base w', Traced w us base -> run w es = Some w' ->
  Traced w' (us ++ enqueued es) base.
Proof.
  induction es as [|e es IH]; intros w us base w' HT Hr; simpl in Hr.
  - injection Hr as <-. simpl. now rewrite app_nil_r.
  - destruct (step w e) as [w1|] eqn:Hs; [|discriminate].
    rewrite enqueued_cons, app_assoc.
    eapply IH; [eapply Traced_step; eauto|exact Hr].
Qed.

Lemma enqueued_app es1 es2 :
  enqueued (es1 ++ es2) = (enqueued es1 ++ enqueued es2)%list.
Proof. unfold enqueued. apply flat_map_app. Qed.

Lemma start_source_mono es e h :
  start_source es h -> start_source (es ++ [e]) h.
Proof.
  intros [(u & Hu & E)|(o & Ho & E)].
  - left. exists u. split; [|exact E].
    rewrite enqueued_app. apply in_or_app. left. exact Hu.
  - right. exists o. split; [|exact E]. apply in_or_app. left. exact Ho.
Qed.

Lemma StartsOk_processQueue es q :
  forall w,
    Forall (fun u => In u (enqueued es)) q ->
    (forall h, onStart (defaultOptions w) = Some h ->
               exists o, In (ESetDefaults o) es /\ onStart o = Some h) ->
    Forall (fun it => forall h, e_onStart it = Some h -> start_source es h)
           (engine w) ->
    Forall (start_source es) (started w) ->
    StartsOk (processQueue_from q w) es.
Proof.
  induction q as [|u rest IH]; intros w Hq Hd He Hs; simpl.
  - unfold StartsOk; cbn. auto.
  - inversion Hq as [|? ? Hu Hrest]; subst.
    assert (Hnew : forall h,
              e_onStart (mergedOptions (defaultOptions w) u) = Some h ->
              start_source es h).
    { intros h. unfold mergedOptions, spread; cbn.
      destruct (optField onStart (options u)) as [h'|] eqn:E.
      - intros [= <-]. left. exists u. split; [exact Hu|exact E].
      - intros Hh. right. exact (Hd h Hh). }
    destruct (faults w) as [|[err|] fs].
    + unfold StartsOk; cbn. split; [exact Hd|]. split; [|auto].
      apply Forall_app. split; [exact He|]. constructor; [exact Hnew|constructor].
    + apply IH; cbn; auto.
    + unfold StartsOk; cbn. split; [exact Hd|]. split; [|auto].
      apply Forall_app. split; [exact He|]. constructor; [exact Hnew|constructor].
Qed.

Lemma StartsOk_step w es e w' :
  StartsOk w es -> step w e = Some w' -> StartsOk w' (es ++ [e]).
Proof.
  intros (Hd0 & He0 & Hq0 & Hs0) Hst.
  assert (Hd : forall h, onStart (defaultOptions w) = Some h ->
             exists o, In (ESetDefaults o) (es ++ [e]) /\ onStart o = Some h).
  { intros h Hh. destruct (Hd0 h Hh) as (o & Ho & E). exists o.
    split; [apply in_or_app; left; exact Ho|exact E]. }
  assert (He : Forall (fun it => forall h, e_onStart it = Some h ->
                                   start_source (es ++ [e]) h) (engine w)).
  { eapply Forall_impl; [|exact He0]. intros it H h Hh.
    apply start_source_mono. exact (H h Hh). }
  assert (Hq : Forall (fun u => In u (enqueued (es ++ [e]))) (queue w)).
  { eapply Forall_impl; [|exact Hq0]. intros u Hu.
    rewrite enqueued_app. apply in_or_app. left. exact Hu. }
  assert (Hs : Forall (start_source (es ++ [e])) (started w)).
  { eapply Forall_impl; [|exact Hs0]. intros h. apply start_source_mono. }
  clear Hd0 He0 Hq0 Hs0.
  destruct e; simpl in Hst.
  - injection Hst as <-. unfold speak. cbn [isProcessingQueue].
    assert (Hq' : Forall (fun u => In u (enqueued (es ++ [ESpeak t o])))
                    (queue w ++ [mkUtterance t o])).
    { apply Forall_app. split; [exact Hq|]. constructor; [|constructor].
      rewrite enqueued_app. apply in_or_app. right. simpl. auto. }
    destruct (isProcessingQueue w).
    + unfold StartsOk; cbn. auto.
    + unfold processQueue. cbn [queue]. apply StartsOk_processQueue; auto.
  - injection Hst as <-. unfold StartsOk, stop; cbn. auto.
  - injection Hst as <-. unfold StartsOk; cbn.
    split; [|auto]. intros h. unfold spread.
    destruct (onStart o) as [h'|] eqn:E.
    + intros [= <-]. exists o. split; [|exact E].
      apply in_or_app. right. left. reflexivity.
    + apply Hd.
  - destruct (engine w) as [|it l] eqn:Hen; [discriminate|].
    injection Hst as <-. inversion He as [|? ? Hit Hl]; subst.
    unfold mergedOnDone, dropEngineHead, processQueue. cbn [queue].
    apply StartsOk_processQueue; cbn; auto. rewrite Hen. exact Hl.
  - destruct (engine w) as [|it l] eqn:Hen; [discriminate|].
    injection Hst as <-. inversion He as [|? ? Hit Hl]; subst.
    unfold mergedOnError, dropEngineHead, processQueue. cbn [queue].
    apply StartsOk_processQueue; cbn; auto. rewrite Hen. exact Hl.
  - destruct (engine w) as [|it l] eqn:Hen; [discriminate|].
    injection Hst as <-. unfold StartsOk, engineStarts; cbn.
    rewrite Hen. split; [exact Hd|]. split; [exact He|]. split; [exact Hq|].
    apply Forall_app. split; [exact Hs|].
    inversion He as [|? ? Hit Hl]; subst.
    destruct (e_onStart it) as [h|] eqn:E; constructor; auto.
Qed.

Lemma StartsOk_run es :
  forall w es0 w', StartsOk w es0 -> run w es = Some w' ->
  StartsOk w' (es0 ++ es).
Proof.
  induction es as [|e es IH]; intros w es0 w' H0 Hr; simpl in Hr.
  - injection Hr as <-. now rewrite app_nil_r.
  - destruct (step w e) as [w1|] eqn:Hs; [|discriminate].
    change (e :: es) with ([e] ++ es)%list. rewrite app_assoc.
    eapply IH; [eapply StartsOk_step; eauto|exact Hr].
Qed.

(** X2. On every trace, each completion callback that fires is the
    [onDone] or [onError] of an utterance that was enqueued: an [onDone] or
    [onError] placed in the default options is never called.  An [onStart]
    is not overwritten by [mergedOptions]: the one of the default options
    is handed to the engine and called for an utterance that has none of
    its own; every [onStart] called is an utterance's own or was passed to
    [setDefaultOptions]. *)
Theorem callbacks_come_from_enqueued :
  (forall fs es w,
     run (init fs) es = Some w ->
     Forall (answered_by (enqueued es)) (calls w)
     /\ Forall (start_source es) (started w))
  /\ (forall s d e t,
        exists w,
          run (init [])
              [ESetDefaults (defaultCallbacks s d e); ESpeak t None;
               EStarted; EDone] = Some w
          /\ started w = [s] /\ calls w = []).
Proof.
  split.
  - intros fs es w Hr. split.
    + assert (H0 : Traced (init fs) [] []).
      { unfold Traced; simpl. repeat split; auto. exists []. auto. }
      destruct (Traced_run es _ _ _ _ H0 Hr) as (_ & _ & later & Hc & Hl).
      simpl in *. now rewrite Hc.
    + assert (H0 : StartsOk (init fs) []).
      { unfold StartsOk; cbn. repeat split; auto. discriminate. }
      exact (proj2 (proj2 (proj2 (StartsOk_run es _ _ _ H0 Hr)))).
  - intros s d e t. eexists. split; [reflexivity|]. split; reflexivity.
Qed.

Lemma callbacks_come_from_enqueued_witness :
  exists w, run (init [None; Some "down"]) sample_trace = Some w
    /\ Forall (answered_by (enqueued sample_trace)) (calls w).
Proof.
  eexists. split; [reflexivity|].
  exact (proj1 (proj1 callbacks_come_from_enqueued
                  [None; Some "down"] sample_trace _ eq_refl)).
Defined.

Lemma run_app es1 :
  forall es2 w w', run w (es1 ++ es2) = Some w' ->
  exists w1, run w es1 = Some w1 /\ run w1 es2 = Some w'.
Proof.
  induction es1 as [|e es1 IH]; intros es2 w w' Hr; simpl in *.
  - eauto.
  - destruct (step w e) as [w0|]; [|discriminate]. now apply IH.
Qed.

(** X3. [stop] cancels the whole backlog for good: after it, the callbacks
    of the utterances enqueued before it never fire; whatever fires later
    answers an utterance enqueued after the [stop]. *)
Theorem stop_cancels_backlog fs es1 es2 w1 w :
  run (init fs) es1 = Some w1 ->
  run (init fs) (es1 ++ EStop :: es2) = Some w ->
  exists later,
    calls w = (calls w1 ++ later)%list
    /\ Forall (answered_by (enqueued es2)) later.
Proof.
  intros H1 H. apply run_app in H as (w1' & H1' & H2).
  rewrite H1 in H1'. injection H1' as <-. simpl in H2.
  assert (H0 : Traced (stop w1) [] (calls w1)).
  { unfold Traced, stop; simpl. repeat split; auto.
    exists []. now rewrite app_nil_r. }
  destruct (Traced_run es2 _ _ _ _ H0 H2) as (_ & _ & later & Hc & Hl).
  exists later. auto.
Qed.

Lemma stop_cancels_backlog_witness :
  exists w later,
    run (init []) stopped_trace = Some w
    /\ calls w = later
    /\ Forall (answered_by [mkUtterance "three" (both 5%nat 6%nat)]) later.
Proof.
  destruct (stop_cancels_backlog []
              [ESpeak "one" (both 1%nat 2%nat);
               ESpeak "two" (both 3%nat 4%nat)]
              [ESpeak "three" (both 5%nat 6%nat)] _ _ eq_refl eq_refl)
    as (later & Hc & Hl).
  eexists. exists later. split; [reflexivity|]. split; [exact Hc|exact Hl].
Defined.

(** X4. [stop] on a queue that is idle does no harm: the next utterance is
    handed to the engine at once. *)
Theorem stop_when_idle_is_harmless fs es w t o :
  run (init fs) es = Some w ->
  no_stop es ->
  engine w = [] ->
  engine_accepts w ->
  engine (speak t o (stop w))
  = [mergedOptions (defaultOptions w) (mkUtterance t o)]
  /\ isProcessingQueue (speak t o (stop w)) = true
  /\ queue (speak t o (stop w)) = [].
Proof.
  intros Hr Hn He Ha.
  pose proof (Inv_run es _ _ _ (Inv_init fs) Hn Hr) as (H1 & _).
  destruct (H1 He) as [Hp _].
  unfold speak, stop, processQueue; simpl. rewrite Hp. simpl.
  unfold engine_accepts in Ha.
  destruct (faults w) as [|[e|] fs']; [| contradiction |]; simpl; auto.
Qed.

Lemma stop_when_idle_is_harmless_witness :
  exists w,
    run (init []) [ESpeak "one" None; EDone] = Some w
    /\ isProcessingQueue (speak "two" None (stop w)) = true.
Proof.
  eexists. split; [reflexivity|].
  exact (proj1 (proj2 (stop_when_idle_is_harmless []
                         [ESpeak "one" None; EDone] _ "two" None
                         eq_refl eq_refl eq_refl I))).
Defined.

(** X5. The voice defaults are read when an utterance is handed to the
    engine, not when it is enqueued: defaults set while an utterance waits
    apply to it, and its own options still win. *)
Theorem defaults_apply_at_handover w it v rest o w' :
  engine w = [it] -> queue w = v :: rest -> engine_accepts w ->
  run w [ESetDefaults o; EDone] = Some w' ->
  exists item,
    engine w' = [item]
    /\ e_text item = text v
    /\ e_language item
       = spread (spread (language (defaultOptions w)) (language o))
                (optField language (options v))
    /\ e_rate item
       = spread (spread (rate (defaultOptions w)) (rate o))
                (optField rate (options v))
    /\ e_pitch item
       = spread (spread (pitch (defaultOptions w)) (pitch o))
                (optField pitch (options v)).
Proof.
  intros He Hq Ha Hr. simpl in Hr. rewrite He in Hr. injection Hr as <-.
  unfold mergedOnDone, dropEngineHead, processQueue, setDefaultOptions.
  simpl. rewrite Hq, He. simpl. unfold engine_accepts in Ha.
  destruct (faults w) as [|[e|] fs']; [| contradiction |]; simpl;
    eexists; repeat split; reflexivity.
Qed.

Lemma defaults_apply_at_handover_witness :
  exists w' item,
    run (init [])
        [ESpeak "one" None; ESpeak "two" None;
         ESetDefaults (mkSpeechOptions (Some "fr") None None None None None);
         EDone] = Some w'
    /\ engine w' = [item] /\ e_language item = Some "fr".
Proof.
  destruct (defaults_apply_at_handover
              (speak "two" None (speak "one" None (init [])))
              _ _ _ (mkSpeechOptions (Some "fr") None None None None None)
              _ eq_refl eq_refl I eq_refl)
    as (item & H1 & _ & H2 & _).
  eexists. exists item. split; [reflexivity|]. split; [exact H1|exact H2].
Defined.

End SpeechMore.

(** ** More on distances, bearings and compass directions *)

Module GeoMore.
Import Geo GeoTerms GeoProps.
Local Open Scope R_scope.

(** [calculateDistance] past its early return. *)
Lemma calculateDistance_unfold lat1 lon1 lat2 lon2 :
  lat1 <> lat2 \/ lon1 <> lon2 ->
  calculateDistance lat1 lon1 lat2 lon2
  = 6371000
    * (2 * atan2 (sqrt (haversineTerm lat1 lon1 lat2 lon2))
                 (sqrt (1 - haversineTerm lat1 lon1 lat2 lon2))).
Proof.
  intros H. unfold calculateDistance, haversineTerm.
  destruct (Req_dec_T lat1 lat2); [|reflexivity].
  destruct (Req_dec_T lon1 lon2); [|reflexivity].
  destruct H; contradiction.
Qed.

Lemma haversine_term_swap lat1 lon1 lat2 lon2 :
  haversineTerm lat2 lon2 lat1 lon1 = haversineTerm lat1 lon1 lat2 lon2.
Proof.
  unfold haversineTerm. cbv zeta.
  replace ((lat1 - lat2) * PI / 180 / 2) with (- ((lat2 - lat1) * PI / 180 / 2))
    by field.
  replace ((lon1 - lon2) * PI / 180 / 2) with (- ((lon2 - lon1) * PI / 180 / 2))
    by field.
  rewrite !sin_neg. ring.
Qed.

(** X7. The distance is symmetric, and zero from a point to itself. *)
Theorem calculateDistance_symmetric lat1 lon1 lat2 lon2 :
  calculateDistance lat1 lon1 lat2 lon2
  = calculateDistance lat2 lon2 lat1 lon1
  /\ calculateDistance lat1 lon1 lat1 lon1 = 0.
Proof.
  split.
  - destruct (Req_dec_T lat1 lat2) as [E1|N1].
    + destruct (Req_dec_T lon1 lon2) as [E2|N2].
      * subst. reflexivity.
      * rewrite !calculateDistance_unfold by auto.
        now rewrite haversine_term_swap.
    + rewrite !calculateDistance_unfold by auto.
      now rewrite haversine_term_swap.
  - unfold calculateDistance.
    destruct (Req_dec_T lat1 lat1) as [_|C]; [|now elim C].
    destruct (Req_dec_T lon1 lon1) as [_|C]; [reflexivity|now elim C].
Qed.

(** X9. The compass sectors: a bearing within 22.5 degrees below and less
    than 22.5 degrees above the [k]-th multiple of 45 gets the [k]-th
    label; a negative bearing from -337.5 up to -22.5 gets none. *)
Theorem compass_sectors :
  (forall (k : nat) bearing,
     (k <= 8)%nat ->
     45 * INR k - 22.5 <= bearing < 45 * INR k + 22.5 ->
     bearingToDirection bearing = nth_error directions k)
  /\ (forall bearing,
        -337.5 <= bearing < -22.5 -> bearingToDirection bearing = None).
Proof.
  split.
  - intros k b Hk Hb. unfold bearingToDirection.
    rewrite (Math_round_eq (b / 45) (Z.of_nat k)).
    + do 9 (destruct k as [|k]; [reflexivity|]). lia.
    + rewrite <- INR_IZR_INZ. lra.
  - intros b Hb. unfold bearingToDirection.
    destruct (Math_round_between (b / 45) (-7) (-1)) as [H1 H2];
      [simpl; lra|simpl; lra|].
    remember (Math_round (b / 45)) as r eqn:Er. clear Er.
    assert (r = -7 \/ r = -6 \/ r = -5 \/ r = -4 \/ r = -3 \/ r = -2
            \/ r = -1)%Z as Hc by lia.
    repeat (destruct Hc as [->|Hc]; [reflexivity|]). subst. reflexivity.
Qed.

Lemma compass_sectors_witness :
  bearingToDirection 100 = Some "East"%string
  /\ bearingToDirection (-90) = None.
Proof.
  split.
  - apply (proj1 compass_sectors 2%nat 100); [lia|simpl; lra].
  - apply (proj2 compass_sectors (-90)). lra.
Defined.

End GeoMore.

(** ** The haptic service *)

Module HapticMore.
Import Haptic.

Lemma quiet_step w e w' :
  web w = true \/ isEnabled w = false ->
  match e with ESetEnabled true => False | _ => True end ->
  step w e = Some w' ->
  device w' = device w /\ web w' = web w
  /\ (web w = true \/ isEnabled w' = false).
Proof.
  intros Hq He Hs.
  assert (Ht : forall ty ts,
             trigger ty (mkWorld (isEnabled w) (web w) ts (device w))
             = mkWorld (isEnabled w) (web w) ts (device w)).
  { intros ty ts. unfold trigger; simpl.
    destruct Hq as [-> | ->]; simpl; [now rewrite orb_true_r|reflexivity]. }
  assert (Ht' : forall ty, trigger ty w = w).
  { intros ty. destruct w as [en wb ts dv]. apply Ht. }
  destruct e; simpl in Hs;
    try (injection Hs as <-;
         unfold vibrateTurn, vibrateObstacle, vibrateArrival, vibrateWarning,
           vibrateError;
         rewrite ?Ht'; simpl; tauto).
  - destruct b; [contradiction|]. injection Hs as <-. simpl. tauto.
  - destruct (nth_error (timeouts w) k) as [[ms ty]|]; [|discriminate].
    injection Hs as <-. rewrite Ht. simpl. tauto.
Qed.

(** X6. On the web, and while haptics are disabled, nothing reaches the
    vibration device, whatever is triggered and whichever timeouts fire. *)
Theorem no_vibration_when_disabled_or_web es :
  forall w w',
  web w = true \/ (isEnabled w = false /\ never_enables es) ->
  run w es = Some w' ->
  device w' = device w.
Proof.
  induction es as [|e es IH]; intros w w' Hq Hr; simpl in Hr.
  - now injection Hr as <-.
  - destruct (step w e) as [w1|] eqn:Hs; [|discriminate].
    destruct Hq as [Hw|[Hen Hne]].
    + (* on the web the enabled flag does not matter *)
      assert (Hd : device w1 = device w /\ web w1 = true).
      { destruct e; simpl in Hs;
          try (injection Hs as <-;
               unfold vibrateTurn, vibrateObstacle, vibrateArrival,
                 vibrateWarning, vibrateError, trigger, setEnabled;
               simpl; rewrite Hw, ?orb_true_r; simpl; auto).
        destruct (nth_error (timeouts w) k) as [[ms ty]|]; [|discriminate].
        injection Hs as <-. unfold trigger; simpl.
        rewrite Hw, orb_true_r. simpl. auto. }
      destruct Hd as [Hd Hw1]. rewrite <- Hd. apply IH; auto.
    + unfold never_enables in Hne. simpl in Hne.
      apply andb_true_iff in Hne as [He Hne].
      destruct (quiet_step w e w1 (or_intror Hen)) as (Hd & Hw1 & Hq1); auto.
      { destruct e as [| | | | | |[|]|]; try exact I. discriminate. }
      rewrite <- Hd. apply IH; auto.
      destruct Hq1 as [Hq1|Hq1]; [left; congruence|right; auto].
Qed.

Lemma no_vibration_when_disabled_or_web_witness :
  exists w',
    run (init true) [EVibrateTurn; EVibrateArrival; ETimeout 0] = Some w'
    /\ device w' = [].
Proof.
  eexists. split; [reflexivity|].
  exact (no_vibration_when_disabled_or_web
           [EVibrateTurn; EVibrateArrival; ETimeout 0] (init true) _
           (or_introl eq_refl) eq_refl).
Defined.

Lemma nth_error_last {A} (l : list A) x :
  nth_error (l ++ [x]) (List.length l) = Some x.
Proof. rewrite nth_error_app2, Nat.sub_diag by lia. reflexivity. Qed.

Lemma remove_last {A} (l : list A) x :
  (firstn (List.length l) (l ++ [x])
   ++ skipn (S (List.length l)) (l ++ [x]))%list = l.
Proof.
  rewrite skipn_all2 by (rewrite length_app; simpl; lia).
  rewrite firstn_app, firstn_all, Nat.sub_diag. simpl.
  now rewrite !app_nil_r.
Qed.

(** X17. The two impulses of [vibrateTurn] are decided separately: the
    first by the enabled flag at the call, the second by the flag when the
    timeout fires 300 ms later. *)
Theorem turn_pattern_rechecks_flag w b :
  exists w',
    run w [EVibrateTurn; ESetEnabled b; ETimeout (List.length (timeouts w))]
    = Some w'
    /\ device w'
       = (device w
          ++ (if isHapticEnabled w then [impactAsync Medium] else [])
          ++ (if b && negb (web w) then [impactAsync Medium] else []))%list
    /\ timeouts w' = timeouts w.
Proof.
  assert (Hts : timeouts (trigger (Some Nav.medium) w) = timeouts w)
    by (unfold trigger; destruct (_ || _); reflexivity).
  assert (Hwb : web (trigger (Some Nav.medium) w) = web w)
    by (unfold trigger; destruct (_ || _); reflexivity).
  assert (Hdv : device (trigger (Some Nav.medium) w)
                = (device w ++ if isHapticEnabled w
                               then [impactAsync Medium] else [])%list).
  { unfold trigger, isHapticEnabled.
    destruct (isEnabled w), (web w); simpl; now rewrite ?app_nil_r. }
  cbn [run step]. unfold vibrateTurn. cbv zeta.
  cbn [setEnabled timeouts isEnabled web device].
  rewrite Hts, Hwb, Hdv, nth_error_last, remove_last.
  eexists. split; [reflexivity|].
  unfold trigger. cbn [isEnabled web timeouts device].
  destruct b, (web w); simpl; rewrite ?app_nil_r, <- ?app_assoc; auto.
Qed.

(** The haptic requests of the orchestrator are those of the service's own
    patterns. *)
Lemma deliver_patterns w :
  fold_left (fun x o => deliver o x) Nav.vibrateTurn w = vibrateTurn w
  /\ fold_left (fun x o => deliver o x) Nav.vibrateArrival w
     = vibrateArrival w.
Proof. split; reflexivity. Qed.

End HapticMore.

(** ** More on the navigation orchestrator *)

Module NavMore.
Import Geo Nav NavTerms NavProps.

(** *** The position watch *)

Lemma startLocationTracking_spec o a wa w :
  let rw := startLocationTracking o a wa w in
  isNavigating (snd rw) = isNavigating w
  /\ currentDestination (snd rw) = currentDestination w
  /\ navigationSteps (snd rw) = navigationSteps w
  /\ currentStepIndex (snd rw) = currentStepIndex w
  /\ (WatchOk w -> WatchOk (snd rw))
  /\ (forall h, watchId w = Some h ->
        watchId (snd rw) = Some h /\ watches (snd rw) = watches w).
Proof.
  unfold startLocationTracking.
  destruct (locationStartTracking_spec o a wa w)
    as ((A1 & A2 & A3 & A4 & _) & _ & C & D & _).
  assert (D' : forall h, watchId w = Some h ->
            watchId (snd (locationStartTracking o a wa w)) = Some h
            /\ watches (snd (locationStartTracking o a wa w)) = watches w).
  { intros h Hh. destruct (D h Hh) as (X & Y & _). auto. }
  destruct (locationStartTracking o a wa w) as [[|] w1]; cbn in *;
    unfold WatchOk in *; cbn;
    (split; [exact A1|]); (split; [exact A2|]); (split; [exact A3|]);
    (split; [exact A4|]); (split; [exact C|exact D']).
Qed.

Lemma begin_keeps_watch d o w :
  watchId (snd (startNavigation_begin d o w)) = watchId w
  /\ watches (snd (startNavigation_begin d o w)) = watches w.
Proof.
  unfold startNavigation_begin, stopNavigation, stopLocationTracking.
  destruct (isNavigating w); cbn.
  - destruct (watchId w); cbn; [auto|]. destruct (resolve d); cbn; auto.
  - destruct (resolve d); cbn; auto.
Qed.

Lemma resume_keeps_watch p env w :
  let w' := snd (startNavigation_resume p env w) in
  (WatchOk w -> WatchOk w')
  /\ (forall h, watchId w = Some h ->
        watchId w' = Some h /\ watches w' = watches w).
Proof.
  unfold startNavigation_resume. cbv zeta.
  destruct (getCurrentLocation_resume_spec (grantedAtCall p)
              (permission env) (position env) w)
    as (_ & Hi & Hws & _).
  destruct (getCurrentLocation_resume (grantedAtCall p) (permission env)
              (position env) w) as [[l|] w1]; cbn in Hi, Hws.
  2:{ cbn. unfold WatchOk; cbn. rewrite Hi, Hws. auto. }
  destruct (generateNavigationSteps_total l (coordinates (target p))
              (random1 env) (random2 env))
    as (s1 & s2 & s3 & s4 & s5 & s6 & -> & _).
  unfold js_index; simpl nth_error.
  change (if (0 <? 0)%Z then None else Some s1) with (Some s1).
  cbv iota beta.
  match goal with |- context [startLocationTracking ?a ?b ?c ?x] =>
    destruct (startLocationTracking_spec a b c x) as (_ & _ & _ & _ & C & D);
    destruct (startLocationTracking a b c x) as [[|] w5]
  end; cbn in *; unfold WatchOk in *; cbn in *;
    rewrite Hi, Hws in *; auto.
Qed.

Lemma intervalCallback_keeps_watch o w :
  watchId (intervalCallback o w) = watchId w
  /\ watches (intervalCallback o w) = watches w.
Proof.
  unfold intervalCallback. cbv zeta.
  destruct (isNavigating w); cbn; [|auto].
  destruct (lastLocation w); [|auto].
  destruct (currentDestination w); [|auto].
  destruct (Rle_dec _ _); [cbn; auto|].
  destruct (js_index _ _) as [cur|]; [|auto].
  destruct (isCompleted cur); [auto|].
  destruct (_ <? _)%Z; cbn; auto.
Qed.

(** No event removes or replaces a watch whose handle is set. *)
Lemma step_keeps_watch s e s' :
  step s e = Some s' ->
  (WatchOk (world s) -> WatchOk (world s'))
  /\ (forall h, watchId (world s) = Some h ->
        watchId (world s') = Some h
        /\ watches (world s') = watches (world s)).
Proof.
  assert (Same : forall w w',
            watchId w' = watchId w -> watches w' = watches w ->
            (WatchOk w -> WatchOk w')
            /\ (forall h, watchId w = Some h ->
                  watchId w' = Some h /\ watches w' = watches w)).
  { intros w w' A B. unfold WatchOk. rewrite A, B. auto. }
  intros Hs. destruct e as [d o|k env| |t|hd l| |]; simpl in Hs.
  - destruct (begin_keeps_watch d o (world s)) as [A B].
    destruct (startNavigation_begin d o (world s)) as [[r|p] w1];
      injection Hs as <-; cbn in *; exact (Same _ w1 A B).
  - destruct (nth_error (pending s) k); [|discriminate].
    injection Hs as <-. apply resume_keeps_watch.
  - injection Hs as <-. cbn [world].
    apply (Same (world s) (snd (stopNavigation (world s)))).
    + unfold stopNavigation, stopLocationTracking.
      destruct (isNavigating (world s)); cbn; [|reflexivity].
      destruct (watchId (world s)); reflexivity.
    + unfold stopNavigation, stopLocationTracking.
      destruct (isNavigating (world s)); cbn; [|reflexivity].
      destruct (watchId (world s)); reflexivity.
  - destruct (lookup_handle t (timers (world s))) as [o|]; [|discriminate].
    injection Hs as <-. cbn [world].
    destruct (intervalCallback_keeps_watch o (world s)) as [A B].
    exact (Same _ _ A B).
  - destruct (lookup_handle hd (watches (world s))) as [o|]; [|discriminate].
    injection Hs as <-. cbn [world].
    exact (Same (world s) (watchCallback o l (world s)) eq_refl eq_refl).
  - injection Hs as <-. cbn [world].
    apply (Same (world s) (snd (moveToNextStep (world s))));
      unfold moveToNextStep; destruct (_ || _); reflexivity.
  - injection Hs as <-. cbn [world].
    apply (Same (world s) (snd (moveToPreviousStep (world s))));
      unfold moveToPreviousStep; destruct (_ || _); reflexivity.
Qed.

Lemma run_keeps_watch es :
  forall s s', run s es = Some s' ->
  (WatchOk (world s) -> WatchOk (world s'))
  /\ (forall h, watchId (world s) = Some h ->
        watchId (world s') = Some h
        /\ watches (world s') = watches (world s)).
Proof.
  induction es as [|e es IH]; intros s s' Hr; simpl in Hr.
  - injection Hr as <-. auto.
  - destruct (step s e) as [s1|] eqn:Hs; [|discriminate].
    destruct (step_keeps_watch _ _ _ Hs) as [A B].
    destruct (IH _ _ Hr) as [A' B'].
    split; [auto|]. intros h Hh. destruct (B h Hh) as [B1 B2].
    destruct (B' h B1) as [B1' B2']. split; congruence.
Qed.

(** X11. On every trace, calls that overlap included, at most one position
    watch is live, and it is the one whose promise the location service
    holds as [watchId].  Once the handle is set it is never cleared and
    the watch is never removed or replaced: [stopLocationTracking] throws
    at [remove()], and [startWatching] throws before it starts another
    watch. *)
Theorem one_watch_at_any_time g es s :
  run (initial g) es = Some s ->
  (List.length (watches (world s)) <= 1)%nat
  /\ (watches (world s) = []
      \/ exists h o, watchId (world s) = Some h
                     /\ watches (world s) = [(h, o)])
  /\ (forall h es' s',
        watchId (world s) = Some h -> run s es' = Some s' ->
        watchId (world s') = Some h
        /\ watches (world s') = watches (world s)).
Proof.
  intros Hr.
  assert (HW : WatchOk (world s)).
  { apply (proj1 (run_keeps_watch es _ _ Hr)). left. reflexivity. }
  split; [|split; [exact HW|]].
  - destruct HW as [->|(h & o & _ & ->)]; cbn; lia.
  - intros h es' s' Hh Hr'. exact (proj2 (run_keeps_watch es' _ _ Hr') h Hh).
Qed.

Lemma one_watch_at_any_time_witness :
  exists s,
    run (initial true)
        [EStart (inr "park") sampleOptions; EStart (inr "home") sampleOptions;
         EResume 0 sampleEnv; EResume 0 sampleEnv] = Some s
    /\ (List.length (watches (world s)) <= 1)%nat.
Proof.
  eexists. split; [reflexivity|].
  exact (proj1 (one_watch_at_any_time true
                  [EStart (inr "park") sampleOptions;
                   EStart (inr "home") sampleOptions;
                   EResume 0 sampleEnv; EResume 0 sampleEnv] _ eq_refl)).
Defined.

(** *** A start without a position *)

(** X12. On a service with no active session, a [startNavigation] for a
    destination that resolves, run with nothing else in between, returns
    [false] when the permission is refused or no position can be had: it
    calls the error callback once with 'Unable to get current location'
    and leaves session, timer and watch as they were; it allocates no
    handle. *)
Theorem start_without_location_fails d t o env w h :
  isNavigating w = false ->
  resolve d = Some t ->
  (isPermissionGranted w = false /\ permission env <> Granted)
  \/ position env = None ->
  onError o = Some h ->
  let rw := startNavigation d o env w in
  fst rw = Returned false
  /\ out (snd rw)
     = (out w ++ [CbError h "Unable to get current location"])%list
  /\ same_session (snd rw) w
  /\ lastLocation (snd rw) = lastLocation w
  /\ lastKnownLocation (snd rw) = lastKnownLocation w
  /\ watchId (snd rw) = watchId w /\ watches (snd rw) = watches w
  /\ fresh (snd rw) = fresh w.
Proof.
  intros Hn Hd Hfail He.
  unfold startNavigation, startNavigation_begin. rewrite Hn, Hd. cbn.
  unfold startNavigation_resume, getCurrentLocation_resume.
  cbv zeta. cbn [p_options grantedAtCall target]. rewrite He.
  destruct Hfail as [[Hg Hp]|Hpos].
  - rewrite Hg. destruct (permission env); try contradiction; simpl;
      unfold same_session; simpl; auto 15.
  - rewrite Hpos. destruct (isPermissionGranted w); simpl.
    + unfold same_session; auto 15.
    + destruct (permission env); simpl; unfold same_session; simpl; auto 15.
Qed.

Lemma start_without_location_fails_witness :
  fst (startNavigation (inr "park") sampleOptions deniedEnv (init false))
  = Returned false.
Proof.
  assert (Hd : permission deniedEnv <> Granted) by discriminate.
  pose proof (start_without_location_fails (inr "park")
                (mkDestination "park" "Park" (coords 37.78525 (-122.4354))
                   None)
                sampleOptions deniedEnv (init false) 3%nat
                eq_refl eq_refl (or_introl (conj eq_refl Hd)) eq_refl) as H.
  exact (proj1 H).
Defined.

(** *** A start after the first watch *)

(** X28. Once a watch handle is set, a [startNavigation] that resumes with
    a position and the permission marks the session active with its six
    steps, then throws in [startLocationTracking] before [setInterval]: its
    promise rejects, no timer is added and the watch is as before.  On a
    service without a live timer the session so started has none, so that
    no interval can fire for it. *)
Theorem start_after_first_watch_has_no_timer p env w l h :
  watchId w = Some h -> position env = Some l ->
  (if grantedAtCall p then isPermissionGranted w = true
   else permission env = Granted) ->
  let rw := startNavigation_resume p env w in
  fst rw = Threw
  /\ isNavigating (snd rw) = true
  /\ currentDestination (snd rw) = Some (target p)
  /\ List.length (navigationSteps (snd rw)) = 6%nat
  /\ timers (snd rw) = timers w
  /\ watches (snd rw) = watches w
  /\ (timers w = [] ->
      forall ps t, step (mkSystem (snd rw) ps) (ETick t) = None).
Proof.
  intros Hw Hpos Hperm.
  destruct (startNavigation_resume_throws p env w l h Hw Hpos Hperm)
    as (A & B & C & D & _ & _ & F & _ & G).
  cbv zeta. repeat split; auto.
  intros Ht ps t. cbn [step world]. rewrite F, Ht. reflexivity.
Qed.

Lemma start_after_first_watch_has_no_timer_witness :
  fst (startNavigation_resume
         (mkPending (mkDestination "home" "Home" (coords 37.78725 (-122.4334))
                       None) sampleOptions true)
         sampleEnv (snd (stopNavigation twoSteps))) = Threw.
Proof.
  pose proof (start_after_first_watch_has_no_timer
                (mkPending (mkDestination "home" "Home"
                              (coords 37.78725 (-122.4334)) None)
                   sampleOptions true)
                sampleEnv (snd (stopNavigation twoSteps)) parkPosition 0%nat
                eq_refl eq_refl eq_refl) as H.
  exact (proj1 H).
Defined.

(** *** The current step *)

Lemma update_nth_length {A} (x : A) l :
  forall n, List.length (update_nth n x l) = List.length l.
Proof.
  induction l as [|y l IH]; intros [|n]; simpl; auto.
Qed.

Lemma js_index_some {A} (l : list A) i a :
  js_index l i = Some a -> (0 <= i < Z.of_nat (List.length l))%Z.
Proof.
  unfold js_index. destruct (Z.ltb_spec i 0) as [Hi|Hi]; [discriminate|].
  intros Hx. assert (Hn : nth_error l (Z.to_nat i) <> None) by congruence.
  apply nth_error_Some in Hn. lia.
Qed.

Lemma js_index_defined {A} (l : list A) i :
  (0 <= i < Z.of_nat (List.length l))%Z -> exists a, js_index l i = Some a.
Proof.
  intros [H0 H1]. unfold js_index.
  destruct (Z.ltb_spec i 0) as [Hi|Hi]; [lia|].
  destruct (nth_error l (Z.to_nat i)) eqn:E; [eauto|].
  apply nth_error_None in E. lia.
Qed.

Lemma StepsOk_stopNavigation w :
  StepsOk w -> StepsOk (snd (stopNavigation w)).
Proof.
  intros H. unfold stopNavigation. destruct (isNavigating w); [|exact H].
  simpl. unfold stopLocationTracking; simpl.
  destruct (watchId w); unfold StepsOk; simpl;
    (split; [auto|discriminate]).
Qed.

Lemma StepsOk_intervalCallback o w : StepsOk w -> StepsOk (intervalCallback o w).
Proof.
  intros H. unfold intervalCallback. cbv zeta.
  destruct (isNavigating w) eqn:Hn; simpl; [|exact H].
  destruct (lastLocation w); [|exact H].
  destruct (currentDestination w); [|exact H].
  destruct (Rle_dec _ _).
  - destruct H as [H1 _]. unfold StepsOk; simpl. split; [exact H1|discriminate].
  - destruct (js_index _ _) as [cur|] eqn:Ej; [|exact H].
    destruct (isCompleted cur); [exact H|].
    destruct (Z.ltb_spec (currentStepIndex w)
                (Z.of_nat (List.length (navigationSteps w)) - 1));
      [|exact H].
    apply js_index_some in Ej. destruct H as [_ H2].
    unfold StepsOk; simpl. rewrite update_nth_length.
    split; [right; lia|intros _; exact (H2 Hn)].
Qed.

Lemma StepsOk_resume p env w :
  StepsOk w -> StepsOk (snd (startNavigation_resume p env w)).
Proof.
  intros H. unfold startNavigation_resume. cbv zeta.
  destruct (getCurrentLocation_resume_spec (grantedAtCall p)
              (permission env) (position env) w)
    as ((A & _ & B & C & _) & _).
  destruct (getCurrentLocation_resume (grantedAtCall p) (permission env)
              (position env) w) as [[l|] w1]; simpl in A, B, C.
  2:{ simpl. unfold StepsOk in *; simpl. now rewrite A, B, C. }
  destruct (generateNavigationSteps_total l (coordinates (target p))
              (random1 env) (random2 env))
    as (s1 & s2 & s3 & s4 & s5 & s6 & -> & _).
  unfold js_index; simpl nth_error.
  change (if (0 <? 0)%Z then None else Some s1) with (Some s1).
  cbv iota beta.
  match goal with |- context [startLocationTracking ?a ?b ?c ?x] =>
    destruct (startLocationTracking_spec a b c x) as (N & _ & Hst & Hix & _);
    destruct (startLocationTracking a b c x) as [[|] w5]
  end; cbn in *; unfold StepsOk; rewrite N, Hst, Hix; cbn;
    (split; [right; lia|auto]).
Qed.

Lemma StepsOk_step s e s' :
  StepsOk (world s) -> step s e = Some s' -> StepsOk (world s').
Proof.
  intros H Hs. destruct e; simpl in Hs.
  - assert (H0 : StepsOk (snd (startNavigation_begin destination o (world s)))).
    { unfold startNavigation_begin.
      assert (H1 : StepsOk (snd (if isNavigating (world s)
                                 then stopNavigation (world s)
                                 else (Done, world s))))
        by (destruct (isNavigating (world s));
            [now apply StepsOk_stopNavigation|exact H]).
      destruct (if isNavigating (world s) then stopNavigation (world s)
                else (Done, world s)) as [[|] w0]; cbn in *; [|exact H1].
      destruct (resolve destination); simpl; exact H1. }
    destruct (startNavigation_begin destination o (world s)) as [[r|p] w1];
      injection Hs as <-; exact H0.
  - destruct (nth_error (pending s) k); [|discriminate].
    injection Hs as <-. now apply StepsOk_resume.
  - injection Hs as <-. now apply StepsOk_stopNavigation.
  - destruct (lookup_handle t (timers (world s))); [|discriminate].
    injection Hs as <-. now apply StepsOk_intervalCallback.
  - destruct (lookup_handle h (watches (world s))); [|discriminate].
    injection Hs as <-. exact H.
  - injection Hs as <-. simpl. unfold moveToNextStep.
    destruct (negb (isNavigating (world s))) eqn:Hn; simpl; [exact H|].
    destruct (Z.leb_spec
                (Z.of_nat (List.length (navigationSteps (world s))) - 1)
                (currentStepIndex (world s))); simpl; [exact H|].
    destruct H as [[[H1 H1']|H1] H2]; unfold StepsOk; simpl.
    + rewrite H1 in *. simpl in *. lia.
    + split; [right; lia|exact H2].
  - injection Hs as <-. simpl. unfold moveToPreviousStep.
    destruct (negb (isNavigating (world s))) eqn:Hn; simpl; [exact H|].
    destruct (Z.leb_spec (currentStepIndex (world s)) 0); simpl; [exact H|].
    destruct H as [[[H1 H1']|H1] H2]; unfold StepsOk; simpl.
    + lia.
    + split; [right; lia|exact H2].
Qed.

(** X13. On every trace the current step is well defined: while a session
    is active it has six steps, the index is within them and
    [getCurrentStep] returns that step, never [undefined]; with no active
    session [getCurrentStep] returns [null]. *)
Theorem current_step_always_defined g es s :
  run (initial g) es = Some s ->
  (isNavigating (world s) = true ->
   List.length (navigationSteps (world s)) = 6%nat
   /\ (0 <= currentStepIndex (world s) < 6)%Z
   /\ exists st, getCurrentStep (world s) = Just st)
  /\ (isNavigating (world s) = false -> getCurrentStep (world s) = Null).
Proof.
  intros Hr.
  assert (HS : StepsOk (world s)).
  { assert (H0 : StepsOk (world (initial g)))
      by (unfold StepsOk; simpl; split; [auto|discriminate]).
    revert Hr H0. generalize (initial g).
    induction es as [|e es IH]; intros s0 Hr H0; simpl in Hr.
    - now injection Hr as <-.
    - destruct (step s0 e) as [s1|] eqn:Hs; [|discriminate].
      eapply IH; eauto using StepsOk_step. }
  destruct HS as [H1 H2]. split.
  - intros Hn. specialize (H2 Hn). split; [exact H2|].
    assert (Hi : (0 <= currentStepIndex (world s) < 6)%Z).
    { destruct H1 as [[H1 _]|H1]; [rewrite H1 in H2; discriminate|].
      rewrite H2 in H1. exact H1. }
    split; [exact Hi|].
    unfold getCurrentStep. rewrite Hn, H2. simpl.
    destruct (js_index_defined (navigationSteps (world s))
                (currentStepIndex (world s))) as [a ->]; [rewrite H2; lia|].
    eauto.
  - intros Hn. unfold getCurrentStep. now rewrite Hn.
Qed.

Lemma current_step_always_defined_witness :
  exists s,
    run (initial true)
        [EStart (inr "park") sampleOptions; EResume 0 sampleEnv; ENext]
    = Some s
    /\ (isNavigating (world s) = false -> getCurrentStep (world s) = Null).
Proof.
  eexists. split; [reflexivity|].
  exact (proj2 (current_step_always_defined true
                  [EStart (inr "park") sampleOptions; EResume 0 sampleEnv;
                   ENext] _ eq_refl)).
Defined.

(** X14. Manual stepping: both moves return [false] and change nothing
    with no active session; with the index within the steps, a successful
    [moveToNextStep] is undone by [moveToPreviousStep] and the other way
    round; a move that returns [false] changes nothing. *)
Theorem manual_steps_round_trip w :
  (isNavigating w = false ->
   moveToNextStep w = (false, w) /\ moveToPreviousStep w = (false, w))
  /\ ((0 <= currentStepIndex w)%Z ->
      fst (moveToNextStep w) = true ->
      moveToPreviousStep (snd (moveToNextStep w)) = (true, w))
  /\ ((currentStepIndex w < Z.of_nat (List.length (navigationSteps w)))%Z ->
      fst (moveToPreviousStep w) = true ->
      moveToNextStep (snd (moveToPreviousStep w)) = (true, w))
  /\ (fst (moveToNextStep w) = false -> snd (moveToNextStep w) = w)
  /\ (fst (moveToPreviousStep w) = false -> snd (moveToPreviousStep w) = w).
Proof.
  unfold moveToNextStep, moveToPreviousStep.
  split; [intros ->; simpl; auto|].
  split; [|split; [|split]].
  - intros H0.
    destruct (negb (isNavigating w)) eqn:Hn; simpl; [discriminate|].
    destruct (Z.leb_spec (Z.of_nat (List.length (navigationSteps w)) - 1)
                (currentStepIndex w)); simpl; [discriminate|].
    intros _. rewrite Hn. simpl.
    destruct (Z.leb_spec (currentStepIndex w + 1) 0); [lia|].
    simpl. unfold setIndex; simpl.
    replace (currentStepIndex w + 1 - 1)%Z with (currentStepIndex w) by lia.
    f_equal. destruct w; reflexivity.
  - intros Hlt.
    destruct (negb (isNavigating w)) eqn:Hn; simpl; [discriminate|].
    destruct (Z.leb_spec (currentStepIndex w) 0); simpl; [discriminate|].
    intros _. rewrite Hn. simpl.
    destruct (Z.leb_spec (Z.of_nat (List.length (navigationSteps w)) - 1)
                (currentStepIndex w - 1)); [lia|].
    simpl. unfold setIndex; simpl.
    replace (currentStepIndex w - 1 + 1)%Z with (currentStepIndex w) by lia.
    f_equal. destruct w; reflexivity.
  - destruct (_ || _); simpl; [auto|discriminate].
  - destruct (_ || _); simpl; [auto|discriminate].
Qed.

Lemma manual_steps_round_trip_witness :
  moveToPreviousStep (snd (moveToNextStep twoSteps)) = (true, twoSteps).
Proof.
  apply (proj1 (proj2 (manual_steps_round_trip twoSteps))).
  - simpl. lia.
  - reflexivity.
Defined.

(** *** Advancing on the clock *)

Lemma update_nth_flags l :
  forall k cur rest,
  map isCompleted l = (repeat true k ++ false :: rest)%list ->
  nth_error l k = Some cur ->
  map isCompleted (update_nth k (complete cur) l)
  = (repeat true (S k) ++ rest)%list.
Proof.
  induction l as [|y l IH]; intros [|k] cur rest Hm Hn; simpl in *;
    try discriminate.
  - injection Hm as _ Hm. now rewrite Hm.
  - injection Hm as Hy Hm. rewrite Hy. f_equal. eapply IH; eauto.
Qed.

Lemma nth_error_flag l :
  forall k rest b,
  map isCompleted l = (repeat true k ++ b :: rest)%list ->
  exists cur, nth_error l k = Some cur /\ isCompleted cur = b.
Proof.
  induction l as [|y l IH]; intros [|k] rest b Hm; simpl in *;
    try discriminate.
  - injection Hm as Hy _. eauto.
  - injection Hm as _ Hm. eapply IH; eauto.
Qed.

(** One firing away from the destination, at step [k] of an active session
    whose steps before [k] are completed and the others not. *)
Lemma tick_advances o w k rest :
  isNavigating w = true -> away o w ->
  currentStepIndex w = Z.of_nat k ->
  map isCompleted (navigationSteps w)
  = (repeat true k ++ false :: rest)%list ->
  let w' := intervalCallback o w in
  isNavigating w' = true /\ away o w'
  /\ match rest with
     | [] => w' = w
     | _ :: rest' =>
         currentStepIndex w' = Z.of_nat (S k)
         /\ map isCompleted (navigationSteps w')
            = (repeat true (S k) ++ rest)%list
         /\ map step_id (navigationSteps w') = map step_id (navigationSteps w)
     end.
Proof.
  intros Hn (l & d & Hl & Hd & Hfar) Hk Hm.
  destruct (nth_error_flag _ _ _ _ Hm) as (cur & Hcur & Hc).
  assert (Hlen : List.length (navigationSteps w)
                 = (k + S (List.length rest))%nat).
  { rewrite <- (length_map isCompleted), Hm, length_app, repeat_length.
    reflexivity. }
  unfold intervalCallback. cbv zeta. rewrite Hn, Hl, Hd. simpl.
  destruct (Rle_dec _ _) as [C|_]; [contradiction|].
  unfold js_index. rewrite Hk.
  destruct (Z.ltb_spec (Z.of_nat k) 0) as [C|_]; [lia|].
  rewrite Nat2Z.id, Hcur, Hc.
  destruct rest as [|b rest'].
  - destruct (Z.ltb_spec (Z.of_nat k)
                (Z.of_nat (List.length (navigationSteps w)) - 1)) as [C|_];
      [simpl in Hlen; lia|].
    repeat split; auto. exists l, d. auto.
  - destruct (Z.ltb_spec (Z.of_nat k)
                (Z.of_nat (List.length (navigationSteps w)) - 1)) as [_|C];
      [|simpl in Hlen; lia].
    simpl. split; [reflexivity|]. split; [exists l, d; auto|].
    split; [lia|]. split.
    + now apply update_nth_flags.
    + clear - Hcur. revert k Hcur.
      induction (navigationSteps w) as [|y st IH]; intros [|k] Hcur;
        simpl in *; try discriminate; auto.
      * now injection Hcur as ->.
      * f_equal. now apply IH.
Qed.

Lemma ticks_advance o n :
  forall w k r,
  isNavigating w = true -> away o w ->
  currentStepIndex w = Z.of_nat k ->
  map isCompleted (navigationSteps w)
  = (repeat true k ++ repeat false (S r))%list ->
  let m := Nat.min n r in
  let w' := ticks n o w in
  isNavigating w' = true
  /\ currentStepIndex w' = Z.of_nat (k + m)
  /\ map isCompleted (navigationSteps w')
     = (repeat true (k + m) ++ repeat false (S (r - m)))%list
  /\ map step_id (navigationSteps w') = map step_id (navigationSteps w).
Proof.
  induction n as [|n IH]; intros w k r Hn Ha Hk Hm.
  - simpl. rewrite Nat.add_0_r, Nat.sub_0_r. auto.
  - pose proof (tick_advances o w k (repeat false r) Hn Ha Hk Hm)
      as (Hn1 & Ha1 & H).
    destruct r as [|r']; simpl repeat in H; cbv iota in H.
    + cbn [ticks]. rewrite H.
      pose proof (IH w k 0%nat Hn Ha Hk Hm) as IH'.
      rewrite Nat.min_0_r in *. exact IH'.
    + destruct H as (Hk1 & Hm1 & Hid).
      pose proof (IH (intervalCallback o w) (S k) r' Hn1 Ha1 Hk1 Hm1)
        as (A & B & C & D).
      cbn [ticks]. cbv zeta.
      replace (Nat.min (S n) (S r')) with (S (Nat.min n r')) by lia.
      replace (k + S (Nat.min n r'))%nat with (S k + Nat.min n r')%nat by lia.
      replace (S r' - S (Nat.min n r'))%nat with (r' - Nat.min n r')%nat
        by lia.
      rewrite D, Hid. auto.
Qed.

(** X15. Step advancement runs on the clock alone: in an active session at
    its first step with no step completed, [n] firings of the interval
    while the last position is beyond the threshold leave the session
    active at step [min(n, last)], the steps before it completed and the
    others not; the last step is never completed. *)
Theorem steps_advance_on_the_clock o w n :
  at_first_step w -> away o w -> navigationSteps w <> [] ->
  let last := (List.length (navigationSteps w) - 1)%nat in
  let w' := ticks n o w in
  isNavigating w' = true
  /\ currentStepIndex w' = Z.of_nat (Nat.min n last)
  /\ map isCompleted (navigationSteps w')
     = (repeat true (Nat.min n last)
        ++ repeat false (List.length (navigationSteps w) - Nat.min n last))%list
  /\ map step_id (navigationSteps w') = map step_id (navigationSteps w).
Proof.
  intros (Hn & Hk & Hf) Ha Hne.
  assert (Hm : map isCompleted (navigationSteps w)
               = repeat false (List.length (navigationSteps w))).
  { clear - Hf. induction Hf as [|x l Hx _ IH]; simpl; [reflexivity|].
    now rewrite Hx, IH. }
  destruct (List.length (navigationSteps w)) as [|r] eqn:El.
  { apply length_zero_iff_nil in El. contradiction. }
  pose proof (ticks_advance o n w 0%nat r Hn Ha Hk Hm) as (A & B & C & D).
  cbv zeta. replace (S r - 1)%nat with r by lia.
  replace (S r - Nat.min n r)%nat with (S (r - Nat.min n r)) by lia.
  auto.
Qed.

Lemma away_twoSteps : away neverArrive twoSteps.
Proof.
  exists parkPosition, (mkDestination "park" "Park" parkPosition None).
  repeat split. simpl. rewrite calculateDistance_same.
  unfold thresholdOf; simpl. lra.
Qed.

Lemma steps_advance_on_the_clock_witness :
  currentStepIndex (ticks 5 neverArrive twoSteps) = 1%Z.
Proof.
  assert (H1 : at_first_step twoSteps)
    by (repeat split; repeat constructor).
  assert (H2 : navigationSteps twoSteps <> []) by discriminate.
  exact (proj1 (proj2 (steps_advance_on_the_clock neverArrive twoSteps 5
                         H1 away_twoSteps H2))).
Defined.

(** X16. The clock never advances past a completed step: after one firing
    and a manual [moveToPreviousStep] the session is back on its first
    step, which is completed, and no number of further firings away from
    the destination moves it. *)
Theorem going_back_stalls_the_clock o w n :
  at_first_step w -> away o w ->
  (2 <= List.length (navigationSteps w))%nat ->
  let back := moveToPreviousStep (intervalCallback o w) in
  fst back = true
  /\ currentStepIndex (snd back) = 0%Z
  /\ ticks n o (snd back) = snd back.
Proof.
  intros (Hn & Hk & Hf) Ha Hlen.
  assert (Hm : map isCompleted (navigationSteps w)
               = repeat false (List.length (navigationSteps w))).
  { clear - Hf. induction Hf as [|x l Hx _ IH]; simpl; [reflexivity|].
    now rewrite Hx, IH. }
  destruct (List.length (navigationSteps w)) as [|[|r]] eqn:El; try lia.
  pose proof (tick_advances o w 0%nat (repeat false (S r)) Hn Ha Hk Hm)
    as (Hn1 & Ha1 & Hk1 & Hm1 & _).
  remember (intervalCallback o w) as w1 eqn:E1. clear E1.
  unfold moveToPreviousStep. rewrite Hn1, Hk1. simpl.
  split; [reflexivity|]. split; [reflexivity|].
  destruct (navigationSteps w1) as [|s0 st] eqn:Est; [discriminate|].
  simpl in Hm1. injection Hm1 as Hs0 _.
  destruct Ha1 as (l & d & Hl & Hd & Hfar).
  induction n as [|n IH]; [reflexivity|].
  cbn [ticks].
  assert (Hstay : intervalCallback o (setIndex (1 - 1) w1)
                  = setIndex (1 - 1) w1).
  { unfold intervalCallback, setIndex. cbv zeta. simpl.
    rewrite Hn1, Hl, Hd. simpl.
    destruct (Rle_dec _ _) as [C|_]; [contradiction|].
    rewrite Est. unfold js_index. simpl. now rewrite Hs0. }
  simpl in Hstay |- *. rewrite Hstay. exact IH.
Qed.

Lemma going_back_stalls_the_clock_witness :
  ticks 3 neverArrive
    (snd (moveToPreviousStep (intervalCallback neverArrive twoSteps)))
  = snd (moveToPreviousStep (intervalCallback neverArrive twoSteps)).
Proof.
  assert (H1 : at_first_step twoSteps)
    by (repeat split; repeat constructor).
  assert (H2 : (2 <= List.length (navigationSteps twoSteps))%nat)
    by (simpl; lia).
  exact (proj2 (proj2 (going_back_stalls_the_clock neverArrive twoSteps 3
                         H1 away_twoSteps H2))).
Defined.

(** X18. Every destination of the catalogue is found by its id and by its
    name, spelled exactly; a destination object is taken as it is. *)
Theorem catalogue_lookup_round_trip :
  Forall (fun d => resolve (inr (id d)) = Some d
                   /\ resolve (inr (name d)) = Some d)
         commonDestinations
  /\ (forall d, resolve (inl d) = Some d)
  /\ resolve (inr "Park") = resolve (inr "park")
  /\ resolve (inr "PARK") = None.
Proof.
  split; [|split; [|split]]; try reflexivity.
  repeat constructor.
Qed.

End NavMore.

(** ** More on the detection pipeline *)

Module DetectMore.
Import Detect DetectTerms DetectProps.
Local Open Scope Q_scope.

(** X19. The estimated distance falls as the confidence rises, and for the
    confidences of emitted objects, above 0.5 and at most 1, it lies
    between 0 and 2.5 metres. *)
Theorem estimateDistance_decreasing_and_bounded :
  (forall c1 c2, c1 <= c2 -> estimateDistance c2 <= estimateDistance c1)
  /\ (forall c, 1 # 2 < c -> c <= 1 ->
        0 <= estimateDistance c /\ estimateDistance c <= 5 # 2).
Proof.
  split.
  - intros c1 c2 H. unfold estimateDistance, Math_round.
    apply Qmult_le_compat_r; [|discriminate].
    rewrite <- Zle_Qle. apply Qfloor_resp_le. Lqa.lra.
  - intros c H1 H2. unfold estimateDistance, Math_round.
    assert (Hlo : (0 <= Qfloor ((1 - c) * 5 * 10 + (1 # 2)))%Z).
    { change 0%Z with (Qfloor 0). apply Qfloor_resp_le. Lqa.lra. }
    assert (Hhi : (Qfloor ((1 - c) * 5 * 10 + (1 # 2)) <= 25)%Z).
    { pose proof (Qfloor_le ((1 - c) * 5 * 10 + (1 # 2))) as Hf.
      assert (Hlt : inject_Z (Qfloor ((1 - c) * 5 * 10 + (1 # 2)))
                    < inject_Z 26).
      { change (inject_Z 26) with (26 # 1). Lqa.lra. }
      rewrite <- Zlt_Qlt in Hlt. lia. }
    rewrite Zle_Qle in Hlo, Hhi.
    set (k := inject_Z (Qfloor ((1 - c) * 5 * 10 + (1 # 2)))) in *.
    change (inject_Z 0) with 0 in Hlo. change (inject_Z 25) with 25 in Hhi.
    split.
    + apply Qle_shift_div_l; [reflexivity|]. Lqa.lra.
    + apply Qle_shift_div_r; [reflexivity|]. Lqa.lra.
Qed.

Lemma estimateDistance_decreasing_and_bounded_witness :
  estimateDistance (9 # 10) <= estimateDistance (6 # 10)
  /\ estimateDistance (9 # 10) <= 5 # 2.
Proof.
  split.
  - apply (proj1 estimateDistance_decreasing_and_bounded). discriminate.
  - apply (proj2 estimateDistance_decreasing_and_bounded);
      [reflexivity|discriminate].
Defined.

Lemma processLoop_confident p now rest :
  forall i,
  Forall (fun o => gt (confidence o) (1 # 2) = true
                   /\ distance o = Some (estimateDistance (confidence o)))
         (processLoop p now i rest)
  /\ (List.length (processLoop p now i rest) <= List.length rest)%nat.
Proof.
  induction rest as [|s rest IH]; intros i; simpl.
  - split; [constructor|lia].
  - destruct (IH (S i)) as [IH1 IH2].
    destruct (gt s (1 # 2)) eqn:Eg; [|split; [auto|lia]].
    destruct (nth_error (classes p) i) as [c|]; [|split; [auto|lia]].
    destruct (c <? _)%Z; [|split; [auto|lia]].
    split; [constructor; simpl; auto|simpl; lia].
Qed.

Lemma processLoop_labelled p now rest :
  forall i,
  (i + List.length rest <= List.length (classes p))%nat ->
  Forall (fun c => (0 <= c < Z.of_nat (List.length COCO_LABELS))%Z)
         (classes p) ->
  map confidence (processLoop p now i rest)
  = filter (fun s => gt s (1 # 2)) rest
  /\ Forall (fun o => exists l, name o = Some l /\ In l COCO_LABELS)
            (processLoop p now i rest).
Proof.
  induction rest as [|s rest IH]; intros i Hlen Hc.
  - simpl. auto.
  - cbn [processLoop filter]. cbv zeta.
    destruct (IH (S i)) as [IH1 IH2]; [simpl in Hlen; lia|exact Hc|].
    destruct (gt s (1 # 2)); [|auto].
    destruct (nth_error (classes p) i) as [c|] eqn:En.
    2:{ apply nth_error_None in En. simpl in Hlen. lia. }
    assert (Hci : (0 <= c < Z.of_nat (List.length COCO_LABELS))%Z).
    { rewrite Forall_forall in Hc. apply Hc. eapply nth_error_In; eauto. }
    destruct (Z.ltb_spec c (Z.of_nat (List.length COCO_LABELS))); [|lia].
    split; [cbn [map confidence]; now rewrite IH1|].
    constructor; [|exact IH2]. cbn [name].
    unfold js_index. destruct (Z.ltb_spec c 0); [lia|].
    destruct (nth_error COCO_LABELS (Z.to_nat c)) as [l|] eqn:El.
    + exists l. split; [reflexivity|]. eapply nth_error_In; eauto.
    + apply nth_error_None in El. lia.
Qed.

(** X20. What a batch holds.  Whatever the model returns, every object
    has a confidence above 0.5 and the distance estimated from it, and
    there are no more objects than scores; with the model not loaded the
    batch is empty.  When every score has a class index that names a
    label, the confidences of the batch are exactly the scores above 0.5,
    in order, and every object carries a label of the list. *)
Theorem batch_contents p now :
  Forall (fun o => gt (confidence o) (1 # 2) = true
                   /\ distance o = Some (estimateDistance (confidence o)))
         (processImage true true (Predicted p now))
  /\ (List.length (processImage true true (Predicted p now))
      <= List.length (scores p))%nat
  /\ (forall r m, processImage false m r = [] /\ processImage m false r = [])
  /\ (labelled p ->
      map confidence (processImage true true (Predicted p now))
      = filter (fun s => gt s (1 # 2)) (scores p)
      /\ Forall (fun o => exists l, name o = Some l /\ In l COCO_LABELS)
                (processImage true true (Predicted p now))).
Proof.
  unfold processImage. simpl.
  destruct (processLoop_confident p now (scores p) 0) as [H1 H2].
  split; [exact H1|]. split; [exact H2|]. split.
  - intros r m. destruct m; auto.
  - intros [Hl Hc]. apply processLoop_labelled; auto.
Qed.

Lemma batch_contents_witness :
  map confidence
      (processImage true true (Predicted threeScores (fun _ => 0%Z)))
  = [9 # 10; 6 # 10].
Proof.
  assert (H : labelled threeScores).
  { split; [simpl; lia|]. repeat constructor; simpl; lia. }
  exact (proj1 (proj2 (proj2 (proj2 (batch_contents threeScores
                                       (fun _ => 0%Z)))) H)).
Defined.

(** X21. A frame without a detection is silent but still restarts the
    spacing clock; a failed capture only reports the error, keeps the
    timer and leaves the spacing clock alone, so that the next firing is
    judged as if the failed frame had not been tried. *)
Theorem quiet_and_failed_frames f w :
  (forall inf,
     processImage (isModelLoaded w) (model w) inf = [] ->
     out (resumeFrame f (Captured inf) w) = out w
     /\ lastFrameTime (resumeFrame f (Captured inf) w) = currentTime f)
  /\ (out (resumeFrame f CaptureFails w)
      = (out w ++ call1 (p_onError (params f))
                    (fun h => CbError h "Error during object detection"))%list
      /\ lastFrameTime (resumeFrame f CaptureFails w) = lastFrameTime w
      /\ timers (resumeFrame f CaptureFails w) = timers w
      /\ isDetecting (resumeFrame f CaptureFails w) = isDetecting w
      /\ forall p t,
           captures (detectFrame p t (resumeFrame f CaptureFails w))
           = captures (detectFrame p t w)).
Proof.
  split.
  - intros inf He. unfold resumeFrame. rewrite He. simpl.
    now rewrite app_nil_r.
  - unfold resumeFrame, frameError, emit, detectFrame. simpl.
    repeat split; auto.
    intros p t. destruct (_ <? _)%Z; simpl; auto.
    destruct (_ || _); reflexivity.
Qed.

Lemma quiet_and_failed_frames_witness :
  out (resumeFrame (mkFrame 5000 (paramsOf strictOptions))
         (Captured InferenceFails) (init true true false)) = [].
Proof.
  exact (proj1 (proj1 (quiet_and_failed_frames
                         (mkFrame 5000 (paramsOf strictOptions))
                         (init true true false))
                  InferenceFails eq_refl)).
Defined.

Lemma TimerOk_detectFrame p t w : TimerOk w -> TimerOk (detectFrame p t w).
Proof.
  intros H. unfold detectFrame. destruct (_ <? _)%Z; [exact H|].
  destruct (_ || _); exact H.
Qed.

Lemma TimerOk_step w e w' : TimerOk w -> step w e = Some w' -> TimerOk w'.
Proof.
  intros [Hp Ht] Hs. destruct e; simpl in Hs.
  - injection Hs as <-. unfold startDetection.
    destruct (isDetecting w) eqn:Hd; [split; [exact Hp|now rewrite Hd]|].
    rewrite Hp. simpl. destruct Ht as [Hi Hts].
    unfold startDetectionProcess.
    match goal with |- context [detectFrame ?p ?t ?x] =>
      assert (Hf : timers (detectFrame p t x) = []
                   /\ isDetecting (detectFrame p t x) = true
                   /\ hasPermission (detectFrame p t x) = true)
    end.
    { unfold detectFrame. simpl. rewrite Hts, Hp.
      destruct (_ <? _)%Z; simpl; auto.
      destruct (_ || _); simpl; auto. }
    destruct Hf as (Hf1 & Hf2 & Hf3).
    unfold TimerOk; simpl. rewrite Hf1, Hf2, Hf3. simpl. eauto.
  - injection Hs as <-. unfold stopDetection.
    destruct (isDetecting w) eqn:Hd; simpl.
    + destruct Ht as (t & p & Hi & Hts). unfold TimerOk; simpl.
      rewrite Hi, Hts. unfold remove_handle; simpl.
      rewrite Nat.eqb_refl. auto.
    + split; [exact Hp|now rewrite Hd].
  - injection Hs as <-. split; [exact Hp|exact Ht].
  - injection Hs as <-. split; [exact Hp|exact Ht].
  - destruct (lookup_handle t (timers w)); [|discriminate].
    injection Hs as <-. apply TimerOk_detectFrame. split; auto.
  - destruct (nth_error (inflight w) k) as [f|]; [|discriminate].
    injection Hs as <-. unfold resumeFrame, dropFrame, emit.
    destruct r; split; simpl; auto.
Qed.

(** X22. With the camera permission granted at construction, on every
    trace the service holds one timer exactly while it is detecting and
    none otherwise, and [startDetection] on a service that is detecting
    changes nothing. *)
Theorem one_detection_timer camera onWeb es w :
  run (init true camera onWeb) es = Some w ->
  (List.length (timers w) <= 1)%nat
  /\ (isDetecting w = true ->
      exists t p, detectionInterval w = Some t /\ timers w = [(t, p)])
  /\ (isDetecting w = false -> timers w = [])
  /\ (isDetecting w = true ->
      forall o a now now0, startDetection o a now now0 w = w).
Proof.
  intros Hr.
  assert (HT : TimerOk w).
  { assert (H0 : TimerOk (init true camera onWeb))
      by (unfold TimerOk; simpl; auto).
    revert Hr H0. generalize (init true camera onWeb).
    induction es as [|e es IH]; intros w0 Hr H0; simpl in Hr.
    - now injection Hr as <-.
    - destruct (step w0 e) as [w1|] eqn:Hs; [|discriminate].
      eapply IH; eauto using TimerOk_step. }
  destruct HT as [_ HT].
  destruct (isDetecting w) eqn:Hd.
  - destruct HT as (t & p & Hi & Hts). rewrite Hts. simpl.
    split; [lia|]. split; [eauto|]. split; [discriminate|].
    intros _ o a now now0. unfold startDetection. now rewrite Hd.
  - destruct HT as [_ ->]. simpl.
    split; [lia|]. split; [discriminate|]. split; [auto|discriminate].
Qed.

Lemma one_detection_timer_witness :
  exists w,
    run (init true true false)
        [EStart strictOptions Granted 0 0; EStart strictOptions Granted 50 50;
         EStop; EStart strictOptions Granted 90 90] = Some w
    /\ (List.length (timers w) <= 1)%nat.
Proof.
  eexists. split; [reflexivity|].
  exact (proj1 (one_detection_timer true false
                  [EStart strictOptions Granted 0 0;
                   EStart strictOptions Granted 50 50;
                   EStop; EStart strictOptions Granted 90 90] _ eq_refl)).
Defined.

(** X23. Nothing is captured during the first floor after a start: the
    [detectFrame] that [startDetectionProcess] calls at once is skipped,
    and so is every firing less than [frameInterval] after the start. *)
Theorem no_capture_in_first_floor o a now now0 w :
  isDetecting w = false -> hasPermission w = true ->
  (now0 - now < frameInterval w)%Z ->
  let w' := startDetection o a now now0 w in
  captures w' = captures w
  /\ inflight w' = inflight w
  /\ out w' = out w
  /\ lastFrameTime w' = now
  /\ forall p t, (t - now < frameInterval w)%Z -> detectFrame p t w' = w'.
Proof.
  intros Hd Hp Hlt. unfold startDetection. rewrite Hd, Hp. simpl.
  unfold startDetectionProcess, detectFrame. simpl.
  destruct (Z.ltb_spec (now0 - now) (frameInterval w)); [|lia].
  simpl. repeat split; auto.
  intros p t Ht. destruct (Z.ltb_spec (t - now) (frameInterval w)); [|lia].
  reflexivity.
Qed.

Lemma no_capture_in_first_floor_witness :
  captures (startDetection strictOptions Granted 0 3 (init true true false))
  = 0%nat.
Proof.
  exact (proj1 (no_capture_in_first_floor strictOptions Granted 0 3
                  (init true true false) eq_refl eq_refl eq_refl)).
Defined.

(** X24. [stopDetection] does not discard a frame in flight: when the
    frame resumes after the stop, it emits exactly what it would have
    emitted without the stop. *)
Theorem stop_keeps_frames_in_flight w k r :
  option_map out (run w [EStop; EFrame k r])
  = option_map out (run w [EFrame k r])
  /\ inflight (stopDetection w) = inflight w.
Proof.
  split.
  - simpl. unfold stopDetection.
    destruct (isDetecting w); simpl; [|reflexivity].
    destruct (nth_error (inflight w) k) as [f|]; [|reflexivity].
    simpl. unfold resumeFrame, dropFrame, emit. destruct r; reflexivity.
  - unfold stopDetection. destruct (isDetecting w); reflexivity.
Qed.

Lemma append_empty (s : string) : (s ++ "")%string = s.
Proof. induction s as [|c s IH]; simpl; [reflexivity|now rewrite IH]. Qed.

Lemma announceList_listed front last :
  forall i, (0 < i)%nat ->
  announceList (front ++ [last]) i (i + List.length front + 1)
  = listed front last.
Proof.
  induction front as [|o front IH]; intros i Hi; simpl.
  - destruct (Nat.ltb_spec 0 i); [|lia].
    replace (i + 0 + 1 - 1)%nat with i by lia. rewrite Nat.eqb_refl.
    now rewrite append_empty.
  - destruct (Nat.ltb_spec 0 i); [|lia].
    destruct (Nat.eqb_spec i (i + S (List.length front) + 1 - 1)); [lia|].
    replace (i + S (List.length front) + 1)%nat
      with (S i + List.length front + 1)%nat by lia.
    rewrite IH by lia. reflexivity.
Qed.

(** X25. The sentence spoken for a batch: one object is 'Detected a ...';
    several are 'Detected: ' and the descriptions in order, separated by
    commas with ' and ' before the last one and no comma before it. *)
Theorem announcement_grammar :
  (forall o, announcement [o] = ("Detected " ++ describe o)%string)
  /\ (forall first middle last,
        announcement (first :: middle ++ [last])
        = ("Detected: " ++ describe first ++ listed middle last)%string).
Proof.
  split; [reflexivity|].
  intros first middle last.
  assert (E : announcement (first :: middle ++ [last])
              = ("Detected: "
                 ++ announceList (first :: middle ++ [last]) 0
                      (List.length (first :: middle ++ [last])))%string).
  { unfold announcement. destruct middle; reflexivity. }
  rewrite E. cbn [announceList List.length]. simpl (0 <? 0)%nat. cbv iota.
  rewrite length_app. simpl (List.length [last]).
  replace (S (List.length middle + 1)) with (1 + List.length middle + 1)%nat
    by lia.
  rewrite announceList_listed by lia. reflexivity.
Qed.

End DetectMore.

(** ** The simulated detector *)

Module SimulateMore.
Import Detect Simulate.
Local Open Scope Q_scope.

Lemma plain_prefix (n1 : string) :
  forall n2 s1 s2,
    plain n1 = true -> plain n2 = true ->
    (n1 ++ "-" ++ s1 = n2 ++ "-" ++ s2)%string -> n1 = n2.
Proof.
  induction n1 as [|c r IH]; intros [|c' r'] s1 s2 H1 H2 E; cbn in *.
  - reflexivity.
  - injection E as Ec _. subst c'. discriminate.
  - injection E as Ec _. subst c. discriminate.
  - injection E as Ec Er. subst c'.
    apply andb_true_iff in H1 as [_ H1]. apply andb_true_iff in H2 as [_ H2].
    f_equal. exact (IH _ _ _ H1 H2 Er).
Qed.

Lemma select_range (avail : list CommonObject) :
  forall j cumulative r k,
    select avail j cumulative r = Some k ->
    (j <= k < j + List.length avail)%nat.
Proof.
  induction avail as [|o rest IH]; intros j cum r k H; cbn in *.
  - discriminate.
  - destruct (Qle_bool r (cum + probability o)).
    + injection H as <-. lia.
    + apply IH in H. lia.
Qed.

Lemma draws_random (rnd : list Q) :
  draws rnd ->
  (0 <= fst (random rnd) /\ fst (random rnd) < 1) /\ draws (snd (random rnd)).
Proof.
  intros H. destruct rnd as [|r rest]; cbn.
  - split; [split; [apply Qle_refl|reflexivity]|constructor].
  - inversion H; subst. split; assumption.
Qed.

Lemma fallback_range (r : Q) (len : nat) :
  0 <= r -> r < 1 -> (0 < len)%nat ->
  (0 <= Qfloor (r * inject_Z (Z.of_nat len)) < Z.of_nat len)%Z.
Proof.
  intros H0 H1 Hl.
  assert (Hlen : 0 < inject_Z (Z.of_nat len)).
  { change 0 with (inject_Z 0). rewrite <- Zlt_Qlt. lia. }
  split.
  - change 0%Z with (Qfloor 0). apply Qfloor_resp_le.
    apply Qmult_le_0_compat; [exact H0|apply Qlt_le_weak, Hlen].
  - rewrite Zlt_Qlt. eapply Qle_lt_trans; [apply Qfloor_le|].
    setoid_replace (inject_Z (Z.of_nat len)) with (1 * inject_Z (Z.of_nat len))
      at 2 by ring.
    apply Qmult_lt_compat_r; assumption.
Qed.

Lemma splice1_split {A : Type} (l1 l2 : list A) (c : A) :
  splice1 (List.length l1) (l1 ++ c :: l2) = (l1 ++ l2)%list.
Proof.
  unfold splice1. induction l1 as [|a l1 IH]; cbn in *.
  - reflexivity.
  - f_equal. exact IH.
Qed.

Lemma clamp_range (v : Q) :
  1 # 10 <= Qmin (Qmax v (1 # 10)) (99 # 100) <= 99 # 100.
Proof.
  unfold Qmin, Qmax.
  destruct (Qle_bool v (1 # 10)) eqn:E1.
  - cbn. split; discriminate.
  - destruct (Qle_bool v (99 # 100)) eqn:E2.
    + apply Qle_bool_iff in E2. split; [|exact E2].
      apply Qnot_lt_le. intros Hlt.
      assert (Qle_bool v (1 # 10) = true)
        by (apply Qle_bool_iff, Qlt_le_weak, Hlt).
      congruence.
    + split; [discriminate|apply Qle_refl].
Qed.

Lemma distance_in_range (lo hi rd : Q) :
  lo <= hi ->
  lo * 10 == inject_Z (Qfloor (lo * 10)) ->
  hi * 10 == inject_Z (Qfloor (hi * 10)) ->
  0 <= rd -> rd < 1 ->
  lo <= inject_Z (Math_round ((rd * (hi - lo) + lo) * 10)) / 10 <= hi.
Proof.
  intros Hle Hlo Hhi H0 H1.
  assert (Hd : 0 <= rd * (hi - lo)).
  { apply Qmult_le_0_compat; [exact H0|]. Lqa.lra. }
  assert (Hu : rd * (hi - lo) <= hi - lo).
  { setoid_replace (hi - lo) with (1 * (hi - lo)) at 2 by ring.
    apply Qmult_le_compat_r; [apply Qlt_le_weak, H1|Lqa.lra]. }
  remember (rd * (hi - lo)) as t eqn:Et. clear Et.
  set (v := (t + lo) * 10).
  assert (Hv : lo * 10 <= v <= hi * 10) by (unfold v; split; Lqa.lra).
  unfold Math_round.
  assert (Hfl : (Qfloor (lo * 10) <= Qfloor (v + (1 # 2)))%Z).
  { apply Qfloor_resp_le. Lqa.lra. }
  assert (Hfu : (Qfloor (v + (1 # 2)) <= Qfloor (hi * 10))%Z).
  { assert (Hlt : (Qfloor (v + (1 # 2)) < Qfloor (hi * 10) + 1)%Z).
    { rewrite Zlt_Qlt. eapply Qle_lt_trans; [apply Qfloor_le|].
      rewrite inject_Z_plus, <- Hhi. change (inject_Z 1) with 1.
      Lqa.lra. }
    lia. }
  rewrite Zle_Qle in Hfl, Hfu.
  rewrite <- Hlo in Hfl. rewrite <- Hhi in Hfu.
  set (m := inject_Z (Qfloor (v + (1 # 2)))) in *.
  split.
  - apply Qle_shift_div_l; [reflexivity|exact Hfl].
  - apply Qle_shift_div_r; [reflexivity|exact Hfu].
Qed.

Lemma catalogue_plain : forallb (fun c => plain (c_name c)) commonObjects = true.
Proof. vm_compute. reflexivity. Qed.

Lemma catalogue_tenths : forallb tenths commonObjects = true.
Proof. vm_compute. reflexivity. Qed.

Lemma catalogue_names_distinct : NoDup (map c_name commonObjects).
Proof.
  cbn. repeat (constructor; [cbn; intuition discriminate|]). constructor.
Qed.

Lemma selectIndex_range (avail : list CommonObject) (rnd : list Q) :
  draws rnd -> (0 < List.length avail)%nat ->
  (0 <= fst (selectIndex avail rnd) < Z.of_nat (List.length avail))%Z
  /\ draws (snd (selectIndex avail rnd)).
Proof.
  intros Hd Hl. unfold selectIndex.
  pose proof (draws_random rnd Hd) as [_ Hd1].
  destruct (random rnd) as [rv rnd1]; cbn [fst snd] in *.
  destruct (select avail 0 0 rv) as [j|] eqn:Es; cbn [fst snd].
  - apply select_range in Es. split; [lia|exact Hd1].
  - pose proof (draws_random rnd1 Hd1) as [[Ha Hb] Hc].
    destruct (random rnd1) as [r rnd']; cbn [fst snd] in *.
    split; [apply fallback_range; assumption|exact Hc].
Qed.

Lemma report_spec (thr : Q) (now : nat -> Z) (i : nat) (c : CommonObject)
    (rnd : list Q) (acc : list DetectedObject) :
  draws rnd -> tenths c = true ->
  draws (snd (report thr now i c rnd acc))
  /\ (fst (report thr now i c rnd acc) = acc
      \/ exists o, fst (report thr now i c rnd acc) = (acc ++ [o])%list
                   /\ reports thr c o).
Proof.
  intros Hd Ht. unfold report.
  pose proof (draws_random rnd Hd) as [_ Hd1].
  destruct (random rnd) as [r rnd1]; cbn [fst snd] in *.
  destruct (Qle_bool thr _) eqn:Ec; [|split; [exact Hd1|left; reflexivity]].
  pose proof (draws_random rnd1 Hd1) as [_ Hd2].
  destruct (random rnd1) as [rx rnd2]; cbn [fst snd] in *.
  pose proof (draws_random rnd2 Hd2) as [_ Hd3].
  destruct (random rnd2) as [ry rnd3]; cbn [fst snd] in *.
  pose proof (draws_random rnd3 Hd3) as [_ Hd4].
  destruct (random rnd3) as [rw rnd4]; cbn [fst snd] in *.
  pose proof (draws_random rnd4 Hd4) as [_ Hd5].
  destruct (random rnd4) as [rh rnd5]; cbn [fst snd] in *.
  unfold tenths in Ht.
  destruct (distanceRange c) as [lo hi] eqn:Er.
  pose proof (draws_random rnd5 Hd5) as [[Hr0 Hr1] Hd6].
  destruct (random rnd5) as [rd rnd6]; cbn [fst snd] in *.
  split; [exact Hd6|right].
  eexists. split; [reflexivity|].
  apply andb_true_iff in Ht as [Ht Hhi]. apply andb_true_iff in Ht as [Hle Hlo].
  apply Qle_bool_iff in Hle. apply Qeq_bool_iff in Hlo, Hhi.
  unfold reports; cbn [name id confidence distance].
  split; [reflexivity|]. split; [eexists; reflexivity|].
  split; [apply Qle_bool_iff, Ec|]. split; [apply clamp_range|].
  eexists. split; [reflexivity|]. rewrite Er. cbn [fst snd].
  apply distance_in_range; assumption.
Qed.

Lemma splice1_facts (avail : list CommonObject) (k : nat) (c : CommonObject) :
  nth_error avail k = Some c -> NoDup (map c_name avail) ->
  NoDup (map c_name (splice1 k avail))
  /\ ~ In (c_name c) (map c_name (splice1 k avail))
  /\ In c avail
  /\ incl (splice1 k avail) avail.
Proof.
  intros Hn Hnd. apply nth_error_split in Hn as (l1 & l2 & -> & <-).
  rewrite splice1_split. rewrite map_app in Hnd. cbn in Hnd.
  split; [rewrite map_app; exact (NoDup_remove_1 _ _ _ Hnd)|].
  split; [rewrite map_app; exact (NoDup_remove_2 _ _ _ Hnd)|].
  split; [apply in_or_app; right; left; reflexivity|].
  intros x Hx. apply in_app_or in Hx. apply in_or_app.
  destruct Hx as [Hx|Hx]; [left; exact Hx|right; right; exact Hx].
Qed.

Lemma simulateLoop_spec (thr : Q) (maxD : Z) (now : nat -> Z) :
  forall n i avail rnd acc,
    draws rnd -> NoDup (map c_name avail) -> incl avail commonObjects ->
    Forall (fun o => exists c, In c commonObjects
                               /\ ~ In (c_name c) (map c_name avail)
                               /\ reports thr c o) acc ->
    NoDup (map name acc) ->
    exists out,
      simulateLoop thr maxD now n i avail rnd acc = Some out
      /\ (List.length out <= List.length acc + n)%nat
      /\ ((Z.of_nat (List.length acc) < maxD)%Z ->
          (Z.of_nat (List.length out) <= maxD)%Z)
      /\ Forall (fun o => exists c, In c commonObjects /\ reports thr c o) out
      /\ NoDup (map name out).
Proof.
  assert (Hweak : forall avail acc,
    Forall (fun o => exists c, In c commonObjects
                               /\ ~ In (c_name c) (map c_name avail)
                               /\ reports thr c o) acc ->
    Forall (fun o => exists c, In c commonObjects /\ reports thr c o) acc).
  { intros avail acc H. eapply Forall_impl; [|exact H].
    intros o (c & Hc & _ & Hr). exists c. split; assumption. }
  induction n as [|n IH]; intros i avail rnd acc Hd Hnd Hin Hacc Hnames.
  - exists acc. cbn. repeat split; [lia|lia|eapply Hweak; eassumption|assumption].
  - destruct avail as [|a l].
    { exists acc. cbn.
      repeat split; [lia|lia|eapply Hweak; eassumption|assumption]. }
    cbn [simulateLoop]. set (av := a :: l) in *.
    assert (Hl : (0 < List.length av)%nat) by (cbn; lia).
    destruct (selectIndex_range av rnd Hd Hl) as [Hidx Hd1].
    destruct (selectIndex av rnd) as [idx rnd1]; cbn [fst snd] in *.
    unfold js_index. destruct (Z.ltb_spec idx 0) as [Hneg|_]; [lia|].
    destruct (nth_error av (Z.to_nat idx)) as [c|] eqn:En;
      [|apply nth_error_None in En; lia].
    destruct (splice1_facts av _ c En Hnd) as (Hnd' & Hout & Hc & Hincl).
    assert (Hcat : In c commonObjects) by (apply Hin, Hc).
    assert (Ht : tenths c = true).
    { pose proof catalogue_tenths as H. rewrite forallb_forall in H.
      exact (H c Hcat). }
    destruct (report_spec thr now i c rnd1 acc Hd1 Ht) as [Hd2 Hrep].
    destruct (report thr now i c rnd1 acc) as [det rnd2]; cbn [fst snd] in *.
    set (av' := splice1 (Z.to_nat idx) av) in *.
    assert (Hacc' : Forall (fun o => exists c, In c commonObjects
                               /\ ~ In (c_name c) (map c_name av')
                               /\ reports thr c o) det).
    { assert (Hold : Forall (fun o => exists c, In c commonObjects
                               /\ ~ In (c_name c) (map c_name av')
                               /\ reports thr c o) acc).
      { eapply Forall_impl; [|exact Hacc].
        intros o (c0 & H1 & H2 & H3). exists c0. split; [exact H1|].
        split; [|exact H3]. intros Hx. apply H2.
        apply in_map_iff in Hx as (y & Hy & Hy'). apply in_map_iff.
        exists y. split; [exact Hy|apply Hincl, Hy']. }
      destruct Hrep as [->|(o & -> & Ho)]; [exact Hold|].
      apply Forall_app. split; [exact Hold|].
      constructor; [|constructor]. exists c. repeat split; try assumption;
        apply Ho. }
    assert (Hnames' : NoDup (map name det)).
    { destruct Hrep as [->|(o & -> & Ho)]; [exact Hnames|].
      rewrite map_app. cbn [map].
      assert (Hfresh : ~ In (name o) (map name acc)).
      { intros Hx. apply in_map_iff in Hx as (o' & Ho' & Hino').
        rewrite Forall_forall in Hacc.
        destruct (Hacc o' Hino') as (c0 & _ & Hno & Hr0).
        destruct Ho as [Hn _]. destruct Hr0 as [Hn0 _].
        rewrite Hn, Hn0 in Ho'. injection Ho' as Ho'.
        apply Hno. rewrite Ho'. apply in_map, Hc. }
      clear - Hnames Hfresh.
      induction acc as [|x acc IHa]; cbn in *.
      - constructor; [intros []|constructor].
      - inversion Hnames; subst. constructor.
        + intros Hx. apply in_app_or in Hx. destruct Hx as [Hx|Hx]; [tauto|].
          destruct Hx as [Hx|Hx]; [|contradiction].
          apply Hfresh. left. symmetry. exact Hx.
        + apply IHa; [assumption|tauto]. }
    assert (Hlen : (List.length det <= List.length acc + 1)%nat).
    { destruct Hrep as [->|(o & -> & _)]; [lia|].
      rewrite length_app. cbn. lia. }
    destruct (Z.leb_spec maxD (Z.of_nat (List.length det))) as [Hcap|Hcap].
    + exists det. split; [reflexivity|]. split; [lia|]. split; [lia|].
      split; [eapply Hweak; exact Hacc'|exact Hnames'].
    + assert (Hin' : incl av' commonObjects).
      { intros y Hy. apply Hin, Hincl, Hy. }
      destruct (IH (S i) av' rnd2 det Hd2 Hnd' Hin' Hacc' Hnames')
        as (out & E & H1 & H2 & H3 & H4).
      exists out. split; [exact E|]. split; [lia|]. split; [|split; assumption].
      intros _. apply H2. exact Hcap.
Qed.

Lemma ids_distinct (thr : Q) (out : list DetectedObject) :
  Forall (fun o => exists c, In c commonObjects /\ reports thr c o) out ->
  NoDup (map name out) -> NoDup (map id out).
Proof.
  intros Hall. induction out as [|o out IH]; cbn; intros Hnd.
  - constructor.
  - inversion Hall as [|? ? Ho Hrest]; subst. inversion Hnd as [|? ? Hni Hnd'];
      subst.
    constructor; [|exact (IH Hrest Hnd')].
    intros Hx. apply Hni. apply in_map_iff in Hx as (o' & Eid & Hin').
    apply in_map_iff. exists o'. split; [|exact Hin'].
    rewrite Forall_forall in Hrest.
    destruct (Hrest o' Hin') as (c' & Hc' & Hn' & (s' & Hi') & _).
    destruct Ho as (c & Hc & Hn & (s & Hi) & _).
    pose proof catalogue_plain as Hp. rewrite forallb_forall in Hp.
    rewrite Hn, Hn'. f_equal.
    rewrite Hi, Hi' in Eid.
    exact (plain_prefix _ _ _ _ (Hp c' Hc') (Hp c Hc) Eid).
Qed.

Lemma numObjects_range (r : Q) :
  0 <= r -> r < 1 -> (1 <= Qfloor (r * 3) + 1 <= 3)%Z.
Proof.
  intros H0 H1. split.
  - assert (0 <= Qfloor (r * 3))%Z; [|lia].
    change 0%Z with (Qfloor 0). apply Qfloor_resp_le. Lqa.lra.
  - assert (Qfloor (r * 3) < 3)%Z; [|lia].
    rewrite Zlt_Qlt. eapply Qle_lt_trans; [apply Qfloor_le|].
    change (inject_Z 3) with 3. Lqa.lra.
Qed.

(** X26. On draws of [Math.random()], [simulateObjectDetection] returns a
    list of at most three objects, and of at most [maxDetections] objects
    when [maxDetections] is at least 1. *)
Theorem simulated_batch_size (thr : Q) (maxD : Z) (now : nat -> Z)
    (rnd : list Q) :
  draws rnd ->
  exists out,
    simulateObjectDetection thr maxD now rnd = Some out
    /\ (List.length out <= 3)%nat
    /\ ((1 <= maxD)%Z -> (Z.of_nat (List.length out) <= maxD)%Z).
Proof.
  intros Hd. unfold simulateObjectDetection.
  pose proof (draws_random rnd Hd) as [[H0 H1] Hd0].
  destruct (random rnd) as [r0 rnd0]; cbn [fst snd] in *.
  pose proof (numObjects_range r0 H0 H1) as Hn.
  destruct (simulateLoop_spec thr maxD now (Z.to_nat (Qfloor (r0 * 3) + 1)) 0
              commonObjects rnd0 [] Hd0 catalogue_names_distinct
              (incl_refl _) (Forall_nil _) (NoDup_nil _))
    as (out & E & Hl & Hcap & _).
  exists out. split; [exact E|]. cbn [List.length] in *.
  split; [lia|]. intros Hm. apply Hcap. lia.
Qed.

(** X27. On draws of [Math.random()], every object that
    [simulateObjectDetection] returns is drawn from [commonObjects]: it
    carries that entry's name, a confidence between 0.1 and 0.99 that is at
    least the threshold, and a distance within the entry's range; no two
    returned objects share a name, and no two share an id. *)
Theorem simulated_batch_contents (thr : Q) (maxD : Z) (now : nat -> Z)
    (rnd : list Q) :
  draws rnd ->
  exists out,
    simulateObjectDetection thr maxD now rnd = Some out
    /\ Forall (fun o => exists c, In c commonObjects /\ reports thr c o) out
    /\ NoDup (map name out)
    /\ NoDup (map id out).
Proof.
  intros Hd. unfold simulateObjectDetection.
  pose proof (draws_random rnd Hd) as [_ Hd0].
  destruct (random rnd) as [r0 rnd0]; cbn [fst snd] in *.
  destruct (simulateLoop_spec thr maxD now (Z.to_nat (Qfloor (r0 * 3) + 1)) 0
              commonObjects rnd0 [] Hd0 catalogue_names_distinct
              (incl_refl _) (Forall_nil _) (NoDup_nil _))
    as (out & E & _ & _ & Hall & Hnd).
  exists out. split; [exact E|]. split; [exact Hall|].
  split; [exact Hnd|exact (ids_distinct thr out Hall Hnd)].
Qed.

Lemma sampleDraws_ok : draws sampleDraws.
Proof.
  unfold draws, sampleDraws.
  repeat (constructor; [split; [discriminate|reflexivity]|]). constructor.
Qed.

Lemma simulated_batch_size_witness :
  exists out,
    simulateObjectDetection (1 # 2) 5 (fun _ => 1700%Z) sampleDraws = Some out
    /\ (List.length out <= 3)%nat
    /\ ((1 <= 5)%Z -> (Z.of_nat (List.length out) <= 5)%Z).
Proof.
  exact (simulated_batch_size (1 # 2) 5 (fun _ => 1700%Z) sampleDraws
           sampleDraws_ok).
Defined.

Lemma simulated_batch_contents_witness :
  exists out,
    simulateObjectDetection (1 # 2) 5 (fun _ => 1700%Z) sampleDraws = Some out
    /\ Forall (fun o => exists c, In c commonObjects
                                  /\ reports (1 # 2) c o) out
    /\ NoDup (map name out)
    /\ NoDup (map id out).
Proof.
  exact (simulated_batch_contents (1 # 2) 5 (fun _ => 1700%Z) sampleDraws
           sampleDraws_ok).
Defined.

End SimulateMore.
